(** * The dense column-major matrix layer (Matrix.hh part of DynareBison.hh)

    A shallow embedding of the three matrix classes ([Matrix], [MatrixView],
    [MatrixConstView]), of the "matrix concept" they implement and of the
    generic algorithms of [namespace mat], followed by the properties of
    that code.

    Conventions of the model.
    - [size_t] is a 64-bit unsigned integer: a value of [N] below [2^64];
      every [size_t] sum or product of the source goes through [wrap].
    - A [double] is a primitive binary64 float.
    - A [double*] is an address counted in doubles inside one flat store
      shared by all matrices, so that a view and its parent alias.  Pointer
      arithmetic is not wrapped.
    - [assert] is compiled in (no [NDEBUG]): a failed assertion aborts the
      call and names the asserted expression.
    - An access outside allocated storage is undefined behaviour in C++; the
      model reports it as [Fault]. *)

From Stdlib Require Import NArith Lia Floats.
From stdpp Require Import base gmap strings list fin_maps numbers.

Local Open Scope N_scope.

(** ** Machine integers and addresses *)

Abbreviation size_t := N.
Abbreviation ptr := N.
Abbreviation double := float.

Definition SIZE_MOD : N := 2 ^ 64.
Definition wrap (n : N) : size_t := n mod SIZE_MOD.
Definition sizeof_double : size_t := 8.

(** The iteration space [0, 1, ..., n-1] of a counting loop. *)
Definition iota (n : N) : list N := N.of_nat <$> seq 0 (N.to_nat n).

(** ** The store and the monad of commands *)

Abbreviation heap := (gmap N float).

(** How a call ends: it returns [a]; a failed [assert] on [expr] aborts it;
    it accesses storage that is not allocated; or it never ends. *)
Inductive outcome (A : Type) : Type :=
| Done (a : A)
| Abort (expr : string)
| Fault
| Diverge.
Arguments Done {A} a.
Arguments Abort {A} expr.
Arguments Fault {A}.
Arguments Diverge {A}.

(** A command runs on a store and leaves a store, also when it fails. *)
Definition M (A : Type) : Type := heap → outcome A * heap.

#[global] Instance M_ret : MRet M := λ A a h, (Done a, h).
#[global] Instance M_bind : MBind M := λ A B f c h,
  match c h with
  | (Done a, h') => f a h'
  | (Abort e, h') => (Abort e, h')
  | (Fault, h') => (Fault, h')
  | (Diverge, h') => (Diverge, h')
  end.

(** [assert(b)], [e] being the text of the asserted expression. *)
Definition assert_ (b : bool) (e : string) : M unit :=
  λ h, if b then (Done tt, h) else (Abort e, h).

Definition diverge {A} : M A := λ h, (Diverge, h).

(** [*p] as an rvalue and [*p = v]. *)
Definition load (p : ptr) : M double :=
  λ h, match h !! p with Some v => (Done v, h) | None => (Fault, h) end.
Definition store (p : ptr) (v : double) : M unit :=
  λ h, match h !! p with Some _ => (Done tt, <[p := v]> h) | None => (Fault, h) end.

(** A loop [while (cond s) s = body s].  [fuel] bounds the number of
    iterations; a loop whose condition still holds when the fuel is spent
    is reported as [Diverge]. *)
Fixpoint while_ {S : Type} (fuel : nat) (cond : S → bool) (body : S → M S) (s : S) : M S :=
  if cond s then
    match fuel with
    | O => diverge
    | Datatypes.S fuel' => s' ← body s; while_ fuel' cond body s'
    end
  else mret s.

(** A loop whose body may [return r] from the enclosing function: the body
    yields [inr r] to return and [inl s'] to go on. *)
Fixpoint while_ret {S R : Type} (fuel : nat) (cond : S → bool)
    (body : S → M (S + R)) (s : S) : M (S + R) :=
  if cond s then
    match fuel with
    | O => diverge
    | Datatypes.S fuel' =>
        x ← body s;
        match x with
        | inl s' => while_ret fuel' cond body s'
        | inr r => mret (inr r)
        end
    end
  else mret (inl s).

(** [for (size_t i = 0; i < n; ++i) body i]. *)
Definition for_ (n : size_t) (body : size_t → M unit) : M unit :=
  while_ (N.to_nat n) (λ i, i <? n) (λ i, body i;; mret (wrap (i + 1))) 0;; mret tt.

(** [std::fill_n(p, n, v)]. *)
Definition fill_n (p : ptr) (n : size_t) (v : double) : M unit :=
  for_ n (λ k, store (p + k) v).

(** [memcpy(dst, src, bytes)] on arrays of doubles: the source block is read,
    then written to the destination.  (For overlapping blocks C leaves the
    result undefined; the properties below are stated for separate or
    identical blocks.) *)
Fixpoint load_block (k : nat) (p : ptr) : M (list double) :=
  match k with
  | O => mret []
  | Datatypes.S k' => v ← load p; vs ← load_block k' (p + 1); mret (v :: vs)
  end.
Fixpoint store_block (p : ptr) (vs : list double) : M unit :=
  match vs with
  | [] => mret tt
  | v :: vs' => store p v;; store_block (p + 1) vs'
  end.
Definition memcpy (dst src : ptr) (bytes : size_t) : M unit :=
  vs ← load_block (N.to_nat (bytes / sizeof_double)) src; store_block dst vs.

(** [std::vector<size_t>]: [v.size()] and the unchecked [v[i]] (read below
    [v.size()] only, or in the reserved storage of the index-vector block). *)
Abbreviation vec := (list N).
Definition size (v : vec) : size_t := N.of_nat (length v).
Definition nth_ (v : vec) (i : size_t) : size_t := nth (N.to_nat i) v 0.

(** ** The matrix concept

    [M.getRows()], [M.getCols()], [M.getLd()], [M.getData()] and [M(i,j)]
    (as the location of the element; [load] and [store] read and write it).
    Each class writes its own [operator()]; [element_addr] records that all
    of them address [data[i + j*ld]]. *)

Class MatrixConcept (Mat : Type) : Type := {
  getRows : Mat → size_t;
  getCols : Mat → size_t;
  getLd : Mat → size_t;
  getData : Mat → ptr;
  element : Mat → size_t → size_t → ptr;
  element_addr : ∀ m i j, element m i j = getData m + wrap (i + j * getLd m)
}.

(** The body shared by the two templated assignment operators, for a
    destination whose columns are [getLd] apart. *)
Definition copy_columns `{MatrixConcept Dst, MatrixConcept Src} (m : Dst) (arg : Src) : M unit :=
  assert_ ((getRows m =? getRows arg) && (getCols m =? getCols arg))
    "rows == arg.getRows() && cols == arg.getCols()";;
  for_ (getCols m) (λ j,
    memcpy (getData m + wrap (j * getLd m)) (getData arg + wrap (j * getLd arg))
      (wrap (getRows m * sizeof_double))).

(** The mutable matrix concept adds [M.setAll(d)] and [M = X].  [assign] is
    the assignment operator of the class and [assign_copy_columns] states
    what it does for every class of this header. *)
Class MutableMatrixConcept (Mat : Type) `{MatrixConcept Mat} : Type := {
  setAll : Mat → double → M unit;
  assign : ∀ {Src : Type} `{MatrixConcept Src}, Mat → Src → M unit;
  assign_copy_columns : ∀ (Src : Type) (HS : MatrixConcept Src) (m : Mat) (arg : Src),
    assign m arg = copy_columns m arg
}.

(** ** class Matrix *)

Record Matrix : Type := {
  Matrix_data : ptr;
  Matrix_rows : size_t;
  Matrix_cols : size_t
}.

Definition Matrix_at (m : Matrix) (i j : size_t) : ptr :=
  Matrix_data m + wrap (i + j * Matrix_rows m).

#[global] Instance Matrix_concept : MatrixConcept Matrix := {|
  getRows := Matrix_rows;
  getCols := Matrix_cols;
  getLd := Matrix_rows;
  getData := Matrix_data;
  element := Matrix_at;
  element_addr := λ m i j, eq_refl
|}.

Definition Matrix_setAll (m : Matrix) (val : double) : M unit :=
  fill_n (Matrix_data m) (wrap (Matrix_rows m * Matrix_cols m)) val.

Definition Matrix_assign `{MatrixConcept Mat} (m : Matrix) (arg : Mat) : M unit :=
  assert_ ((Matrix_rows m =? getRows arg) && (Matrix_cols m =? getCols arg))
    "rows == arg.getRows() && cols == arg.getCols()";;
  for_ (Matrix_cols m) (λ j,
    memcpy (Matrix_data m + wrap (j * Matrix_rows m)) (getData arg + wrap (j * getLd arg))
      (wrap (Matrix_rows m * sizeof_double))).

(** Modelled from the spec: the copy assignment operator
    [Matrix &operator=(const Matrix &arg)], which C++ selects for an
    argument of class [Matrix]; it is declared in this header and defined
    outside it.  Spec 4.1: assignment from any matrix-concept value of equal
    rows and cols copies column by column, each column one block of [rows]
    elements from offset [col*sourceLd] to offset [col*rows], and fails if
    the dimensions differ.  It coincides with the templated operator, so
    [assign] need not tell the two apart. *)
Definition Matrix_copy_assign (m arg : Matrix) : M unit :=
  assert_ ((Matrix_rows m =? Matrix_rows arg) && (Matrix_cols m =? Matrix_cols arg))
    "rows == arg.getRows() && cols == arg.getCols()";;
  for_ (Matrix_cols m) (λ j,
    memcpy (Matrix_data m + wrap (j * Matrix_rows m)) (Matrix_data arg + wrap (j * Matrix_rows arg))
      (wrap (Matrix_rows m * sizeof_double))).

#[global] Instance Matrix_mutable : MutableMatrixConcept Matrix := {|
  setAll := Matrix_setAll;
  assign := @Matrix_assign;
  assign_copy_columns := λ Src HS m arg, eq_refl
|}.

(** ** class MatrixView *)

Record MatrixView : Type := {
  MatrixView_data : ptr;
  MatrixView_rows : size_t;
  MatrixView_cols : size_t;
  MatrixView_ld : size_t
}.

(** [MatrixView(arg, row_offset, col_offset, rows_arg, cols_arg)]: the
    members are initialised, then the constructor body asserts. *)
Definition MatrixView_of `{MatrixConcept Mat} (arg : Mat)
    (row_offset col_offset rows_arg cols_arg : size_t) : M MatrixView :=
  let this := {| MatrixView_data := getData arg + row_offset + wrap (col_offset * getLd arg);
                 MatrixView_rows := rows_arg;
                 MatrixView_cols := cols_arg;
                 MatrixView_ld := getLd arg |} in
  assert_ ((row_offset <? getRows arg)
           && (wrap (row_offset + rows_arg) <=? getRows arg)
           && (col_offset <? getCols arg)
           && (wrap (col_offset + cols_arg) <=? getCols arg))
    "row_offset < arg.getRows() && row_offset + rows_arg <= arg.getRows() && col_offset < arg.getCols() && col_offset + cols_arg <= arg.getCols()";;
  mret this.

Definition MatrixView_at (m : MatrixView) (i j : size_t) : ptr :=
  MatrixView_data m + wrap (i + j * MatrixView_ld m).

#[global] Instance MatrixView_concept : MatrixConcept MatrixView := {|
  getRows := MatrixView_rows;
  getCols := MatrixView_cols;
  getLd := MatrixView_ld;
  getData := MatrixView_data;
  element := MatrixView_at;
  element_addr := λ m i j, eq_refl
|}.

(** [for (double *p = data; p < data + cols*ld; p += ld) std::fill_n(p, rows, val);] *)
Definition MatrixView_setAll (m : MatrixView) (val : double) : M unit :=
  let pend := MatrixView_data m + wrap (MatrixView_cols m * MatrixView_ld m) in
  while_ (N.to_nat (pend - MatrixView_data m)) (λ p, p <? pend)
    (λ p, fill_n p (MatrixView_rows m) val;; mret (p + MatrixView_ld m))
    (MatrixView_data m);;
  mret tt.

Definition MatrixView_assign `{MatrixConcept Mat} (m : MatrixView) (arg : Mat) : M unit :=
  assert_ ((MatrixView_rows m =? getRows arg) && (MatrixView_cols m =? getCols arg))
    "rows == arg.getRows() && cols == arg.getCols()";;
  for_ (MatrixView_cols m) (λ j,
    memcpy (MatrixView_data m + wrap (j * MatrixView_ld m)) (getData arg + wrap (j * getLd arg))
      (wrap (MatrixView_rows m * sizeof_double))).

(** Modelled from the spec: the copy assignment operator
    [MatrixView &operator=(const MatrixView &arg)], declared in this header
    and defined outside it.  Spec 4.2: as for [Matrix], the destination
    stride being [ld]. *)
Definition MatrixView_copy_assign (m arg : MatrixView) : M unit :=
  assert_ ((MatrixView_rows m =? MatrixView_rows arg) && (MatrixView_cols m =? MatrixView_cols arg))
    "rows == arg.getRows() && cols == arg.getCols()";;
  for_ (MatrixView_cols m) (λ j,
    memcpy (MatrixView_data m + wrap (j * MatrixView_ld m))
      (MatrixView_data arg + wrap (j * MatrixView_ld arg))
      (wrap (MatrixView_rows m * sizeof_double))).

#[global] Instance MatrixView_mutable : MutableMatrixConcept MatrixView := {|
  setAll := MatrixView_setAll;
  assign := @MatrixView_assign;
  assign_copy_columns := λ Src HS m arg, eq_refl
|}.

(** ** class MatrixConstView: the matrix concept only, no mutator *)

Record MatrixConstView : Type := {
  MatrixConstView_data : ptr;
  MatrixConstView_rows : size_t;
  MatrixConstView_cols : size_t;
  MatrixConstView_ld : size_t
}.

Definition MatrixConstView_of `{MatrixConcept Mat} (arg : Mat)
    (row_offset col_offset rows_arg cols_arg : size_t) : M MatrixConstView :=
  let this := {| MatrixConstView_data := getData arg + row_offset + wrap (col_offset * getLd arg);
                 MatrixConstView_rows := rows_arg;
                 MatrixConstView_cols := cols_arg;
                 MatrixConstView_ld := getLd arg |} in
  assert_ ((row_offset <? getRows arg)
           && (wrap (row_offset + rows_arg) <=? getRows arg)
           && (col_offset <? getCols arg)
           && (wrap (col_offset + cols_arg) <=? getCols arg))
    "row_offset < arg.getRows() && row_offset + rows_arg <= arg.getRows() && col_offset < arg.getCols() && col_offset + cols_arg <= arg.getCols()";;
  mret this.

Definition MatrixConstView_at (m : MatrixConstView) (i j : size_t) : ptr :=
  MatrixConstView_data m + wrap (i + j * MatrixConstView_ld m).

#[global] Instance MatrixConstView_concept : MatrixConcept MatrixConstView := {|
  getRows := MatrixConstView_rows;
  getCols := MatrixConstView_cols;
  getLd := MatrixConstView_ld;
  getData := MatrixConstView_data;
  element := MatrixConstView_at;
  element_addr := λ m i j, eq_refl
|}.

(** ** namespace mat: the generic algorithms *)

Module mat.

Section generic.
Context {Mat1 : Type} {C1 : MatrixConcept Mat1}.
Context {Mat2 : Type} {C2 : MatrixConcept Mat2}.

(** [col_copy(src, col_src, dest, col_dest)], the whole-column overload. *)
Definition col_copy (src : Mat1) (col_src : size_t) (dest : Mat2) (col_dest : size_t) : M unit :=
  assert_ ((getRows src =? getRows dest) && (col_src <? getCols src) && (col_dest <? getCols dest))
    "src.getRows() == dest.getRows() && col_src < src.getCols() && col_dest < dest.getCols()";;
  memcpy (getData dest + wrap (col_dest * getLd dest))
         (getData src + wrap (col_src * getLd src))
         (wrap (getRows src * sizeof_double)).

Definition row_copy (src : Mat1) (row_src : size_t) (dest : Mat2) (row_dest : size_t) : M unit :=
  assert_ ((getCols src =? getCols dest) && (row_src <? getRows src) && (row_dest <? getRows dest))
    "src.getCols() == dest.getCols() && row_src < src.getRows() && row_dest < dest.getRows()";;
  let pend := getData src + wrap (getCols src * getLd src) in
  while_ (N.to_nat (pend - getData src)) (λ '(p1, p2), p1 <? pend)
    (λ '(p1, p2), v ← load p1; store p2 v;; mret (p1 + getLd src, p2 + getLd dest))
    (getData src + row_src, getData dest + row_dest);;
  mret tt.

(** [std::swap(x, y)] on two elements. *)
Definition swap (x y : ptr) : M unit :=
  tmp ← load x; v ← load y; store x v;; store y tmp.

(** In-place transpose of a square matrix. *)
Definition transpose (m : Mat1) : M unit :=
  assert_ (getRows m =? getCols m) "M.getRows() == M.getCols()";;
  for_ (getRows m) (λ i, for_ i (λ j, swap (element m i j) (element m j i))).

(** [m1 = m1 + m2]. *)
Definition add (m1 : Mat1) (m2 : Mat2) : M unit :=
  assert_ ((getRows m1 =? getRows m2) && (getCols m1 =? getCols m2))
    "m1.getRows() == m2.getRows() && m1.getCols() == m2.getCols()";;
  let pend := getData m1 + wrap (getCols m1 * getLd m1) in
  while_ (N.to_nat (pend - getData m1)) (λ '(p1, p2), p1 <? pend)
    (λ '(p1, p2),
       while_ (N.to_nat (getRows m1)) (λ '(pp1, pp2), pp1 <? p1 + getRows m1)
         (λ '(pp1, pp2), x ← load pp1; y ← load pp2; store pp1 (x + y)%float;;
                         mret (pp1 + 1, pp2 + 1))
         (p1, p2);;
       mret (p1 + getLd m1, p2 + getLd m2))
    (getData m1, getData m2);;
  mret tt.

(** [m1 = m1 + d]. *)
Definition add_d (m1 : Mat1) (d : double) : M unit :=
  let pend := getData m1 + wrap (getCols m1 * getLd m1) in
  while_ (N.to_nat (pend - getData m1)) (λ p1, p1 <? pend)
    (λ p1,
       while_ (N.to_nat (getRows m1)) (λ pp1, pp1 <? p1 + getRows m1)
         (λ pp1, x ← load pp1; store pp1 (x + d)%float;; mret (pp1 + 1))
         p1;;
       mret (p1 + getLd m1))
    (getData m1);;
  mret tt.

(** [m1 = m1 - m2]. *)
Definition sub (m1 : Mat1) (m2 : Mat2) : M unit :=
  assert_ ((getRows m1 =? getRows m2) && (getCols m1 =? getCols m2))
    "m1.getRows() == m2.getRows() && m1.getCols() == m2.getCols()";;
  let pend := getData m1 + wrap (getCols m1 * getLd m1) in
  while_ (N.to_nat (pend - getData m1)) (λ '(p1, p2), p1 <? pend)
    (λ '(p1, p2),
       while_ (N.to_nat (getRows m1)) (λ '(pp1, pp2), pp1 <? p1 + getRows m1)
         (λ '(pp1, pp2), x ← load pp1; y ← load pp2; store pp1 (x - y)%float;;
                         mret (pp1 + 1, pp2 + 1))
         (p1, p2);;
       mret (p1 + getLd m1, p2 + getLd m2))
    (getData m1, getData m2);;
  mret tt.

(** [m1 = m1 - d]. *)
Definition sub_d (m1 : Mat1) (d : double) : M unit :=
  add_d m1 (-1.0 * d)%float.

(** [m = -m]. *)
Definition negate (m : Mat1) : M unit :=
  let pend := getData m + wrap (getCols m * getLd m) in
  while_ (N.to_nat (pend - getData m)) (λ p, p <? pend)
    (λ p,
       while_ (N.to_nat (getRows m)) (λ pp, pp <? p + getRows m)
         (λ pp, x ← load pp; store pp (- x)%float;; mret (pp + 1))
         p;;
       mret (p + getLd m))
    (getData m);;
  mret tt.

(** The infinity norm; the accumulator [nrm] is a local of the function. *)
Definition nrminf (m : Mat1) : M double :=
  let pend := getData m + wrap (getCols m * getLd m) in
  r ← while_ (N.to_nat (pend - getData m)) (λ '(p, nrm), p <? pend)
        (λ '(p, nrm),
           r ← while_ (N.to_nat (getRows m)) (λ '(pp, nrm), pp <? p + getRows m)
                 (λ '(pp, nrm), x ← load pp;
                    mret (pp + 1, if (nrm <? abs x)%float then abs x else nrm))
                 (p, nrm);
           mret (p + getLd m, r.2))
        (getData m, 0%float);
  mret r.2.

Definition isDiff (m1 : Mat1) (m2 : Mat2) (tol : double) : M bool :=
  assert_ ((getRows m2 =? getRows m1) && (getCols m2 =? getCols m1))
    "m2.getRows() == m1.getRows() && m2.getCols() == m1.getCols()";;
  let pend := getData m1 + wrap (getCols m1 * getLd m1) in
  r ← while_ret (R := bool) (N.to_nat (pend - getData m1)) (λ '(p1, p2), p1 <? pend)
        (λ '(p1, p2),
           r ← while_ret (R := bool) (N.to_nat (getRows m1)) (λ '(pp1, pp2), pp1 <? p1 + getRows m1)
                 (λ '(pp1, pp2), x ← load pp1; y ← load pp2;
                    if (tol <? abs (x - y))%float then mret (inr true)
                    else mret (inl (pp1 + 1, pp2 + 1)))
                 (p1, p2);
           match r with
           | inl _ => mret (inl (p1 + getLd m1, p2 + getLd m2))
           | inr b => mret (inr b)
           end)
        (getData m1, getData m2);
  match r with
  | inl _ => mret false
  | inr b => mret b
  end.

(** [col_copy(src, col_src, row_offset_src, row_nb, dest, col_dest,
    row_offset_dest)], the overload that copies [row_nb] rows of a column. *)
Definition col_copy_rows (src : Mat1) (col_src row_offset_src row_nb : size_t)
    (dest : Mat2) (col_dest row_offset_dest : size_t) : M unit :=
  assert_ ((col_src <? getCols src) && (col_dest <? getCols dest)
           && (row_offset_src <? getRows src)
           && (wrap (row_offset_src + row_nb) <=? getRows src)
           && (row_offset_dest <? getRows dest)
           && (wrap (row_offset_dest + row_nb) <=? getRows dest))
    "col_src < src.getCols() && col_dest < dest.getCols() && row_offset_src < src.getRows() && row_offset_src+row_nb <= src.getRows() && row_offset_dest < dest.getRows() && row_offset_dest+row_nb <= dest.getRows()";;
  memcpy (getData dest + row_offset_dest + wrap (col_dest * getLd dest))
         (getData src + row_offset_src + wrap (col_src * getLd src))
         (wrap (row_nb * sizeof_double)).


(** Copy under the diagonal the elements above the diagonal. *)
Definition copy_upper_to_lower (m : Mat1) : M unit :=
  let d := N.min (getCols m) (getRows m) in
  for_ d (λ i, for_ i (λ j, v ← load (element m j i); store (element m i j) v)).

(** Copy above the diagonal the elements under the diagonal. *)
Definition copy_lower_to_upper (m : Mat1) : M unit :=
  let d := N.min (getCols m) (getRows m) in
  for_ d (λ i, for_ i (λ j, v ← load (element m i j); store (element m j i) v)).

(** [transpose(M1, M2)]: [M1 = M2'], also for rectangular matrices. *)
Definition transpose_of (m1 : Mat1) (m2 : Mat2) : M unit :=
  assert_ ((getRows m1 =? getCols m2) && (getCols m1 =? getRows m2))
    "M1.getRows() == M2.getCols() && M1.getCols() == M2.getRows()";;
  for_ (getRows m1) (λ i, for_ (getCols m1) (λ j,
    v ← load (element m2 j i); store (element m1 i j) v)).

(** [repmat(a, multv, multh, repMat)]: [repMat] is [multv] by [multh] tiles
    of [a]. *)
Definition repmat (a : Mat1) (multv multh : size_t) (repMat : Mat2) : M unit :=
  assert_ ((getRows repMat =? wrap (multv * getRows a))
           && (getCols repMat =? wrap (multh * getCols a)))
    "repMat.getRows() == multv * a.getRows() && repMat.getCols() == multh * a.getCols()";;
  for_ multv (λ i, for_ multh (λ j, for_ (getCols a) (λ k,
    col_copy_rows a k 0 (getRows a)
      repMat (wrap (wrap (getCols a * j) + k)) (wrap (getRows a * i))))).

(** [isDiffSym]: the comparison of [isDiff] along the diagonals of the upper
    triangle; [i] numbers the diagonal and [j] the row. *)
Definition isDiffSym (m1 : Mat1) (m2 : Mat2) (tol : double) : M bool :=
  assert_ ((getRows m2 =? getRows m1) && (getCols m2 =? getCols m1)
           && (getRows m2 =? getCols m1) && (getCols m2 =? getRows m1))
    "m2.getRows() == m1.getRows() && m2.getCols() == m1.getCols() && m2.getRows() == m1.getCols() && m2.getCols() == m1.getRows()";;
  r ← while_ret (R := bool) (N.to_nat (getCols m1)) (λ i, i <? getCols m1)
        (λ i,
           r ← while_ret (R := bool) (N.to_nat (getCols m1)) (λ j, wrap (i + j) <? getCols m1)
                 (λ j, x ← load (element m1 j (wrap (j + i)));
                       y ← load (element m2 j (wrap (j + i)));
                       if (tol <? abs (x - y))%float then mret (inr true)
                       else mret (inl (wrap (j + 1))))
                 0;
           match r with
           | inl _ => mret (inl (wrap (i + 1)))
           | inr b => mret (inr b)
           end)
        0;
  match r with
  | inl _ => mret false
  | inr b => mret b
  end.
End generic.

(** *** Index vectors

    The three functions below repeat one block of code for each index
    vector [v] of a matrix axis of [count] entries; it sets the number [n]
    of selected entries and the vector [vp] that is read afterwards.

    [if (v.size() == 0)
       { n = count; tmp.reserve(n);
         for (size_t i = 0; i < n; ++i) tmp[i] = i;
         vp = &tmp; }
     else
       { for (size_t i = 0; i < v.size(); ++i) { assert(v[i] < count); n++; }
         assert(n <= count);
         vp = &v; }]

    [reserve] leaves [tmp.size()] at zero: the entries are written to the
    reserved storage and read back through the unchecked [operator[]].  The
    allocation is taken to succeed. *)
Definition identity_indices (count : size_t) : vec :=
  foldl (λ tmp i, <[N.to_nat i := i]> tmp) (replicate (N.to_nat count) 0) (iota count).

Definition check_indices (v : vec) (count : size_t) (e : string) (n : size_t) : M size_t :=
  r ← while_ (length v) (λ '(i, n), i <? size v)
        (λ '(i, n), assert_ (nth_ v i <? count) e;; mret (wrap (i + 1), wrap (n + 1)))
        (0, n);
  mret r.2.

Definition index_vector (v : vec) (count : size_t) (e_index e_count : string) : M (size_t * vec) :=
  if size v =? 0 then mret (count, identity_indices count)
  else
    n ← check_indices v count e_index 0;
    assert_ (n <=? count) e_count;;
    mret (n, v).

Section indexed.
Context {Mat1 : Type} {C1 : MatrixConcept Mat1} {Mu1 : MutableMatrixConcept Mat1}.
Context {Mat2 : Type} {C2 : MatrixConcept Mat2}.

(** [A(:,b) = B(:,d)]. *)
Definition reorderColumnsByVectors (a : Mat1) (vToCols : vec) (b : Mat2) (vcols : vec) : M unit :=
  assert_ (getRows b =? getRows a) "b.getRows() == a.getRows()";;
  if (size vToCols =? 0) && (size vcols =? 0) then assign a b
  else
    '(toncols, vpToCols) ←
      index_vector vToCols (getCols a) "vToCols[i] < a.getCols()" "toncols <= a.getCols()";
    '(ncols, vpCols) ←
      index_vector vcols (getCols b) "vcols[i] < b.getCols()" "ncols <= b.getCols()";
    assert_ ((toncols =? ncols) && (0 <? ncols)) "toncols == ncols && ncols > 0";;
    for_ ncols (λ j, col_copy b (nth_ vpCols j) a (nth_ vpToCols j)).

(** [A(a,:) = B(c,:)]. *)
Definition reorderRowsByVectors (a : Mat1) (vToRows : vec) (b : Mat2) (vrows : vec) : M unit :=
  assert_ (getCols b =? getCols a) "b.getCols() == a.getCols()";;
  if (size vToRows =? 0) && (size vrows =? 0) then assign a b
  else
    '(tonrows, vpToRows) ←
      index_vector vToRows (getRows a) "vToRows[i] < a.getRows()" "tonrows <= a.getRows()";
    '(nrows, vpRows) ←
      index_vector vrows (getRows b) "vrows[i] < b.getRows()" "nrows <= b.getRows()";
    assert_ ((tonrows =? nrows) && (0 <? nrows)) "tonrows == nrows && nrows > 0";;
    for_ nrows (λ i, row_copy b (nth_ vpRows i) a (nth_ vpToRows i)).

(** [A(a,b) = B(c,d)]. *)
Definition assignByVectors (a : Mat1) (vToRows vToCols : vec)
    (b : Mat2) (vrows vcols : vec) : M unit :=
  if (size vToRows =? 0) && (size vToCols =? 0) && (size vrows =? 0) && (size vcols =? 0)
  then assign a b
  else if (size vToRows =? 0) && (size vrows =? 0)
  then reorderColumnsByVectors a vToCols b vcols
  else if (size vToCols =? 0) && (size vcols =? 0)
  then reorderRowsByVectors a vToRows b vrows
  else
    '(tonrows, vpToRows) ←
      index_vector vToRows (getRows a) "vToRows[i] < a.getRows()" "tonrows <= a.getRows()";
    '(toncols, vpToCols) ←
      index_vector vToCols (getCols a) "vToCols[i] < a.getCols()" "toncols <= a.getCols()";
    '(nrows, vpRows) ←
      index_vector vrows (getRows b) "vrows[i] < b.getRows()" "nrows <= b.getRows()";
    '(ncols, vpCols) ←
      index_vector vcols (getCols b) "vcols[i] < b.getCols()" "ncols <= b.getCols()";
    assert_ ((tonrows =? nrows) && (toncols =? ncols) && (0 <? wrap (nrows * ncols)))
      "tonrows == nrows && toncols == ncols && nrows * ncols > 0";;
    for_ nrows (λ i, for_ ncols (λ j,
      v ← load (element b (nth_ vpRows i) (nth_ vpCols j));
      store (element a (nth_ vpToRows i) (nth_ vpToCols j)) v)).

(** Fill the matrix with the identity matrix. *)
Definition set_identity (m : Mat1) : M unit :=
  setAll m 0%float;;
  let d := N.min (getCols m) (getRows m) in
  for_ d (λ i, store (element m i i) 1%float).
End indexed.

End mat.

(** * Vocabulary of the statements *)

Section vocabulary.
Context {Mat : Type} {C : MatrixConcept Mat}.

(** The location of element [(i,j)] when no index computation wraps. *)
Definition cell (m : Mat) (i j : N) : ptr := getData m + i + j * getLd m.

(** [p] is one of the [rows*cols] elements of [m]. *)
Definition in_view (m : Mat) (p : ptr) : Prop :=
  ∃ i j, i < getRows m ∧ j < getCols m ∧ p = cell m i j.

(** [m] describes storage that exists in [h]: its dimensions are [size_t]
    values, a column fits in the leading dimension, the byte extent
    [cols*ld*sizeof(double)] is representable, and every element is
    allocated.  Nothing is asked of the padding between columns. *)
Record wf (m : Mat) (h : heap) : Prop := {
  wf_ld : getRows m ≤ getLd m;
  wf_ld_size : getLd m < SIZE_MOD;
  wf_cols_size : getCols m < SIZE_MOD;
  wf_extent : sizeof_double * (getCols m * getLd m) < SIZE_MOD;
  wf_alloc : ∀ i j, i < getRows m → j < getCols m → is_Some (h !! cell m i j)
}.

(** The executable form of [wf]. *)
Definition wfb (m : Mat) (h : heap) : bool :=
  (getRows m <=? getLd m) && (getLd m <? SIZE_MOD) && (getCols m <? SIZE_MOD)
  && (sizeof_double * (getCols m * getLd m) <? SIZE_MOD)
  && forallb (λ j, forallb (λ i, bool_decide (is_Some (h !! cell m i j))) (iota (getRows m)))
       (iota (getCols m)).

(** The elements of [m] in column-major and in row-major order. *)
Definition elements_colmajor (m : Mat) (h : heap) : list (option double) :=
  j ← iota (getCols m); i ← iota (getRows m); [h !! element m i j].
Definition elements_rowmajor (m : Mat) (h : heap) : list (option double) :=
  i ← iota (getRows m); j ← iota (getCols m); [h !! element m i j].

(** The number of iterations of the loop
    [for (p = data; p < data + cols*ld; p += ld)]. *)
Definition columns_visited (m : Mat) : N :=
  if getLd m =? 0 then 0 else getCols m.

(** The elements already exchanged when the loops stand at row [i],
    column [j]. *)
Definition exchanged (i j a b : N) : Prop :=
  (a < i ∧ b < i) ∨ (a = i ∧ b < j) ∨ (b = i ∧ a < j).

(** The invariant of [transpose]: the exchanged elements hold each other's
    initial value, every other address its own. *)
Definition transposing (m : Mat) (h : heap) (i j : N) (h' : heap) : Prop :=
  (∀ a b, a < getRows m → b < getRows m → exchanged i j a b →
     h' !! cell m a b = h !! cell m b a) ∧
  (∀ a b, a < getRows m → b < getRows m → ¬ exchanged i j a b →
     h' !! cell m a b = h !! cell m a b) ∧
  (∀ p, ¬ in_view m p → h' !! p = h !! p).
End vocabulary.

(** Two matrices share no element. *)
Definition separate `{MatrixConcept Mat1, MatrixConcept Mat2} (m1 : Mat1) (m2 : Mat2) : Prop :=
  ∀ p, in_view m1 p → in_view m2 p → False.

(** The executable form of [separate]. *)
Definition separateb `{MatrixConcept Mat1, MatrixConcept Mat2} (m1 : Mat1) (m2 : Mat2) : bool :=
  forallb (λ j1, forallb (λ i1, forallb (λ j2, forallb (λ i2,
    negb (cell m1 i1 j1 =? cell m2 i2 j2))
    (iota (getRows m2))) (iota (getCols m2))) (iota (getRows m1))) (iota (getCols m1)).

(** A [std::vector] holds fewer than [2^64] entries. *)
Definition vec_ok (v : vec) : Prop := size v < SIZE_MOD.

(** An index vector read as the source reads it: empty stands for the whole
    axis [0 .. count-1]. *)
Definition expand (count : size_t) (v : vec) : vec :=
  if size v =? 0 then iota count else v.

(** Every entry of [v] is a valid index of an axis of [count] entries. *)
Definition in_range (count : size_t) (v : vec) : Prop := Forall (λ x, x < count) v.

(** A store holding the doubles [vs] from address [base] on. *)
Definition alloc (base : ptr) (vs : list double) : heap :=
  list_to_map (imap (λ k v, (base + N.of_nat k, v)) vs).

(** The value of element [(i,j)], and the values in column-major order. *)
Definition value `{MatrixConcept Mat} (m : Mat) (h : heap) (i j : N) : double :=
  default 0%float (h !! cell m i j).
Definition values_colmajor `{MatrixConcept Mat} (m : Mat) (h : heap) : list double :=
  j ← iota (getCols m); (λ i, value m h i j) <$> iota (getRows m).

(** One step of the running maximum of [nrminf]:
    [if (fabs(x) > nrm) nrm = fabs(x);] *)
Definition norm_step (nrm x : double) : double :=
  if (nrm <? abs x)%float then abs x else nrm.

(** The command left every address outside the elements of [m] as it was. *)
Definition untouched_outside `{MatrixConcept Mat} (m : Mat) (h h' : heap) : Prop :=
  ∀ p, ¬ in_view m p → h' !! p = h !! p.

(** What the index-vector block accepts: a vector that is empty, or whose
    entries are all below [count] and no more numerous than [count]. *)
Definition selection_ok (v : vec) (count : size_t) : bool :=
  (size v =? 0) || (forallb (λ x, x <? count) v && (size v <=? count)).

(** The same as a proposition. *)
Definition selects (count : size_t) (v : vec) : Prop :=
  in_range count (expand count v) ∧ (size v ≤ count).

(** The matrix read row by row through its accessor. *)
Definition rows_of `{MatrixConcept Mat} (m : Mat) (h : heap) : list (list (option double)) :=
  (λ i, (λ j, h !! element m i j) <$> iota (getCols m)) <$> iota (getRows m).

(** A violated precondition of indexed assignment along one axis: an index
    out of range for its own matrix, or expanded index lists of different
    lengths. *)
Definition index_violation (count_to : size_t) (vTo : vec) (count_from : size_t) (v : vec) : Prop :=
  ¬ in_range count_to vTo ∨ ¬ in_range count_from v
  ∨ size (expand count_to vTo) ≠ size (expand count_from v).

(** Two matrices that meet, if at all, on elements of equal indices: they
    are separate, or one storage seen twice. *)
Definition aligned `{MatrixConcept Mat1, MatrixConcept Mat2} (m1 : Mat1) (m2 : Mat2) : Prop :=
  ∀ i j i' j', i < getRows m1 → j < getCols m1 → i' < getRows m2 → j' < getCols m2 →
    cell m1 i j = cell m2 i' j' → i = i' ∧ j = j'.

(** [fabs(m1(i,j) - m2(i,j)) > tol]. *)
Definition differ `{MatrixConcept Mat1, MatrixConcept Mat2}
    (m1 : Mat1) (m2 : Mat2) (tol : double) (h : heap) (i j : N) : bool :=
  (tol <? abs (value m1 h i j - value m2 h i j))%float.

(** The command does not end on a failed assertion. *)
Definition no_abort {A} (c : M A) (h : heap) : Prop := ∀ e h', c h ≠ (Abort e, h').

(** The bodies of a counting loop in sequence. *)
Definition for_list (body : size_t → M unit) (l : list N) : M unit :=
  foldr (λ i k, body i;; k) (mret tt) l.

(** [add], [sub] and [negate] share one traversal: for each column a
    pointer runs over [rows] consecutive doubles.  The four shapes below are
    the loops of the source with the arithmetic left open: over one column
    ([map_block], [zip_block]) and over the matrix. *)
Definition map_block (op : double → double) (p : ptr) (n : size_t) : M ptr :=
  while_ (N.to_nat n) (λ pp, pp <? p + n)
    (λ pp, x ← load pp; store pp (op x);; mret (pp + 1)) p.

Definition zip_block (op : double → double → double) (p1 p2 : ptr) (n : size_t) : M (ptr * ptr) :=
  while_ (N.to_nat n) (λ '(pp1, pp2), pp1 <? p1 + n)
    (λ '(pp1, pp2), x ← load pp1; y ← load pp2; store pp1 (op x y);; mret (pp1 + 1, pp2 + 1))
    (p1, p2).

Definition map_columns `{MatrixConcept Mat} (op : double → double) (m : Mat) : M unit :=
  let pend := getData m + wrap (getCols m * getLd m) in
  while_ (N.to_nat (pend - getData m)) (λ p, p <? pend)
    (λ p, map_block op p (getRows m);; mret (p + getLd m))
    (getData m);;
  mret tt.

Definition zip_columns `{MatrixConcept Mat1, MatrixConcept Mat2}
    (op : double → double → double) (m1 : Mat1) (m2 : Mat2) : M unit :=
  let pend := getData m1 + wrap (getCols m1 * getLd m1) in
  while_ (N.to_nat (pend - getData m1)) (λ '(p1, p2), p1 <? pend)
    (λ '(p1, p2), zip_block op p1 p2 (getRows m1);; mret (p1 + getLd m1, p2 + getLd m2))
    (getData m1, getData m2);;
  mret tt.

(** ** What the indexed assignments check *)

Section checks.
Context {Mat1 : Type} {C1 : MatrixConcept Mat1} {Mu1 : MutableMatrixConcept Mat1}.
Context {Mat2 : Type} {C2 : MatrixConcept Mat2}.

(** Everything the function asserts before its copy loop. *)
Definition columns_checks (a : Mat1) (vToCols : vec) (b : Mat2) (vcols : vec) : bool :=
  (getRows b =? getRows a)
  && selection_ok vToCols (getCols a)
  && selection_ok vcols (getCols b)
  && (size (expand (getCols a) vToCols) =? size (expand (getCols b) vcols))
  && (0 <? size (expand (getCols b) vcols)).

(** The precondition the code checks. *)
Definition columns_precondition (a : Mat1) (vToCols : vec) (b : Mat2) (vcols : vec) : Prop :=
  getRows b = getRows a ∧
  selects (getCols a) vToCols ∧ selects (getCols b) vcols ∧
  size (expand (getCols a) vToCols) = size (expand (getCols b) vcols).

(** The statement of the claim before amendment: with one list non-empty,
    equal row counts, expanded lists of equal length and all indices in
    bounds, the call completes. *)
Definition columns_claim_as_stated (a : Mat1) (vToCols : vec) (b : Mat2) (vcols : vec)
    (h : heap) : Prop :=
  getRows b = getRows a →
  size (expand (getCols a) vToCols) = size (expand (getCols b) vcols) →
  in_range (getCols a) (expand (getCols a) vToCols) →
  in_range (getCols b) (expand (getCols b) vcols) →
  ∃ h', mat.reorderColumnsByVectors a vToCols b vcols h = (Done tt, h').

(** Everything the function asserts before its copy loop. *)
Definition rows_checks (a : Mat1) (vToRows : vec) (b : Mat2) (vrows : vec) : bool :=
  (getCols b =? getCols a)
  && selection_ok vToRows (getRows a)
  && selection_ok vrows (getRows b)
  && (size (expand (getRows a) vToRows) =? size (expand (getRows b) vrows))
  && (0 <? size (expand (getRows b) vrows)).

(** Everything the general path asserts before its copy loops. *)
Definition general_checks (a : Mat1) (vToRows vToCols : vec) (b : Mat2) (vrows vcols : vec) : bool :=
  selection_ok vToRows (getRows a)
  && selection_ok vToCols (getCols a)
  && selection_ok vrows (getRows b)
  && selection_ok vcols (getCols b)
  && (size (expand (getRows a) vToRows) =? size (expand (getRows b) vrows))
  && (size (expand (getCols a) vToCols) =? size (expand (getCols b) vcols))
  && (0 <? wrap (size (expand (getRows b) vrows) * size (expand (getCols b) vcols))).

(** The per-element gather/scatter of the general path. *)
Definition scatter (a : Mat1) (vpToRows vpToCols : vec) (b : Mat2) (vpRows vpCols : vec) : M unit :=
  for_ (size vpRows) (λ i, for_ (size vpCols) (λ j,
    v ← load (element b (nth_ vpRows i) (nth_ vpCols j));
    store (element a (nth_ vpToRows i) (nth_ vpToCols j)) v)).
End checks.

(** ** Concrete matrices *)

(** The 4x4 matrix with [M(i,j) = i + 4j], stored from address 0. *)
Definition M44 : Matrix := {| Matrix_data := 0; Matrix_rows := 4; Matrix_cols := 4 |}.

(** Its store. *)
Definition h44 : heap :=
  alloc 0 [0; 1; 2; 3; 4; 5; 6; 7; 8; 9; 10; 11; 12; 13; 14; 15]%float.

(** A 2x3 source at address 0 with columns [1,2], [3,4], [5,6], and a 2x2
    destination at address 10, filled with zeros. *)
Definition src23 : Matrix := {| Matrix_data := 0; Matrix_rows := 2; Matrix_cols := 3 |}.

Definition dest22 : Matrix := {| Matrix_data := 10; Matrix_rows := 2; Matrix_cols := 2 |}.

Definition h23 : heap := alloc 0 [1; 2; 3; 4; 5; 6]%float ∪ alloc 10 [0; 0; 0; 0]%float.

(** The last two columns of [src23] as a view, and two views with padding:
    one row out of a leading dimension of two respectively three, the
    padding not being allocated. *)
Definition view23 : MatrixView :=
  {| MatrixView_data := 2; MatrixView_rows := 2; MatrixView_cols := 2; MatrixView_ld := 2 |}.

Definition strided_a : MatrixView :=
  {| MatrixView_data := 0; MatrixView_rows := 1; MatrixView_cols := 2; MatrixView_ld := 2 |}.

Definition strided_b : MatrixView :=
  {| MatrixView_data := 10; MatrixView_rows := 1; MatrixView_cols := 2; MatrixView_ld := 3 |}.

Definition h_strided : heap :=
  list_to_map [(0, 1%float); (2, (-3)%float); (10, 5%float); (13, 7%float)].

(** The matrix [[1,2],[3,4]] at address 0 (column-major: 1, 3, 2, 4) and a
    2x2 destination at address 10. *)
Definition src22 : Matrix := {| Matrix_data := 0; Matrix_rows := 2; Matrix_cols := 2 |}.

Definition h22 : heap := alloc 0 [1; 3; 2; 4]%float ∪ alloc 10 [0; 0; 0; 0]%float.

(** The enumeration has six elements and starts with the doubles 1, 5. *)
Definition starts_1_5 (l : list (option double)) : bool :=
  match l with
  | [Some x; Some y; _; _; _; _] => (x =? 1)%float && (y =? 5)%float
  | _ => false
  end.

(** * Vocabulary of the further properties *)

(** In a loop nest over pairs, [(i,j)] is visited before [(i',j')]. *)
Definition precedes (i j i' j' : N) : Prop := i < i' ∨ (i = i' ∧ j < j').

(** What the view constructors assert of a block, the sums taken in [N]. *)
Definition view_bounds `{MatrixConcept Mat} (arg : Mat) (row_offset col_offset rows cols : N) : Prop :=
  row_offset < getRows arg ∧ row_offset + rows ≤ getRows arg ∧
  col_offset < getCols arg ∧ col_offset + cols ≤ getCols arg.


(** The leading [min(rows, cols)] square block reads the same both ways. *)
Definition symmetric_matrix `{MatrixConcept Mat} (m : Mat) (h : heap) : Prop :=
  ∀ i j, i < N.min (getCols m) (getRows m) → j < N.min (getCols m) (getRows m) →
    h !! element m i j = h !! element m j i.

(** [1.0] on the diagonal, [0.0] elsewhere. *)
Definition is_identity `{MatrixConcept Mat} (m : Mat) (h : heap) : Prop :=
  ∀ i j, i < getRows m → j < getCols m →
    h !! element m i j = Some (if i =? j then 1%float else 0%float).

(** Some element on or above the diagonal has
    [fabs(m1(r,c) - m2(r,c)) > tol]. *)
Definition upper_differ `{MatrixConcept Mat1, MatrixConcept Mat2}
    (m1 : Mat1) (m2 : Mat2) (tol : double) (h : heap) : Prop :=
  ∃ r c x y, r ≤ c ∧ c < getCols m1 ∧
             h !! element m1 r c = Some x ∧ h !! element m2 r c = Some y ∧
             (tol <? abs (x - y))%float = true.

(** What [isDiffSym] asserts. *)
Definition square_pair `{MatrixConcept Mat1, MatrixConcept Mat2} (m1 : Mat1) (m2 : Mat2) : Prop :=
  getRows m2 = getRows m1 ∧ getCols m2 = getCols m1 ∧
  getRows m2 = getCols m1 ∧ getCols m2 = getRows m1.

Section more_checks.
Context {Mat1 : Type} {C1 : MatrixConcept Mat1} {Mu1 : MutableMatrixConcept Mat1}.
Context {Mat2 : Type} {C2 : MatrixConcept Mat2}.

(** The precondition [reorderRowsByVectors] checks. *)
Definition rows_precondition (a : Mat1) (vToRows : vec) (b : Mat2) (vrows : vec) : Prop :=
  getCols b = getCols a ∧
  selects (getRows a) vToRows ∧ selects (getRows b) vrows ∧
  size (expand (getRows a) vToRows) = size (expand (getRows b) vrows).

(** The precondition the general path of [assignByVectors] checks; the
    last part is its [nrows * ncols > 0], a [size_t] product. *)
Definition general_precondition (a : Mat1) (vToRows vToCols : vec)
    (b : Mat2) (vrows vcols : vec) : Prop :=
  selects (getRows a) vToRows ∧ selects (getCols a) vToCols ∧
  selects (getRows b) vrows ∧ selects (getCols b) vcols ∧
  size (expand (getRows a) vToRows) = size (expand (getRows b) vrows) ∧
  size (expand (getCols a) vToCols) = size (expand (getCols b) vcols) ∧
  0 < wrap (size (expand (getRows b) vrows) * size (expand (getCols b) vcols)).
End more_checks.

Section tiles.
Context {Mat1 : Type} {C1 : MatrixConcept Mat1} {Mat2 : Type} {C2 : MatrixConcept Mat2}.


End tiles.

(** The invariant of [transpose(M, M)] when the loops stand at row [i],
    column [j]: the elements above the diagonal already visited hold the
    element mirrored under the diagonal, every other address its own
    value. *)
Definition mirroring `{MatrixConcept Mat} (m : Mat) (h : heap) (i j : N) (h' : heap) : Prop :=
  (∀ a b, a < getRows m → b < getRows m → a < b → precedes a b i j →
     h' !! cell m a b = h !! cell m b a) ∧
  (∀ a b, a < getRows m → b < getRows m → ¬ (a < b ∧ precedes a b i j) →
     h' !! cell m a b = h !! cell m a b) ∧
  untouched_outside m h h'.

(** ** Further concrete matrices *)

(** A 3x2 destination at address 10 beside the 2x3 source [src23]. *)
Definition dest32 : Matrix := {| Matrix_data := 10; Matrix_rows := 3; Matrix_cols := 2 |}.

Definition h32 : heap := alloc 0 [1; 2; 3; 4; 5; 6]%float ∪ alloc 10 [0; 0; 0; 0; 0; 0]%float.



(** A 2x2 matrix at address 20 beside [M44], in one store. *)
Definition far22 : Matrix := {| Matrix_data := 20; Matrix_rows := 2; Matrix_cols := 2 |}.

Definition h44_far : heap := h44 ∪ alloc 20 [1; 3; 2; 4]%float.

(** Matrices without rows: one column, and two columns. *)
Definition no_rows_1 : Matrix := {| Matrix_data := 0; Matrix_rows := 0; Matrix_cols := 1 |}.

Definition no_rows_2 : Matrix := {| Matrix_data := 0; Matrix_rows := 0; Matrix_cols := 2 |}.

(** * Arithmetic of [size_t] *)

Lemma wrap_small n : n < SIZE_MOD → wrap n = n.
Proof. intros Hn. unfold wrap. by apply N.mod_small. Qed.

Lemma wrap_lt n : wrap n < SIZE_MOD.
Proof. unfold wrap. apply N.mod_lt. done. Qed.

Lemma elem_of_iota n i : i ∈ iota n ↔ i < n.
Proof.
  unfold iota. rewrite list_elem_of_fmap. split.
  - intros (k & -> & Hk). apply elem_of_seq in Hk. lia.
  - intros Hi. exists (N.to_nat i). split; [lia|]. apply elem_of_seq. lia.
Qed.

Lemma length_iota n : length (iota n) = N.to_nat n.
Proof. unfold iota. by rewrite length_fmap, length_seq. Qed.

Lemma iota_lookup n k : (k < N.to_nat n)%nat → iota n !! k = Some (N.of_nat k).
Proof.
  intros Hk. unfold iota. rewrite list_lookup_fmap, lookup_seq_lt by done. done.
Qed.

Lemma iota_succ n : iota (n + 1) = iota n ++ [n].
Proof.
  unfold iota. replace (N.to_nat (n + 1)) with (N.to_nat n + 1)%nat by lia.
  rewrite seq_app, fmap_app. simpl. by rewrite N2Nat.id.
Qed.

Lemma nth_iota n i : i < n → nth_ (iota n) i = i.
Proof.
  intros Hi. unfold nth_. apply nth_lookup_Some with (d := 0).
  rewrite iota_lookup by lia. f_equal. lia.
Qed.

(** * Running commands *)

Lemma bind_done {A B} (c : M A) (f : A → M B) h a h' :
  c h = (Done a, h') → (c ≫= f) h = f a h'.
Proof. intros Hc. unfold mbind, M_bind. by rewrite Hc. Qed.

Lemma bind_abort {A B} (c : M A) (f : A → M B) h e h' :
  c h = (Abort e, h') → (c ≫= f) h = (Abort e, h').
Proof. intros Hc. unfold mbind, M_bind. by rewrite Hc. Qed.

Lemma bind_inv_done {A B} (c : M A) (f : A → M B) h b h' :
  (c ≫= f) h = (Done b, h') → ∃ a h1, c h = (Done a, h1) ∧ f a h1 = (Done b, h').
Proof.
  unfold mbind, M_bind. destruct (c h) as [[a| | |] h1]; try done. eauto.
Qed.

Lemma bind_inv_abort {A B} (c : M A) (f : A → M B) h e h' :
  (c ≫= f) h = (Abort e, h') →
  c h = (Abort e, h') ∨ ∃ a h1, c h = (Done a, h1) ∧ f a h1 = (Abort e, h').
Proof.
  unfold mbind, M_bind. destruct (c h) as [[a| | |] h1]; intros Hr; try done.
  - right. eauto.
  - left. by simplify_eq.
Qed.

Lemma assert_true b e h : b = true → assert_ b e h = (Done tt, h).
Proof. by intros ->. Qed.

Lemma assert_false b e h : b = false → assert_ b e h = (Abort e, h).
Proof. by intros ->. Qed.

Lemma load_done p h v : h !! p = Some v → load p h = (Done v, h).
Proof. intros Hp. unfold load. by rewrite Hp. Qed.

Lemma store_done p v h : is_Some (h !! p) → store p v h = (Done tt, <[p := v]> h).
Proof. intros [w Hp]. unfold store. by rewrite Hp. Qed.

(** ** Loops that run to completion *)

(** A loop whose state after [k] iterations is [f k] and which leaves after
    [n] of them: an invariant [I k] carried through the body holds at the
    end, and the fuel is not exhausted. *)
Lemma while_counted {S : Type} (f : N → S) (n : N) (fuel : nat) (cond : S → bool)
    (body : S → M S) (I : N → heap → Prop) :
  (N.to_nat n ≤ fuel)%nat →
  (∀ k, k < n → cond (f k) = true) →
  cond (f n) = false →
  (∀ k h, k < n → I k h → ∃ h', body (f k) h = (Done (f (k + 1)), h') ∧ I (k + 1) h') →
  ∀ h, I 0 h → ∃ h', while_ fuel cond body (f 0) h = (Done (f n), h') ∧ I n h'.
Proof.
  intros Hfuel Hin Hout Hbody.
  assert (∀ d k fu h, N.of_nat d + k = n → (d ≤ fu)%nat → I k h →
            ∃ h', while_ fu cond body (f k) h = (Done (f n), h') ∧ I n h') as Hgen.
  { induction d as [|d IH]; intros k fu h Hk Hfu HI.
    - assert (k = n) as -> by lia. exists h. split; [|done].
      destruct fu; simpl; by rewrite Hout.
    - destruct fu as [|fu]; [lia|]. simpl. rewrite Hin by lia.
      destruct (Hbody k h) as (h1 & Hb & HI1); [lia|done|].
      rewrite (bind_done _ _ _ _ _ Hb). apply IH; [lia|lia|done]. }
  intros h HI. apply (Hgen (N.to_nat n)); [lia|done|done].
Qed.

Lemma for_counted (n : size_t) (body : size_t → M unit) (I : N → heap → Prop) :
  n < SIZE_MOD →
  (∀ k h, k < n → I k h → ∃ h', body k h = (Done tt, h') ∧ I (k + 1) h') →
  ∀ h, I 0 h → ∃ h', for_ n body h = (Done tt, h') ∧ I n h'.
Proof.
  intros Hn Hbody h HI. unfold for_.
  destruct (while_counted (λ k, k) n (N.to_nat n) (λ i, i <? n)
              (λ i, body i;; mret (wrap (i + 1))) I) with (h := h)
    as (h' & Hw & HI'); try done.
  - intros k Hk. by apply N.ltb_lt.
  - apply N.ltb_irrefl.
  - intros k h0 Hk HI0. destruct (Hbody k h0 Hk HI0) as (h1 & Hb & HI1).
    exists h1. split; [|done]. rewrite (bind_done _ _ _ _ _ Hb).
    rewrite wrap_small by lia. done.
  - exists h'. split; [|done]. by rewrite (bind_done _ _ _ _ _ Hw).
Qed.

(** ** Loops and assertion failures *)

Lemma no_abort_bind {A B} (c : M A) (f : A → M B) h :
  no_abort c h → (∀ a h1, c h = (Done a, h1) → no_abort (f a) h1) → no_abort (c ≫= f) h.
Proof.
  intros Hc Hf e h' Hrun. apply bind_inv_abort in Hrun as [Hrun|(a & h1 & Hrun & Hk)].
  - by eapply Hc.
  - by eapply Hf.
Qed.

Lemma no_abort_ret {A} (a : A) h : no_abort (mret a) h.
Proof. intros e h'. done. Qed.

Lemma no_abort_load p h : no_abort (load p) h.
Proof. intros e h'. unfold load. by destruct (h !! p). Qed.

Lemma no_abort_store p v h : no_abort (store p v) h.
Proof. intros e h'. unfold store. by destruct (h !! p). Qed.

Lemma no_abort_while {S : Type} (cond : S → bool) (body : S → M S) :
  (∀ s h, cond s = true → no_abort (body s) h) →
  ∀ fuel s h, no_abort (while_ fuel cond body s) h.
Proof.
  intros Hbody. induction fuel as [|fuel IH]; intros s h; simpl.
  - destruct (cond s); intros e h'; done.
  - destruct (cond s) eqn:Hc; [|apply no_abort_ret].
    apply no_abort_bind; [by apply Hbody|]. intros s' h1 _. apply IH.
Qed.

Lemma no_abort_for (n : size_t) (body : size_t → M unit) :
  (∀ i h, i < n → no_abort (body i) h) → ∀ h, no_abort (for_ n body) h.
Proof.
  intros Hbody h. unfold for_. apply no_abort_bind; [|intros; apply no_abort_ret].
  apply no_abort_while. intros i h0 Hi%N.ltb_lt.
  apply no_abort_bind; [by apply Hbody|]. intros; apply no_abort_ret.
Qed.

Lemma no_abort_load_block k : ∀ p h, no_abort (load_block k p) h.
Proof.
  induction k as [|k IH]; intros p h; simpl; [apply no_abort_ret|].
  apply no_abort_bind; [apply no_abort_load|]. intros v h1 _.
  apply no_abort_bind; [apply IH|]. intros; apply no_abort_ret.
Qed.

Lemma no_abort_store_block vs : ∀ p h, no_abort (store_block p vs) h.
Proof.
  induction vs as [|v vs IH]; intros p h; simpl; [apply no_abort_ret|].
  apply no_abort_bind; [apply no_abort_store|]. intros; apply IH.
Qed.

Lemma no_abort_memcpy dst src bytes h : no_abort (memcpy dst src bytes) h.
Proof.
  unfold memcpy. apply no_abort_bind; [apply no_abort_load_block|].
  intros; apply no_abort_store_block.
Qed.

(** * Assignment operators *)

(** For an argument of the same class the copy assignment operator and the
    templated operator are the same command. *)
Lemma copy_assign_template :
  (∀ m arg : Matrix, Matrix_copy_assign m arg = assign m arg) ∧
  (∀ m arg : MatrixView, MatrixView_copy_assign m arg = assign m arg).
Proof. split; reflexivity. Qed.

(** * Block operations *)

Lemma load_block_spec k : ∀ p h,
  (∀ i, i < N.of_nat k → is_Some (h !! (p + i))) →
  ∃ vs, load_block k p h = (Done vs, h) ∧ length vs = k ∧
        ∀ i, (i < k)%nat → vs !! i = h !! (p + N.of_nat i).
Proof.
  induction k as [|k IH]; intros p h Halloc; simpl.
  - exists []. split_and!; [done|done|]. intros i Hi. lia.
  - destruct (Halloc 0) as [v Hv]; [lia|]. rewrite N.add_0_r in Hv.
    destruct (IH (p + 1) h) as (vs & Hrun & Hlen & Hvs).
    { intros i Hi. replace (p + 1 + i) with (p + (i + 1)) by lia. apply Halloc. lia. }
    exists (v :: vs). split_and!.
    + rewrite (bind_done _ _ _ _ _ (load_done _ _ _ Hv)).
      by rewrite (bind_done _ _ _ _ _ Hrun).
    + simpl. by rewrite Hlen.
    + intros [|i] Hi; simpl.
      * by rewrite N.add_0_r.
      * rewrite Hvs by lia. f_equal. lia.
Qed.

Lemma store_block_spec vs : ∀ p h,
  (∀ i, i < N.of_nat (length vs) → is_Some (h !! (p + i))) →
  ∃ h', store_block p vs h = (Done tt, h') ∧
        (∀ i, (i < length vs)%nat → h' !! (p + N.of_nat i) = vs !! i) ∧
        (∀ q, ¬ (p ≤ q < p + N.of_nat (length vs)) → h' !! q = h !! q).
Proof.
  induction vs as [|v vs IH]; intros p h Halloc; simpl.
  - exists h. split_and!; [done| |done]. intros i Hi. lia.
  - assert (is_Some (h !! p)) as Hp.
    { specialize (Halloc 0). rewrite N.add_0_r in Halloc. apply Halloc. simpl. lia. }
    destruct (IH (p + 1) (<[p := v]> h)) as (h' & Hrun & Hin & Hout).
    { intros i Hi. rewrite lookup_insert_is_Some. right. split; [lia|].
      replace (p + 1 + i) with (p + (i + 1)) by lia. apply Halloc. simpl. lia. }
    exists h'. split_and!.
    + by rewrite (bind_done _ _ _ _ _ (store_done _ v _ Hp)).
    + intros [|i] Hi; simpl.
      * rewrite N.add_0_r, Hout by lia. apply lookup_insert_eq.
      * rewrite <- Hin by lia. f_equal. lia.
    + intros q Hq. rewrite Hout by (simpl in Hq; lia).
      apply lookup_insert_ne. simpl in Hq. lia.
Qed.

(** [memcpy] of [n] doubles: the destination block receives the source block
    as it was before the call; nothing else changes. *)
Lemma memcpy_spec dst src n h :
  n * sizeof_double < SIZE_MOD →
  (∀ i, i < n → is_Some (h !! (src + i))) →
  (∀ i, i < n → is_Some (h !! (dst + i))) →
  ∃ h', memcpy dst src (wrap (n * sizeof_double)) h = (Done tt, h') ∧
        (∀ i, i < n → h' !! (dst + i) = h !! (src + i)) ∧
        (∀ q, ¬ (dst ≤ q < dst + n) → h' !! q = h !! q).
Proof.
  intros Hn Hsrc Hdst. unfold memcpy. rewrite wrap_small by done.
  rewrite N.div_mul by done.
  destruct (load_block_spec (N.to_nat n) src h) as (vs & Hload & Hlen & Hvs).
  { intros i Hi. apply Hsrc. lia. }
  destruct (store_block_spec vs dst h) as (h' & Hstore & Hin & Hout).
  { intros i Hi. apply Hdst. lia. }
  exists h'. split_and!.
  - by rewrite (bind_done _ _ _ _ _ Hload).
  - intros i Hi. specialize (Hin (N.to_nat i)). rewrite N2Nat.id in Hin.
    rewrite Hin, Hvs by lia. by rewrite N2Nat.id.
  - intros q Hq. apply Hout. lia.
Qed.

Lemma fill_n_spec p n v h :
  n < SIZE_MOD →
  (∀ i, i < n → is_Some (h !! (p + i))) →
  ∃ h', fill_n p n v h = (Done tt, h') ∧
        (∀ i, i < n → h' !! (p + i) = Some v) ∧
        (∀ q, ¬ (p ≤ q < p + n) → h' !! q = h !! q).
Proof.
  intros Hn Halloc. unfold fill_n.
  destruct (for_counted n (λ k, store (p + k) v)
    (λ k h', (∀ i, i < k → h' !! (p + i) = Some v) ∧
             (∀ q, ¬ (p ≤ q < p + k) → h' !! q = h !! q))) with (h := h)
    as (h' & Hrun & Hin & Hout); try done.
  - intros k h0 Hk [Hin Hout].
    assert (is_Some (h0 !! (p + k))) as Hpk by (rewrite Hout by lia; by apply Halloc).
    exists (<[p + k := v]> h0). split; [by apply store_done|]. split.
    + intros i Hi. destruct (decide (i = k)) as [->|Hne].
      * apply lookup_insert_eq.
      * rewrite lookup_insert_ne by lia. apply Hin. lia.
    + intros q Hq. rewrite lookup_insert_ne by lia. apply Hout. lia.
  - split; [intros i Hi; lia|done].
  - by exists h'.
Qed.

(** * Addresses of elements *)

Section cells.
Context {Mat : Type} {C : MatrixConcept Mat}.
Implicit Types (m : Mat) (h : heap).

Lemma cell_inj m i j i' j' :
  i < getLd m → i' < getLd m → cell m i j = cell m i' j' → i = i' ∧ j = j'.
Proof.
  unfold cell. intros Hi Hi' Heq.
  assert (j = j') as -> by nia. split; [lia|done].
Qed.

Lemma wf_rows_size m h : wf m h → getRows m < SIZE_MOD.
Proof. intros [? ? ? ? ?]. lia. Qed.

Lemma wf_cols_ld m h : wf m h → getCols m * getLd m < SIZE_MOD.
Proof. intros [? ? ? Hext ?]. unfold sizeof_double in Hext. lia. Qed.

Lemma wf_offset m h i j :
  wf m h → i < getRows m → j < getCols m → i + j * getLd m < getCols m * getLd m.
Proof. intros [? ? ? ? ?] Hi Hj. nia. Qed.

(** Inside a well-formed matrix [operator()] addresses the element without
    wrapping. *)
Lemma element_cell m h i j :
  wf m h → i < getRows m → j < getCols m → element m i j = cell m i j.
Proof.
  intros Hwf Hi Hj. rewrite element_addr, wrap_small; [unfold cell; lia|].
  pose proof (wf_offset m h i j Hwf Hi Hj). pose proof (wf_cols_ld m h Hwf). lia.
Qed.

Lemma wf_col_bytes m h j :
  wf m h → j < getCols m → getRows m * sizeof_double < SIZE_MOD.
Proof. intros [? ? ? Hext ?] Hj. unfold sizeof_double in *. nia. Qed.

Lemma wf_col_offset m h j :
  wf m h → j < getCols m → wrap (j * getLd m) = j * getLd m.
Proof.
  intros Hwf Hj. apply wrap_small. pose proof (wf_cols_ld m h Hwf). nia.
Qed.

Lemma in_view_cell m i j : i < getRows m → j < getCols m → in_view m (cell m i j).
Proof. intros Hi Hj. by exists i, j. Qed.

(** A store that keeps the elements allocated keeps the matrix well formed. *)
Lemma wf_preserved m h h' :
  wf m h → (∀ p, is_Some (h !! p) → is_Some (h' !! p)) → wf m h'.
Proof. intros [? ? ? ? Ha] Hdom. split; try done. intros i j Hi Hj. by apply Hdom, Ha. Qed.

Lemma wfb_wf m h : wfb m h = true → wf m h.
Proof.
  unfold wfb. rewrite !andb_true_iff, forallb_forall.
  intros [[[[H1%N.leb_le H2%N.ltb_lt] H3%N.ltb_lt] H4%N.ltb_lt] H5].
  split; try done. intros i j Hi Hj.
  specialize (H5 j). rewrite forallb_forall in H5.
  eapply bool_decide_eq_true_1, H5; apply list_elem_of_In, elem_of_iota; done.
Qed.
End cells.

Lemma separateb_separate `{MatrixConcept Mat1, MatrixConcept Mat2} (m1 : Mat1) (m2 : Mat2) :
  separateb m1 m2 = true → separate m1 m2.
Proof.
  unfold separateb. rewrite forallb_forall. intros Hb p (i1 & j1 & Hi1 & Hj1 & ->) (i2 & j2 & Hi2 & Hj2 & Heq).
  specialize (Hb j1 ltac:(by apply list_elem_of_In, elem_of_iota)).
  rewrite forallb_forall in Hb.
  specialize (Hb i1 ltac:(by apply list_elem_of_In, elem_of_iota)).
  rewrite forallb_forall in Hb.
  specialize (Hb j2 ltac:(by apply list_elem_of_In, elem_of_iota)).
  rewrite forallb_forall in Hb.
  specialize (Hb i2 ltac:(by apply list_elem_of_In, elem_of_iota)).
  apply negb_true_iff, N.eqb_neq in Hb. done.
Qed.

(** * The column loop

    [for (p = data; p < data + cols*ld; p += ld)] visits the columns
    [0 .. cols-1] when [ld] is positive.  When [ld] is zero the loop is not
    entered; a well-formed matrix then has no rows, hence no element. *)

Section column_loop.
Context {Mat : Type} {C : MatrixConcept Mat}.
Implicit Types (m : Mat) (h : heap).

Lemma column_visited m h i j :
  wf m h → i < getRows m → j < getCols m → j < columns_visited m.
Proof.
  intros [? ? ? ? ?] Hi Hj. unfold columns_visited.
  destruct (N.eqb_spec (getLd m) 0); lia.
Qed.

Lemma columns_visited_le m : columns_visited m ≤ getCols m.
Proof. unfold columns_visited. destruct (getLd m =? 0); lia. Qed.

Lemma column_loop_enter m h k :
  wf m h → k < columns_visited m →
  (getData m + k * getLd m <? getData m + wrap (getCols m * getLd m)) = true.
Proof.
  intros Hwf Hk. rewrite wrap_small by (by eapply wf_cols_ld).
  unfold columns_visited in Hk. apply N.ltb_lt.
  destruct (N.eqb_spec (getLd m) 0); [lia|nia].
Qed.

Lemma column_loop_exit m h :
  wf m h →
  (getData m + columns_visited m * getLd m <? getData m + wrap (getCols m * getLd m)) = false.
Proof.
  intros Hwf. rewrite wrap_small by (by eapply wf_cols_ld).
  unfold columns_visited. apply N.ltb_ge.
  destruct (N.eqb_spec (getLd m) 0); [nia|lia].
Qed.

Lemma column_loop_fuel m h :
  wf m h →
  (N.to_nat (columns_visited m)
   ≤ N.to_nat (getData m + wrap (getCols m * getLd m) - getData m))%nat.
Proof.
  intros Hwf. rewrite wrap_small by (by eapply wf_cols_ld).
  unfold columns_visited. destruct (N.eqb_spec (getLd m) 0); [lia|nia].
Qed.
End column_loop.

(** * MatrixView *)

(** A view cut inside a well-formed parent is well formed, and its element
    [(i,j)] is the parent's element [(row_offset+i, col_offset+j)]. *)
Lemma MatrixView_of_spec `{MatrixConcept Mat} (arg : Mat) (ro co r c : size_t) h :
  wf arg h → ro < getRows arg → co < getCols arg →
  ro + r ≤ getRows arg → co + c ≤ getCols arg →
  ∃ view, MatrixView_of arg ro co r c h = (Done view, h) ∧
          wf view h ∧
          getRows view = r ∧ getCols view = c ∧
          ∀ i j, cell view i j = cell arg (ro + i) (co + j).
Proof.
  intros Hwf Hro Hco Hr Hc. destruct Hwf as [Hld Hlds Hcs Hext Halloc].
  eexists. split_and!.
  - unfold MatrixView_of. rewrite (bind_done _ _ h tt h); [done|].
    apply assert_true. rewrite !andb_true_iff.
    rewrite !wrap_small by lia. split_and!; (apply N.ltb_lt || apply N.leb_le); lia.
  - assert (∀ i j, cell {| MatrixView_data := getData arg + ro + wrap (co * getLd arg);
                          MatrixView_rows := r; MatrixView_cols := c;
                          MatrixView_ld := getLd arg |} i j
                   = cell arg (ro + i) (co + j)) as Hcell.
    { intros i j. unfold cell. simpl. rewrite wrap_small by (unfold sizeof_double in *; nia). lia. }
    split; simpl; try lia.
    + unfold sizeof_double in *. nia.
    + intros i j Hi Hj. rewrite Hcell. apply Halloc; lia.
  - done.
  - done.
  - intros i j. unfold cell. simpl.
    rewrite wrap_small by (unfold sizeof_double in *; nia). lia.
Qed.

(** [setAll] on a view writes its [rows*cols] elements and nothing else. *)
Lemma MatrixView_setAll_spec (m : MatrixView) (val : double) h :
  wf m h →
  ∃ h', MatrixView_setAll m val h = (Done tt, h') ∧
        (∀ i j, i < getRows m → j < getCols m → h' !! cell m i j = Some val) ∧
        (∀ p, ¬ in_view m p → h' !! p = h !! p).
Proof.
  intros Hwf. unfold MatrixView_setAll.
  set (I := λ (k : N) (h' : heap),
    (∀ i j, i < getRows m → j < k → h' !! cell m i j = Some val) ∧
    (∀ p, ¬ (∃ i j, i < getRows m ∧ j < k ∧ p = cell m i j) → h' !! p = h !! p)).
  destruct (while_counted (λ k, MatrixView_data m + k * MatrixView_ld m)
              (columns_visited m)
              (N.to_nat (MatrixView_data m + wrap (MatrixView_cols m * MatrixView_ld m)
                         - MatrixView_data m))
              (λ p, p <? MatrixView_data m + wrap (MatrixView_cols m * MatrixView_ld m))
              (λ p, fill_n p (MatrixView_rows m) val;; mret (p + MatrixView_ld m)) I)
    with (h := h) as (h' & Hrun & Hin & Hout).
  - apply (column_loop_fuel m h Hwf).
  - intros k Hk. apply (column_loop_enter m h k Hwf Hk).
  - apply (column_loop_exit m h Hwf).
  - intros k h0 Hk [Hin Hout].
    pose proof (columns_visited_le m) as Hle.
    destruct (fill_n_spec (MatrixView_data m + k * MatrixView_ld m) (MatrixView_rows m) val h0)
      as (h1 & Hfill & Hfin & Hfout).
    + apply (wf_rows_size m h Hwf).
    + intros i Hi. rewrite Hout.
      * replace (MatrixView_data m + k * MatrixView_ld m + i) with (cell m i k)
          by (unfold cell; simpl; lia).
        apply (wf_alloc m h Hwf); [done|lia].
      * intros (i' & j' & Hi' & Hj' & Heq).
        assert (cell m i k = cell m i' j') as Hc by (rewrite <- Heq; unfold cell; simpl; lia).
        apply cell_inj in Hc as [_ ->]; [lia| |]; pose proof (wf_ld m h Hwf); simpl in *; lia.
    + exists h1. split.
      * rewrite (bind_done _ _ _ _ _ Hfill). unfold mret, M_ret. do 2 f_equal. lia.
      * split.
        -- intros i j Hi Hj. destruct (decide (j = k)) as [->|Hne].
           ++ replace (cell m i k) with (MatrixView_data m + k * MatrixView_ld m + i)
                by (unfold cell; simpl; lia).
              by apply Hfin.
           ++ rewrite Hfout; [apply Hin; [done|lia]|].
              intros Hrange.
              assert (cell m i j = cell m (cell m i j - (MatrixView_data m + k * MatrixView_ld m)) k)
                as Hc by (unfold cell in *; simpl in *; lia).
              apply cell_inj in Hc as [_ ->]; [done| |];
                pose proof (wf_ld m h Hwf); unfold cell in *; simpl in *; lia.
        -- intros p Hp. rewrite Hfout.
           ++ apply Hout. intros (i & j & Hi & Hj & ->). apply Hp. exists i, j.
              split_and!; [done|lia|done].
           ++ intros Hrange. apply Hp.
              exists (p - (MatrixView_data m + k * MatrixView_ld m)), k.
              split_and!; [simpl; lia|lia|unfold cell; simpl; lia].
  - split; [intros i j Hi Hj; lia|]. done.
  - simpl in Hrun. replace (MatrixView_data m + 0 * MatrixView_ld m) with (MatrixView_data m)
      in Hrun by lia.
    exists h'. split_and!.
    + by rewrite (bind_done _ _ _ _ _ Hrun).
    + intros i j Hi Hj. apply Hin; [done|]. by eapply column_visited.
    + intros p Hp. apply Hout. intros (i & j & Hi & Hj & ->). apply Hp. exists i, j.
      pose proof (columns_visited_le m). split_and!; [done|lia|done].
Qed.

(** C5: [setAll(v)] on a [MatrixView] cut at [(row_offset, col_offset)] with
    [rows] by [cols] elements inside a parent writes [v] to the in-view
    elements, which the parent's own accessor shows at once; every other
    element of the parent, and every other address of the store (the
    padding between the view's columns included), keeps its value. *)
Theorem view_setAll_frame `{MatrixConcept Mat} (parent : Mat)
    (row_offset col_offset rows cols : size_t) (v : double) (h : heap) :
  wf parent h →
  row_offset < getRows parent → col_offset < getCols parent →
  row_offset + rows ≤ getRows parent → col_offset + cols ≤ getCols parent →
  ∃ view h',
    MatrixView_of parent row_offset col_offset rows cols h = (Done view, h) ∧
    setAll view v h = (Done tt, h') ∧
    (∀ i j, i < rows → j < cols →
       h' !! element parent (row_offset + i) (col_offset + j) = Some v) ∧
    (∀ i j, i < getRows parent → j < getCols parent →
       ¬ (row_offset ≤ i < row_offset + rows ∧ col_offset ≤ j < col_offset + cols) →
       h' !! element parent i j = h !! element parent i j) ∧
    (∀ p, ¬ (∃ i j, i < rows ∧ j < cols ∧ p = cell parent (row_offset + i) (col_offset + j)) →
       h' !! p = h !! p).
Proof.
  intros Hwf Hro Hco Hr Hc.
  destruct (MatrixView_of_spec parent row_offset col_offset rows cols h)
    as (view & Hview & Hwfv & Hrows & Hcols & Hcell); try done.
  destruct (MatrixView_setAll_spec view v h Hwfv) as (h' & Hset & Hin & Hout).
  rewrite Hrows, Hcols in Hin.
  assert (∀ p, ¬ (∃ i j, i < rows ∧ j < cols ∧ p = cell parent (row_offset + i) (col_offset + j)) →
            h' !! p = h !! p) as Hframe.
  { intros p Hp. apply Hout. intros (i & j & Hi & Hj & ->). apply Hp.
    exists i, j. rewrite <- Hcell, <- Hrows, <- Hcols. done. }
  exists view, h'. split_and!; try done.
  - intros i j Hi Hj. rewrite (element_cell parent h) by (done || lia).
    rewrite <- Hcell. by apply Hin.
  - intros i j Hi Hj Hblock. rewrite (element_cell parent h) by done.
    apply Hframe. intros (i' & j' & Hi' & Hj' & Heq).
    apply cell_inj in Heq as [-> ->]; [lia| |]; pose proof (wf_ld parent h Hwf); lia.
Qed.

Lemma view_setAll_frame_witness :
  ∃ view h',
    MatrixView_of M44 1 0 2 3 h44 = (Done view, h44) ∧
    setAll view 7%float h44 = (Done tt, h') ∧
    (∀ i j, i < 2 → j < 3 → h' !! element M44 (1 + i) (0 + j) = Some 7%float) ∧
    (∀ i j, i < getRows M44 → j < getCols M44 →
       ¬ (1 ≤ i < 1 + 2 ∧ 0 ≤ j < 0 + 3) →
       h' !! element M44 i j = h44 !! element M44 i j) ∧
    (∀ p, ¬ (∃ i j, i < 2 ∧ j < 3 ∧ p = cell M44 (1 + i) (0 + j)) → h' !! p = h44 !! p).
Proof.
  apply (view_setAll_frame M44 1 0 2 3 7%float h44).
  - apply wfb_wf. vm_compute. reflexivity.
  - reflexivity.
  - reflexivity.
  - vm_compute. discriminate.
  - vm_compute. discriminate.
Defined.

(** * Element-wise loops *)

Lemma separate_aligned `{MatrixConcept Mat1, MatrixConcept Mat2} (m1 : Mat1) (m2 : Mat2) :
  separate m1 m2 → aligned m1 m2.
Proof.
  intros Hsep i j i' j' Hi Hj Hi' Hj' Heq. destruct (Hsep (cell m1 i j)).
  - by exists i, j.
  - exists i', j'. done.
Qed.

Lemma aligned_refl `{MatrixConcept Mat} (m : Mat) h : wf m h → aligned m m.
Proof.
  intros Hwf i j i' j' Hi Hj Hi' Hj' Heq. pose proof (wf_ld m h Hwf).
  apply cell_inj in Heq; [done|lia|lia].
Qed.

Lemma map_block_spec op p n h :
  (∀ i, i < n → is_Some (h !! (p + i))) →
  ∃ h', map_block op p n h = (Done (p + n), h') ∧
        (∀ i, i < n → h' !! (p + i) = op <$> h !! (p + i)) ∧
        (∀ q, ¬ (p ≤ q < p + n) → h' !! q = h !! q).
Proof.
  intros Halloc. unfold map_block.
  destruct (while_counted (λ k, p + k) n (N.to_nat n) (λ pp, pp <? p + n)
    (λ pp, x ← load pp; store pp (op x);; mret (pp + 1))
    (λ k h', (∀ i, i < k → h' !! (p + i) = op <$> h !! (p + i)) ∧
             (∀ q, ¬ (p ≤ q < p + k) → h' !! q = h !! q))) with (h := h)
    as (h' & Hrun & Hin & Hout); try done.
  - intros k Hk. apply N.ltb_lt. lia.
  - apply N.ltb_irrefl.
  - intros k h0 Hk [Hin Hout].
    destruct (Halloc k Hk) as [x Hx].
    assert (h0 !! (p + k) = Some x) as Hx0 by (rewrite Hout by lia; done).
    exists (<[p + k := op x]> h0). split.
    + rewrite (bind_done _ _ _ _ _ (load_done _ _ _ Hx0)).
      rewrite (bind_done _ _ _ _ _ (store_done _ (op x) _ (mk_is_Some _ _ Hx0))).
      unfold mret, M_ret. do 2 f_equal. lia.
    + split.
      * intros i Hi. destruct (decide (i = k)) as [->|Hne].
        -- rewrite lookup_insert_eq, Hx. done.
        -- rewrite lookup_insert_ne by lia. apply Hin. lia.
      * intros q Hq. rewrite lookup_insert_ne by lia. apply Hout. lia.
  - split; [intros i Hi; lia|done].
  - rewrite N.add_0_r in Hrun. by exists h'.
Qed.

Lemma zip_block_spec op p1 p2 n h :
  (∀ i, i < n → is_Some (h !! (p1 + i))) →
  (∀ i, i < n → is_Some (h !! (p2 + i))) →
  ∃ h', zip_block op p1 p2 n h = (Done (p1 + n, p2 + n), h') ∧
        (∀ q, ¬ (p1 ≤ q < p1 + n) → h' !! q = h !! q) ∧
        (∀ q, is_Some (h !! q) → is_Some (h' !! q)) ∧
        ((∀ i i', i < n → i' < n → p2 + i = p1 + i' → i = i') →
         ∀ i x y, i < n → h !! (p1 + i) = Some x → h !! (p2 + i) = Some y →
                  h' !! (p1 + i) = Some (op x y)).
Proof.
  intros Ha1 Ha2. unfold zip_block.
  destruct (while_counted (λ k, (p1 + k, p2 + k)) n (N.to_nat n) (λ '(pp1, pp2), pp1 <? p1 + n)
    (λ '(pp1, pp2), x ← load pp1; y ← load pp2; store pp1 (op x y);; mret (pp1 + 1, pp2 + 1))
    (λ k h', (∀ q, ¬ (p1 ≤ q < p1 + k) → h' !! q = h !! q) ∧
             (∀ q, is_Some (h !! q) → is_Some (h' !! q)) ∧
             ((∀ i i', i < n → i' < n → p2 + i = p1 + i' → i = i') →
              ∀ i x y, i < k → h !! (p1 + i) = Some x → h !! (p2 + i) = Some y →
                       h' !! (p1 + i) = Some (op x y)))) with (h := h)
    as (h' & Hrun & Hout & Hdom & Hin); try done.
  - intros k Hk. apply N.ltb_lt. lia.
  - apply N.ltb_irrefl.
  - intros k h0 Hk (Hout & Hdom & Hin).
    destruct (Hdom _ (Ha1 k Hk)) as [x Hx]. destruct (Hdom _ (Ha2 k Hk)) as [y Hy].
    exists (<[p1 + k := op x y]> h0). split.
    + rewrite (bind_done _ _ _ _ _ (load_done _ _ _ Hx)).
      rewrite (bind_done _ _ _ _ _ (load_done _ _ _ Hy)).
      rewrite (bind_done _ _ _ _ _ (store_done _ (op x y) _ (mk_is_Some _ _ Hx))).
      unfold mret, M_ret. do 3 f_equal; lia.
    + split_and!.
      * intros q Hq. rewrite lookup_insert_ne by lia. apply Hout. lia.
      * intros q Hq. rewrite lookup_insert_is_Some'. right. by apply Hdom.
      * intros Hal i x' y' Hi Hx' Hy'. destruct (decide (i = k)) as [->|Hne].
        -- rewrite lookup_insert_eq. f_equal.
           rewrite Hout in Hx by lia. rewrite Hx' in Hx. injection Hx as ->.
           destruct (decide (p1 ≤ p2 + k < p1 + k)) as [Hov|Hov].
           ++ specialize (Hal k (p2 + k - p1)). lia.
           ++ rewrite Hout in Hy by done. rewrite Hy' in Hy. by injection Hy as ->.
        -- rewrite lookup_insert_ne by lia. apply Hin; [done|lia|done|done].
  - split_and!; [done|done|]. intros _ i x y Hi. lia.
  - rewrite !N.add_0_r in Hrun. by exists h'.
Qed.

Lemma map_columns_spec `{MatrixConcept Mat} (op : double → double) (m : Mat) h :
  wf m h →
  ∃ h', map_columns op m h = (Done tt, h') ∧
        (∀ i j, i < getRows m → j < getCols m → h' !! cell m i j = op <$> h !! cell m i j) ∧
        (∀ p, ¬ in_view m p → h' !! p = h !! p).
Proof.
  intros Hwf. unfold map_columns. pose proof (wf_ld m h Hwf) as Hld.
  pose proof (columns_visited_le m) as Hle.
  destruct (while_counted (λ k, getData m + k * getLd m) (columns_visited m)
    (N.to_nat (getData m + wrap (getCols m * getLd m) - getData m))
    (λ p, p <? getData m + wrap (getCols m * getLd m))
    (λ p, map_block op p (getRows m);; mret (p + getLd m))
    (λ k h', (∀ i j, i < getRows m → j < k → h' !! cell m i j = op <$> h !! cell m i j) ∧
             (∀ p, ¬ (∃ i j, i < getRows m ∧ j < k ∧ p = cell m i j) → h' !! p = h !! p)))
    with (h := h) as (h' & Hrun & Hin & Hout).
  - by eapply column_loop_fuel.
  - intros k Hk. by eapply column_loop_enter.
  - by eapply column_loop_exit.
  - intros k h0 Hk [Hin Hout].
    assert (∀ i, i < getRows m → h0 !! (getData m + k * getLd m + i) = h !! cell m i k) as Hcol.
    { intros i Hi. replace (getData m + k * getLd m + i) with (cell m i k) by (unfold cell; lia).
      apply Hout. intros (i' & j' & Hi' & Hj' & Heq).
      apply cell_inj in Heq as [_ ->]; lia. }
    destruct (map_block_spec op (getData m + k * getLd m) (getRows m) h0)
      as (h1 & Hblk & Hbin & Hbout).
    { intros i Hi. rewrite Hcol by done. apply (wf_alloc m h Hwf); [done|lia]. }
    exists h1. split.
    + rewrite (bind_done _ _ _ _ _ Hblk). unfold mret, M_ret. do 2 f_equal. lia.
    + split.
      * intros i j Hi Hj. destruct (decide (j = k)) as [->|Hne].
        -- rewrite <- Hcol by done.
           replace (cell m i k) with (getData m + k * getLd m + i) by (unfold cell; lia).
           by apply Hbin.
        -- rewrite Hbout; [apply Hin; [done|lia]|].
           intros Hrange.
           assert (cell m i j = cell m (cell m i j - (getData m + k * getLd m)) k)
             as Hc by (unfold cell in *; lia).
           apply cell_inj in Hc as [_ ->]; [done| |]; unfold cell in *; lia.
      * intros p Hp. rewrite Hbout.
        -- apply Hout. intros (i & j & Hi & Hj & ->). apply Hp. exists i, j.
           split_and!; [done|lia|done].
        -- intros Hrange. apply Hp. exists (p - (getData m + k * getLd m)), k.
           split_and!; [lia|lia|unfold cell; lia].
  - split; [intros i j Hi Hj; lia|done].
  - simpl in Hrun. replace (getData m + 0 * getLd m) with (getData m) in Hrun by lia.
    exists h'. split_and!.
    + by rewrite (bind_done _ _ _ _ _ Hrun).
    + intros i j Hi Hj. apply Hin; [done|]. by eapply column_visited.
    + intros p Hp. apply Hout. intros (i & j & Hi & Hj & ->). apply Hp. exists i, j.
      split_and!; [done|lia|done].
Qed.

Lemma zip_columns_spec `{MatrixConcept Mat1, MatrixConcept Mat2}
    (op : double → double → double) (m1 : Mat1) (m2 : Mat2) h :
  wf m1 h → wf m2 h → getRows m1 = getRows m2 → getCols m1 = getCols m2 →
  ∃ h', zip_columns op m1 m2 h = (Done tt, h') ∧
        (∀ p, ¬ in_view m1 p → h' !! p = h !! p) ∧
        (aligned m1 m2 →
         ∀ i j x y, i < getRows m1 → j < getCols m1 →
           h !! cell m1 i j = Some x → h !! cell m2 i j = Some y →
           h' !! cell m1 i j = Some (op x y)).
Proof.
  intros Hwf1 Hwf2 Hrows Hcols. unfold zip_columns.
  pose proof (wf_ld m1 h Hwf1) as Hld1. pose proof (wf_ld m2 h Hwf2) as Hld2.
  pose proof (columns_visited_le m1) as Hle.
  destruct (while_counted (λ k, (getData m1 + k * getLd m1, getData m2 + k * getLd m2))
    (columns_visited m1)
    (N.to_nat (getData m1 + wrap (getCols m1 * getLd m1) - getData m1))
    (λ '(p1, p2), p1 <? getData m1 + wrap (getCols m1 * getLd m1))
    (λ '(p1, p2), zip_block op p1 p2 (getRows m1);; mret (p1 + getLd m1, p2 + getLd m2))
    (λ k h', (∀ p, ¬ (∃ i j, i < getRows m1 ∧ j < k ∧ p = cell m1 i j) → h' !! p = h !! p) ∧
             (∀ q, is_Some (h !! q) → is_Some (h' !! q)) ∧
             (aligned m1 m2 →
              ∀ i j x y, i < getRows m1 → j < k →
                h !! cell m1 i j = Some x → h !! cell m2 i j = Some y →
                h' !! cell m1 i j = Some (op x y))))
    with (h := h) as (h' & Hrun & Hout & Hdom & Hin).
  - by eapply column_loop_fuel.
  - intros k Hk. by eapply column_loop_enter.
  - by eapply column_loop_exit.
  - intros k h0 Hk (Hout & Hdom & Hin).
    assert (∀ i, getData m1 + k * getLd m1 + i = cell m1 i k) as Hc1 by (intros; unfold cell; lia).
    assert (∀ i, getData m2 + k * getLd m2 + i = cell m2 i k) as Hc2 by (intros; unfold cell; lia).
    destruct (zip_block_spec op (getData m1 + k * getLd m1) (getData m2 + k * getLd m2)
                (getRows m1) h0) as (h1 & Hblk & Hbout & Hbdom & Hbin).
    { intros i Hi. rewrite Hc1. apply Hdom, (wf_alloc m1 h Hwf1); [done|lia]. }
    { intros i Hi. rewrite Hc2. apply Hdom, (wf_alloc m2 h Hwf2); lia. }
    exists h1. split; [by rewrite (bind_done _ _ _ _ _ Hblk); unfold mret, M_ret; do 3 f_equal; lia|].
    split_and!.
    + intros p Hp. rewrite Hbout.
      * apply Hout. intros (i & j & Hi & Hj & ->). apply Hp. exists i, j.
        split_and!; [done|lia|done].
      * intros Hrange. apply Hp. exists (p - (getData m1 + k * getLd m1)), k.
        split_and!; [lia|lia|unfold cell; lia].
    + intros q Hq. by apply Hbdom, Hdom.
    + intros Hal i j x y Hi Hj Hx Hy. destruct (decide (j = k)) as [->|Hne].
      * rewrite <- Hc1. apply Hbin; [|done| |].
        -- intros i1 i2 Hi1 Hi2. rewrite Hc1, Hc2. intros Heq. symmetry in Heq.
           apply Hal in Heq as [-> _]; [done|done|lia|lia|lia].
        -- rewrite Hc1, Hout; [done|]. intros (i' & j' & Hi' & Hj' & Heq).
           apply cell_inj in Heq as [_ ->]; lia.
        -- rewrite Hc2, Hout; [done|]. intros (i' & j' & Hi' & Hj' & Heq). symmetry in Heq.
           apply Hal in Heq as [_ ->]; lia.
      * rewrite Hbout; [apply Hin; [done|done|lia|done|done]|].
        intros Hrange.
        assert (cell m1 i j = cell m1 (cell m1 i j - (getData m1 + k * getLd m1)) k)
          as Hc by (unfold cell in *; lia).
        apply cell_inj in Hc as [_ ->]; [done| |]; unfold cell in *; lia.
  - split_and!; [done|done|]. intros _ i j x y Hi Hj. lia.
  - simpl in Hrun.
    replace (getData m1 + 0 * getLd m1) with (getData m1) in Hrun by lia.
    replace (getData m2 + 0 * getLd m2) with (getData m2) in Hrun by lia.
    exists h'. split_and!.
    + by rewrite (bind_done _ _ _ _ _ Hrun).
    + intros p Hp. apply Hout. intros (i & j & Hi & Hj & ->). apply Hp. exists i, j.
      split_and!; [done|lia|done].
    + intros Hal i j x y Hi Hj. apply Hin; [done|done|]. by eapply column_visited.
Qed.

(** * The infinity norm *)

Lemma fmap_list_bind {A B C} (f : B → C) (g : A → list B) (l : list A) :
  f <$> (l ≫= g) = l ≫= (λ x, f <$> g x).
Proof.
  induction l as [|x l IH]; [done|]. rewrite !bind_cons, fmap_app. by rewrite IH.
Qed.

Lemma Forall_iota (P : N → Prop) n : (∀ i, i < n → P i) → Forall P (iota n).
Proof. intros HP. apply list.Forall_forall. intros i Hi%elem_of_iota. by apply HP. Qed.

Lemma elements_colmajor_values `{MatrixConcept Mat} (m : Mat) h :
  wf m h → elements_colmajor m h = Some <$> values_colmajor m h.
Proof.
  intros Hwf. unfold elements_colmajor, values_colmajor. rewrite fmap_list_bind.
  apply Forall_bind_ext, Forall_iota. intros j Hj.
  rewrite <- list_fmap_compose.
  assert (∀ A (f : N → A) l, (l ≫= λ i, [f i]) = f <$> l) as Hsingle.
  { intros A f l. induction l as [|x l IH]; [done|]. rewrite bind_cons, IH. done. }
  rewrite Hsingle. apply Forall_fmap_ext_1, Forall_iota. intros i Hi. simpl.
  rewrite (element_cell m h) by done. unfold value.
  destruct (wf_alloc m h Hwf i j Hi Hj) as [x ->]. done.
Qed.

Lemma norm_block_spec p n nrm h :
  (∀ i, i < n → is_Some (h !! (p + i))) →
  while_ (N.to_nat n) (λ '(pp, nrm), pp <? p + n)
    (λ '(pp, nrm), x ← load pp; mret (pp + 1, if (nrm <? abs x)%float then abs x else nrm))
    (p, nrm) h
  = (Done (p + n, foldl norm_step nrm ((λ i, default 0%float (h !! (p + i))) <$> iota n)), h).
Proof.
  intros Halloc.
  destruct (while_counted
    (λ k, (p + k, foldl norm_step nrm ((λ i, default 0%float (h !! (p + i))) <$> iota k)))
    n (N.to_nat n) (λ '(pp, nrm), pp <? p + n)
    (λ '(pp, nrm), x ← load pp; mret (pp + 1, if (nrm <? abs x)%float then abs x else nrm))
    (λ k h', h' = h)) with (h := h) as (h' & Hrun & ->); try done.
  - intros k Hk. apply N.ltb_lt. lia.
  - apply N.ltb_irrefl.
  - intros k h0 Hk ->. exists h. split; [|done].
    destruct (Halloc k Hk) as [x Hx].
    rewrite (bind_done _ _ _ _ _ (load_done _ _ _ Hx)).
    unfold mret, M_ret. do 3 f_equal; [lia|].
    rewrite iota_succ, fmap_app, foldl_app. simpl. rewrite Hx. done.
  - simpl in Hrun. rewrite N.add_0_r in Hrun. done.
Qed.

Lemma values_colmajor_visited `{MatrixConcept Mat} (m : Mat) h :
  wf m h →
  values_colmajor m h
  = (j ← iota (columns_visited m); (λ i, value m h i j) <$> iota (getRows m)).
Proof.
  intros Hwf. unfold values_colmajor, columns_visited.
  destruct (N.eqb_spec (getLd m) 0) as [Hz|]; [|done].
  pose proof (wf_ld m h Hwf). assert (getRows m = 0) as -> by lia.
  generalize (iota (getCols m)). intros l. induction l as [|x l IH]; [done|].
  rewrite bind_cons, IH. done.
Qed.

(** [nrminf] reads the elements of [m] in column-major order, keeps the
    running maximum of their absolute values and leaves the store alone. *)
Lemma nrminf_spec `{MatrixConcept Mat} (m : Mat) h :
  wf m h → mat.nrminf m h = (Done (foldl norm_step 0%float (values_colmajor m h)), h).
Proof.
  intros Hwf. unfold mat.nrminf. rewrite (values_colmajor_visited m h Hwf).
  pose proof (columns_visited_le m) as Hle.
  destruct (while_counted
    (λ k, (getData m + k * getLd m,
           foldl norm_step 0%float (j ← iota k; (λ i, value m h i j) <$> iota (getRows m))))
    (columns_visited m)
    (N.to_nat (getData m + wrap (getCols m * getLd m) - getData m))
    (λ '(p, nrm), p <? getData m + wrap (getCols m * getLd m))
    (λ '(p, nrm),
       r ← while_ (N.to_nat (getRows m)) (λ '(pp, nrm), pp <? p + getRows m)
             (λ '(pp, nrm), x ← load pp;
                mret (pp + 1, if (nrm <? abs x)%float then abs x else nrm))
             (p, nrm);
       mret (p + getLd m, r.2))
    (λ k h', h' = h)) with (h := h) as (h' & Hrun & ->); try done.
  - by eapply column_loop_fuel.
  - intros k Hk. by eapply column_loop_enter.
  - by eapply column_loop_exit.
  - intros k h0 Hk ->. exists h. split; [|done].
    assert (∀ i, i < getRows m → is_Some (h !! (getData m + k * getLd m + i))) as Halloc.
    { intros i Hi. replace (getData m + k * getLd m + i) with (cell m i k) by (unfold cell; lia).
      apply (wf_alloc m h Hwf); [done|lia]. }
    rewrite (bind_done _ _ _ _ _ (norm_block_spec _ _ _ _ Halloc)).
    unfold mret, M_ret. simpl. do 3 f_equal; [lia|].
    rewrite iota_succ, bind_app, foldl_app. f_equal.
    rewrite bind_cons. simpl. rewrite app_nil_r.
    apply Forall_fmap_ext_1, Forall_iota. intros i Hi. unfold value, cell.
    do 2 f_equal. lia.
  - simpl in Hrun. replace (getData m + 0 * getLd m) with (getData m) in Hrun by lia.
    by rewrite (bind_done _ _ _ _ _ Hrun).
Qed.

(** * Order on doubles

    [<?] on primitive floats is the IEEE comparison; the facts used below
    are read off its specification on [spec_float]. *)

Lemma SFltb_irrefl x : SFltb x x = false.
Proof.
  unfold SFltb. destruct x as [s|s| |s m e]; simpl; try done.
  - by destruct s.
  - rewrite Z.compare_refl.
    change (PosDef.Pos.compare_cont Eq m m) with (Pos.compare m m).
    rewrite Pos.compare_refl. by destruct s.
Qed.

Lemma SFltb_trans x y z : SFltb x y = true → SFltb y z = true → SFltb x z = true.
Proof.
  unfold SFltb.
  destruct x as [sx|sx| |sx mx ex], y as [sy|sy| |sy my ey], z as [sz|sz| |sz mz ez]; simpl;
    try done; repeat match goal with s : bool |- _ => destruct s end; simpl; try done.
  all: change PosDef.Pos.compare_cont with Pos.compare_cont;
       repeat match goal with
       | |- context [Pos.compare_cont Eq ?a ?b] =>
           change (Pos.compare_cont Eq a b) with (Pos.compare a b)
       end.
  all: repeat match goal with
       | |- context [(?a ?= ?b)%Z] => destruct (Z.compare_spec a b); simpl; try done; try lia
       end.
  all: subst; repeat match goal with
       | |- context [(?a ?= ?b)%positive] =>
           destruct (Pos.compare_spec a b); simpl; try done; try lia
       end.
Qed.

Lemma float_ltb_irrefl (x : double) : (x <? x)%float = false.
Proof. rewrite ltb_spec. apply SFltb_irrefl. Qed.

Lemma float_ltb_trans (x y z : double) :
  (x <? y)%float = true → (y <? z)%float = true → (x <? z)%float = true.
Proof. rewrite !ltb_spec. apply SFltb_trans. Qed.

(** [fabs(x - x) > 0] is false for every double, infinities and NaN included. *)
Lemma sub_diag_not_positive (x : double) : (0 <? abs (x - x))%float = false.
Proof.
  rewrite ltb_spec, abs_spec, sub_spec. change (Prim2SF 0) with (S754_zero false).
  unfold SF64sub. destruct (Prim2SF x) as [s|s| |s m e]; simpl; try done.
  - by destruct s.
  - by destruct s.
  - rewrite Z.sub_diag. done.
Qed.

(** ** The running maximum *)

Lemma norm_step_above nrm x : (norm_step nrm x <? abs x)%float = false.
Proof.
  unfold norm_step. destruct (nrm <? abs x)%float eqn:Hlt; [apply float_ltb_irrefl|done].
Qed.

Lemma norm_step_mono nrm x z :
  (norm_step nrm x <? z)%float = true → (nrm <? z)%float = true.
Proof.
  unfold norm_step. destruct (nrm <? abs x)%float eqn:Hlt; [|done].
  intros Hz. by eapply float_ltb_trans.
Qed.

Lemma foldl_norm_mono l : ∀ nrm z,
  (foldl norm_step nrm l <? z)%float = true → (nrm <? z)%float = true.
Proof.
  induction l as [|x l IH]; intros nrm z; simpl; [done|].
  intros Hz. eapply norm_step_mono, IH, Hz.
Qed.

Lemma foldl_norm_above l : ∀ nrm x,
  x ∈ l → (foldl norm_step nrm l <? abs x)%float = false.
Proof.
  induction l as [|y l IH]; intros nrm x Hx; [by apply elem_of_nil in Hx|].
  apply elem_of_cons in Hx as [->|Hx]; simpl; [|by apply IH].
  destruct (foldl norm_step (norm_step nrm y) l <? abs y)%float eqn:Hlt; [|done].
  apply foldl_norm_mono in Hlt. by rewrite norm_step_above in Hlt.
Qed.

Lemma foldl_norm_attained l : ∀ nrm,
  foldl norm_step nrm l = nrm ∨ ∃ x, x ∈ l ∧ foldl norm_step nrm l = abs x.
Proof.
  induction l as [|y l IH]; intros nrm; simpl; [by left|].
  destruct (IH (norm_step nrm y)) as [Heq|(x & Hx & Heq)].
  - rewrite Heq. unfold norm_step. destruct (nrm <? abs y)%float; [|by left].
    right. exists y. split; [apply elem_of_cons; by left|done].
  - right. exists x. split; [apply elem_of_cons; by right|done].
Qed.

Lemma elem_of_values_colmajor `{MatrixConcept Mat} (m : Mat) h x :
  x ∈ values_colmajor m h ↔ ∃ i j, i < getRows m ∧ j < getCols m ∧ x = value m h i j.
Proof.
  unfold values_colmajor. rewrite list_elem_of_bind. split.
  - intros (j & Hx & Hj%elem_of_iota). apply list_elem_of_fmap in Hx as (i & -> & Hi%elem_of_iota).
    by exists i, j.
  - intros (i & j & Hi & Hj & ->). exists j. split; [|by apply elem_of_iota].
    apply list_elem_of_fmap. exists i. split; [done|by apply elem_of_iota].
Qed.

(** * add, sub, negate, nrminf *)

Section elementwise.
Context {Mat1 : Type} {C1 : MatrixConcept Mat1} {Mat2 : Type} {C2 : MatrixConcept Mat2}.

Lemma zip_spec (op : double → double → double) (c : M unit) (m1 : Mat1) (m2 : Mat2) (h : heap) e :
  c = (assert_ ((getRows m1 =? getRows m2) && (getCols m1 =? getCols m2)) e;;
       zip_columns op m1 m2) →
  wf m1 h → wf m2 h → getRows m1 = getRows m2 → getCols m1 = getCols m2 →
  ∃ h', c h = (Done tt, h') ∧ untouched_outside m1 h h' ∧
        (aligned m1 m2 →
         ∀ i j x y, i < getRows m1 → j < getCols m1 →
           h !! element m1 i j = Some x → h !! element m2 i j = Some y →
           h' !! element m1 i j = Some (op x y)).
Proof.
  intros -> Hwf1 Hwf2 Hrows Hcols.
  destruct (zip_columns_spec op m1 m2 h Hwf1 Hwf2 Hrows Hcols) as (h' & Hrun & Hout & Hin).
  exists h'. split_and!; [|done|].
  - rewrite (bind_done _ _ h tt h); [done|]. apply assert_true.
    rewrite andb_true_iff. split; by apply N.eqb_eq.
  - intros Hal i j x y Hi Hj.
    rewrite (element_cell m1 h), (element_cell m2 h) by (done || lia).
    by apply Hin.
Qed.

Lemma map_spec (op : double → double) (m1 : Mat1) (h : heap) :
  wf m1 h →
  ∃ h', map_columns op m1 h = (Done tt, h') ∧ untouched_outside m1 h h' ∧
        ∀ i j, i < getRows m1 → j < getCols m1 →
          h' !! element m1 i j = op <$> h !! element m1 i j.
Proof.
  intros Hwf. destruct (map_columns_spec op m1 h Hwf) as (h' & Hrun & Hin & Hout).
  exists h'. split_and!; [done|done|].
  intros i j Hi Hj. rewrite (element_cell m1 h) by done. by apply Hin.
Qed.

(** C10: [add] (matrix and scalar), [sub] (matrix and scalar), [negate] and
    [nrminf] go through the matrix column by column, [getLd] apart, and
    through [getRows] elements of each column.  They complete on any
    well-formed operand (allocated padding is not required), leave every
    address that is not one of the [rows*cols] elements of [m1] untouched,
    and compute from the in-view elements alone; [nrminf] returns the
    running maximum of [fabs] over the in-view elements, which no
    [fabs] of an in-view element exceeds and which is [0] or one of them. *)
Theorem elementwise_in_view_only (m1 : Mat1) (m2 : Mat2) (d : double) (h : heap) :
  wf m1 h →
  (wf m2 h → getRows m1 = getRows m2 → getCols m1 = getCols m2 →
   ∃ h', mat.add m1 m2 h = (Done tt, h') ∧ untouched_outside m1 h h' ∧
     (aligned m1 m2 →
      ∀ i j x y, i < getRows m1 → j < getCols m1 →
        h !! element m1 i j = Some x → h !! element m2 i j = Some y →
        h' !! element m1 i j = Some (x + y)%float)) ∧
  (∃ h', mat.add_d m1 d h = (Done tt, h') ∧ untouched_outside m1 h h' ∧
     ∀ i j, i < getRows m1 → j < getCols m1 →
       h' !! element m1 i j = (λ x, (x + d)%float) <$> h !! element m1 i j) ∧
  (wf m2 h → getRows m1 = getRows m2 → getCols m1 = getCols m2 →
   ∃ h', mat.sub m1 m2 h = (Done tt, h') ∧ untouched_outside m1 h h' ∧
     (aligned m1 m2 →
      ∀ i j x y, i < getRows m1 → j < getCols m1 →
        h !! element m1 i j = Some x → h !! element m2 i j = Some y →
        h' !! element m1 i j = Some (x - y)%float)) ∧
  (∃ h', mat.sub_d m1 d h = (Done tt, h') ∧ untouched_outside m1 h h' ∧
     ∀ i j, i < getRows m1 → j < getCols m1 →
       h' !! element m1 i j = (λ x, (x + -1.0 * d)%float) <$> h !! element m1 i j) ∧
  (∃ h', mat.negate m1 h = (Done tt, h') ∧ untouched_outside m1 h h' ∧
     ∀ i j, i < getRows m1 → j < getCols m1 →
       h' !! element m1 i j = (λ x, (- x)%float) <$> h !! element m1 i j) ∧
  (∃ r, mat.nrminf m1 h = (Done r, h) ∧
     r = foldl norm_step 0%float (values_colmajor m1 h) ∧
     elements_colmajor m1 h = Some <$> values_colmajor m1 h ∧
     (∀ i j x, i < getRows m1 → j < getCols m1 →
        h !! element m1 i j = Some x → (r <? abs x)%float = false) ∧
     (r = 0%float ∨
      ∃ i j x, i < getRows m1 ∧ j < getCols m1 ∧
               h !! element m1 i j = Some x ∧ r = abs x)).
Proof.
  intros Hwf1. split_and!.
  - intros Hwf2 Hrows Hcols. by eapply (zip_spec PrimFloat.add).
  - apply (map_spec (λ x, (x + d)%float) m1 h Hwf1).
  - intros Hwf2 Hrows Hcols. by eapply (zip_spec PrimFloat.sub).
  - apply (map_spec (λ x, (x + -1.0 * d)%float) m1 h Hwf1).
  - apply (map_spec (λ x, (- x)%float) m1 h Hwf1).
  - eexists. split_and!; [by apply nrminf_spec|done|by apply elements_colmajor_values| |].
    + intros i j x Hi Hj Hx. apply foldl_norm_above, elem_of_values_colmajor.
      exists i, j. split_and!; [done|done|].
      rewrite (element_cell m1 h) in Hx by done. unfold value. by rewrite Hx.
    + destruct (foldl_norm_attained (values_colmajor m1 h) 0%float)
        as [Heq|(x & Hx & Heq)]; [by left|right].
      apply elem_of_values_colmajor in Hx as (i & j & Hi & Hj & ->).
      exists i, j, (value m1 h i j). split_and!; [done|done| |done].
      rewrite (element_cell m1 h) by done. unfold value.
      destruct (wf_alloc m1 h Hwf1 i j Hi Hj) as [x ->]. done.
Qed.
End elementwise.

(** * isDiff *)

(** A read-only search loop: iteration [k] returns [true] from the function
    when [hit k] holds and goes on to the next state otherwise. *)
Lemma while_ret_search {S : Type} (f : N → S) (n : N) (fuel : nat) (cond : S → bool)
    (body : S → M (S + bool)) (hit : N → bool) (h : heap) :
  (N.to_nat n ≤ fuel)%nat →
  (∀ k, k < n → cond (f k) = true) →
  cond (f n) = false →
  (∀ k, k < n → body (f k) h = (Done (if hit k then inr true else inl (f (k + 1))), h)) →
  while_ret fuel cond body (f 0) h
  = (Done (if existsb hit (iota n) then inr true else inl (f n)), h).
Proof.
  intros Hfuel Hin Hout Hbody.
  assert (∀ d a fu, N.of_nat a + N.of_nat d = n → (d ≤ fu)%nat →
            while_ret fu cond body (f (N.of_nat a)) h
            = (Done (if existsb hit (N.of_nat <$> seq a d) then inr true else inl (f n)), h))
    as Hgen.
  { induction d as [|d IH]; intros a fu Ha Hfu.
    - replace (N.of_nat a) with n by lia. simpl. destruct fu; simpl; by rewrite Hout.
    - destruct fu as [|fu]; [lia|]. simpl. rewrite Hin by lia.
      rewrite (bind_done _ _ _ _ _ (Hbody (N.of_nat a) ltac:(lia))).
      destruct (hit (N.of_nat a)); simpl; [done|].
      replace (N.of_nat a + 1) with (N.of_nat (Datatypes.S a)) by lia.
      apply IH; lia. }
  apply (Hgen (N.to_nat n) 0%nat); lia.
Qed.

Section isDiff.
Context {Mat1 : Type} {C1 : MatrixConcept Mat1} {Mat2 : Type} {C2 : MatrixConcept Mat2}.

Lemma isDiff_run (m1 : Mat1) (m2 : Mat2) (tol : double) (h : heap) :
  wf m1 h → wf m2 h → getRows m1 = getRows m2 → getCols m1 = getCols m2 →
  mat.isDiff m1 m2 tol h
  = (Done (existsb (λ j, existsb (λ i, differ m1 m2 tol h i j) (iota (getRows m1)))
             (iota (columns_visited m1))), h).
Proof.
  intros Hwf1 Hwf2 Hrows Hcols. unfold mat.isDiff.
  rewrite (bind_done _ _ h tt h).
  2:{ apply assert_true. rewrite andb_true_iff. split; by apply N.eqb_eq. }
  pose proof (columns_visited_le m1) as Hle.
  assert (∀ k, k < columns_visited m1 →
    while_ret (R := bool) (N.to_nat (getRows m1))
      (λ '(pp1, pp2), pp1 <? getData m1 + k * getLd m1 + getRows m1)
      (λ '(pp1, pp2), x ← load pp1; y ← load pp2;
         if (tol <? abs (x - y))%float then mret (inr true)
         else mret (inl (pp1 + 1, pp2 + 1)))
      (getData m1 + k * getLd m1, getData m2 + k * getLd m2) h
    = (Done (if existsb (λ i, differ m1 m2 tol h i k) (iota (getRows m1)) then inr true
             else inl (getData m1 + k * getLd m1 + getRows m1,
                       getData m2 + k * getLd m2 + getRows m1)), h)) as Hcolumn.
  { intros k Hk.
    pose proof (while_ret_search
      (λ i, (getData m1 + k * getLd m1 + i, getData m2 + k * getLd m2 + i))
      (getRows m1) (N.to_nat (getRows m1))
      (λ '(pp1, pp2), pp1 <? getData m1 + k * getLd m1 + getRows m1)
      (λ '(pp1, pp2), x ← load pp1; y ← load pp2;
         if (tol <? abs (x - y))%float then mret (inr true)
         else mret (inl (pp1 + 1, pp2 + 1)))
      (λ i, differ m1 m2 tol h i k) h) as Hrun.
    simpl in Hrun. rewrite !N.add_0_r in Hrun. apply Hrun; clear Hrun.
    - lia.
    - intros i Hi. apply N.ltb_lt. lia.
    - apply N.ltb_irrefl.
    - intros i Hi.
      destruct (wf_alloc m1 h Hwf1 i k) as [x Hx]; [done|lia|].
      destruct (wf_alloc m2 h Hwf2 i k) as [y Hy]; [lia|lia|].
      replace (getData m1 + k * getLd m1 + i) with (cell m1 i k) by (unfold cell; lia).
      replace (getData m2 + k * getLd m2 + i) with (cell m2 i k) by (unfold cell; lia).
      rewrite (bind_done _ _ _ _ _ (load_done _ _ _ Hx)).
      rewrite (bind_done _ _ _ _ _ (load_done _ _ _ Hy)).
      unfold differ, value. rewrite Hx, Hy. simpl.
      destruct (tol <? abs (x - y))%float; unfold mret, M_ret; [done|].
      do 4 f_equal; unfold cell; lia. }
  pose proof (while_ret_search
    (λ k, (getData m1 + k * getLd m1, getData m2 + k * getLd m2))
    (columns_visited m1)
    (N.to_nat (getData m1 + wrap (getCols m1 * getLd m1) - getData m1))
    (λ '(p1, p2), p1 <? getData m1 + wrap (getCols m1 * getLd m1))
    (λ '(p1, p2),
       r ← while_ret (R := bool) (N.to_nat (getRows m1))
             (λ '(pp1, pp2), pp1 <? p1 + getRows m1)
             (λ '(pp1, pp2), x ← load pp1; y ← load pp2;
                if (tol <? abs (x - y))%float then mret (inr true)
                else mret (inl (pp1 + 1, pp2 + 1)))
             (p1, p2);
       match r with
       | inl _ => mret (inl (p1 + getLd m1, p2 + getLd m2))
       | inr b => mret (inr b)
       end)
    (λ j, existsb (λ i, differ m1 m2 tol h i j) (iota (getRows m1))) h) as Hrun.
  simpl in Hrun. rewrite !N.add_0_r in Hrun.
  match type of Hrun with _ → _ → _ → _ → ?concl => assert concl as Hloop end;
    [apply Hrun; clear Hrun|clear Hrun; rewrite (bind_done _ _ _ _ _ Hloop)]; cycle -1.
  - destruct (existsb _ _); done.
  - by eapply column_loop_fuel.
  - intros k Hk. by eapply column_loop_enter.
  - by eapply column_loop_exit.
  - intros k Hk. rewrite (bind_done _ _ _ _ _ (Hcolumn k Hk)).
    destruct (existsb _ _); unfold mret, M_ret; [done|].
    do 4 f_equal; lia.
Qed.
End isDiff.

Section isDiff_claim.
Context {Mat1 : Type} {C1 : MatrixConcept Mat1} {Mat2 : Type} {C2 : MatrixConcept Mat2}.

(** C8: for matrices of equal dimensions [isDiff(M1, M2, tol)] returns
    [true] exactly when some pair of corresponding elements has
    [fabs(M1(i,j) - M2(i,j)) > tol]; and [isDiff(M, M, 0)] returns
    [false]. *)
Theorem isDiff_iff (m1 : Mat1) (m2 : Mat2) (tol : double) (h : heap) :
  wf m1 h →
  (wf m2 h → getRows m1 = getRows m2 → getCols m1 = getCols m2 →
   ∃ b, mat.isDiff m1 m2 tol h = (Done b, h) ∧
        (b = true ↔
         ∃ i j x y, i < getRows m1 ∧ j < getCols m1 ∧
                    h !! element m1 i j = Some x ∧ h !! element m2 i j = Some y ∧
                    (tol <? abs (x - y))%float = true)) ∧
  mat.isDiff m1 m1 0%float h = (Done false, h).
Proof.
  intros Hwf1. split.
  - intros Hwf2 Hrows Hcols. eexists. split; [by apply isDiff_run|].
    rewrite existsb_exists. split.
    + intros (j & Hj%list_elem_of_In%elem_of_iota & Hex).
      apply existsb_exists in Hex as (i & Hi%list_elem_of_In%elem_of_iota & Hd).
      pose proof (columns_visited_le m1).
      destruct (wf_alloc m1 h Hwf1 i j) as [x Hx]; [done|lia|].
      destruct (wf_alloc m2 h Hwf2 i j) as [y Hy]; [lia|lia|].
      exists i, j, x, y.
      rewrite (element_cell m1 h), (element_cell m2 h) by (done || lia).
      split_and!; [done|lia|done|done|].
      unfold differ, value in Hd. by rewrite Hx, Hy in Hd.
    + intros (i & j & x & y & Hi & Hj & Hx & Hy & Hd).
      rewrite (element_cell m1 h) in Hx by done.
      rewrite (element_cell m2 h) in Hy by (done || lia).
      exists j. split; [by eapply list_elem_of_In, elem_of_iota, column_visited|].
      apply existsb_exists. exists i. split; [by apply list_elem_of_In, elem_of_iota|].
      unfold differ, value. by rewrite Hx, Hy.
  - rewrite isDiff_run by done. f_equal. f_equal.
    apply not_true_iff_false. rewrite existsb_exists. intros (j & _ & Hex).
    apply existsb_exists in Hex as (i & _ & Hd).
    unfold differ in Hd. by rewrite sub_diag_not_positive in Hd.
Qed.
End isDiff_claim.

(** * Counting loops as sequences *)

Lemma for_unroll (n : size_t) (body : size_t → M unit) h :
  n < SIZE_MOD → for_ n body h = for_list body (iota n) h.
Proof.
  intros Hn. unfold for_, iota.
  assert (∀ d a fu h, N.of_nat a + N.of_nat d = n → (d ≤ fu)%nat →
    (while_ fu (λ i, i <? n) (λ i, body i;; mret (wrap (i + 1))) (N.of_nat a);; mret tt) h
    = for_list body (N.of_nat <$> seq a d) h) as Hgen.
  { induction d as [|d IH]; intros a fu h0 Ha Hfu.
    - replace (N.of_nat a) with n by lia. simpl.
      unfold mbind, M_bind. destruct fu; simpl; by rewrite N.ltb_irrefl.
    - destruct fu as [|fu]; [lia|]. simpl.
      replace (N.of_nat a <? n) with true by (symmetry; apply N.ltb_lt; lia).
      specialize (IH (Datatypes.S a) fu). revert IH.
      unfold mbind, M_bind. intros IH.
      destruct (body (N.of_nat a) h0) as [[[]| | |] h1]; try done.
      unfold mret at 1, M_ret at 1. rewrite wrap_small by lia.
      replace (N.of_nat a + 1) with (N.of_nat (Datatypes.S a)) by lia.
      apply IH; lia. }
  apply (Hgen (N.to_nat n) 0%nat); lia.
Qed.

(** * Index vectors *)

Lemma identity_indices_iota count : mat.identity_indices count = iota count.
Proof.
  unfold mat.identity_indices, iota.
  assert (∀ k (tmp : list N), (k ≤ length tmp)%nat →
    (∀ i, (i < k)%nat → tmp !! i = Some (N.of_nat i)) →
    ∀ d, (k + d = length tmp)%nat →
    foldl (λ tmp i, <[N.to_nat i := i]> tmp) tmp (N.of_nat <$> seq k d)
    = N.of_nat <$> seq 0 (length tmp)) as Hgen.
  { intros k tmp Hk Hpre d. revert k tmp Hk Hpre.
    induction d as [|d IH]; intros k tmp Hk Hpre Hd; simpl.
    - apply list_eq. intros i. rewrite list_lookup_fmap.
      destruct (decide (i < length tmp)%nat) as [Hi|Hi].
      + rewrite lookup_seq_lt by done. apply Hpre. lia.
      + rewrite lookup_seq_ge by lia. apply lookup_ge_None. lia.
    - rewrite IH with (k := Datatypes.S k); rewrite ?length_insert; try lia.
      + done.
      + intros i Hi. rewrite Nat2N.id. destruct (decide (i = k)) as [->|Hne].
        * apply list_lookup_insert_eq. lia.
        * rewrite list_lookup_insert_ne by done. apply Hpre. lia. }
  rewrite (Hgen 0%nat); rewrite ?length_replicate; try lia; try done.
Qed.

(** The checking loop: the count when every entry is below [count], the
    failed assertion otherwise; the store is not accessed. *)
Lemma check_indices_run (v : vec) (count : size_t) (e : string) (h : heap) :
  vec_ok v →
  mat.check_indices v count e 0 h
  = if forallb (λ x, x <? count) v then (Done (size v), h) else (Abort e, h).
Proof.
  intros Hv. unfold mat.check_indices, vec_ok, size in *.
  assert (∀ d a fu, (a + d = length v)%nat → (d ≤ fu)%nat →
    while_ fu (λ '(i, n), i <? N.of_nat (length v))
      (λ '(i, n), assert_ (nth_ v i <? count) e;; mret (wrap (i + 1), wrap (n + 1)))
      (N.of_nat a, N.of_nat a) h
    = if forallb (λ x, x <? count) (drop a v)
      then (Done (N.of_nat (length v), N.of_nat (length v)), h) else (Abort e, h)) as Hgen.
  { induction d as [|d IH]; intros a fu Ha Hfu.
    - replace a with (length v) by lia. rewrite drop_all. simpl.
      destruct fu; simpl; by rewrite N.ltb_irrefl.
    - destruct fu as [|fu]; [lia|]. simpl.
      replace (N.of_nat a <? N.of_nat (length v)) with true by (symmetry; apply N.ltb_lt; lia).
      destruct (lookup_lt_is_Some_2 v a) as [x Hx]; [lia|].
      rewrite (drop_S _ _ _ Hx). simpl.
      unfold nth_. rewrite Nat2N.id, (nth_lookup_Some _ _ _ _ Hx).
      unfold mbind, M_bind, assert_. destruct (x <? count); simpl; [|done].
      unfold mret, M_ret. rewrite !wrap_small by lia.
      replace (N.of_nat a + 1) with (N.of_nat (Datatypes.S a)) by lia.
      apply IH; lia. }
  unfold mbind, M_bind. rewrite (Hgen (length v) 0%nat) by lia. rewrite drop_0.
  destruct (forallb _ _); done.
Qed.

Lemma index_vector_run (v : vec) (count : size_t) (e1 e2 : string) (h : heap) :
  vec_ok v →
  mat.index_vector v count e1 e2 h
  = if size v =? 0 then (Done (count, iota count), h)
    else if forallb (λ x, x <? count) v
         then if size v <=? count then (Done (size v, v), h) else (Abort e2, h)
         else (Abort e1, h).
Proof.
  intros Hv. unfold mat.index_vector. rewrite identity_indices_iota.
  destruct (size v =? 0); [done|].
  unfold mbind, M_bind. rewrite check_indices_run by done.
  destruct (forallb _ _); [|done]. unfold assert_. destruct (size v <=? count); done.
Qed.

(** * Copying columns *)

Section copy.
Context {Src : Type} {CS : MatrixConcept Src} {Dst : Type} {CD : MatrixConcept Dst}.

(** One [memcpy] of a whole column: column [cd] of [dest] receives column
    [cs] of [src] as it was before the call. *)
Lemma copy_column_spec (src : Src) (cs : N) (dest : Dst) (cd : N) (h : heap) :
  wf src h → wf dest h → getRows src = getRows dest →
  cs < getCols src → cd < getCols dest →
  ∃ h', memcpy (getData dest + wrap (cd * getLd dest))
               (getData src + wrap (cs * getLd src))
               (wrap (getRows src * sizeof_double)) h = (Done tt, h') ∧
        (∀ i, i < getRows dest → h' !! cell dest i cd = h !! cell src i cs) ∧
        (∀ p, ¬ (∃ i, i < getRows dest ∧ p = cell dest i cd) → h' !! p = h !! p) ∧
        (∀ q, is_Some (h !! q) → is_Some (h' !! q)).
Proof.
  intros Hws Hwd Hrows Hcs Hcd.
  rewrite (wf_col_offset src h cs Hws Hcs), (wf_col_offset dest h cd Hwd Hcd).
  destruct (memcpy_spec (getData dest + cd * getLd dest) (getData src + cs * getLd src)
              (getRows src) h) as (h' & Hrun & Hin & Hout).
  - by eapply wf_col_bytes.
  - intros i Hi. replace (getData src + cs * getLd src + i) with (cell src i cs)
      by (unfold cell; lia).
    by apply (wf_alloc src h Hws).
  - intros i Hi. replace (getData dest + cd * getLd dest + i) with (cell dest i cd)
      by (unfold cell; lia).
    apply (wf_alloc dest h Hwd); [lia|done].
  - assert (∀ i, i < getRows dest → h' !! cell dest i cd = h !! cell src i cs) as Hcol.
    { intros i Hi. replace (cell dest i cd) with (getData dest + cd * getLd dest + i)
        by (unfold cell; lia).
      rewrite Hin by lia. f_equal. unfold cell. lia. }
    assert (∀ p, ¬ (∃ i, i < getRows dest ∧ p = cell dest i cd) → h' !! p = h !! p) as Hframe.
    { intros p Hp. apply Hout. intros Hrange. apply Hp.
      exists (p - (getData dest + cd * getLd dest)). split; [lia|unfold cell; lia]. }
    exists h'. split_and!; try done.
    intros q Hq.
    destruct (decide (getData dest + cd * getLd dest ≤ q
                      < getData dest + cd * getLd dest + getRows src)) as [Hr|Hr].
    + replace q with (cell dest (q - (getData dest + cd * getLd dest)) cd)
        by (unfold cell; lia).
      rewrite Hcol by lia. apply (wf_alloc src h Hws); [lia|done].
    + by rewrite Hout.
Qed.

(** The shared body of the assignment operators, for a source that is
    [aligned] with the destination. *)
Lemma copy_columns_spec (m : Dst) (arg : Src) (h : heap) :
  wf m h → wf arg h → getRows m = getRows arg → getCols m = getCols arg →
  aligned m arg →
  ∃ h', copy_columns m arg h = (Done tt, h') ∧
        (∀ i j, i < getRows m → j < getCols m → h' !! cell m i j = h !! cell arg i j) ∧
        untouched_outside m h h' ∧
        (∀ q, is_Some (h !! q) → is_Some (h' !! q)).
Proof.
  intros Hwm Hwa Hrows Hcols Hal. unfold copy_columns.
  rewrite (bind_done _ _ h tt h).
  2:{ apply assert_true. rewrite andb_true_iff. split; by apply N.eqb_eq. }
  pose proof (wf_ld m h Hwm) as Hld.
  destruct (for_counted (getCols m)
    (λ j, memcpy (getData m + wrap (j * getLd m)) (getData arg + wrap (j * getLd arg))
            (wrap (getRows m * sizeof_double)))
    (λ k h', (∀ i j, i < getRows m → j < k → h' !! cell m i j = h !! cell arg i j) ∧
             (∀ p, ¬ (∃ i j, i < getRows m ∧ j < k ∧ p = cell m i j) → h' !! p = h !! p) ∧
             (∀ q, is_Some (h !! q) → is_Some (h' !! q)))) with (h := h)
    as (h' & Hrun & Hin & Hout & Hdom).
  - by eapply wf_cols_size.
  - intros k h0 Hk (Hin & Hout & Hdom).
    replace (wrap (getRows m * sizeof_double)) with (wrap (getRows arg * sizeof_double))
      by (by rewrite Hrows).
    destruct (copy_column_spec arg k m k h0) as (h1 & Hcopy & Hcin & Hcout & Hcdom);
      [by eapply wf_preserved|by eapply wf_preserved|done|lia|done|].
    exists h1. split; [done|]. split_and!.
    + intros i j Hi Hj. destruct (decide (j = k)) as [->|Hne].
      * rewrite Hcin by done. apply Hout.
        intros (i' & j' & Hi' & Hj' & Heq). symmetry in Heq.
        apply Hal in Heq as [_ ->]; lia.
      * rewrite Hcout; [apply Hin; [done|lia]|].
        intros (i' & Hi' & Heq). apply cell_inj in Heq as [_ ->]; lia.
    + intros p Hp. rewrite Hcout.
      * apply Hout. intros (i & j & Hi & Hj & ->). apply Hp. exists i, j.
        split_and!; [done|lia|done].
      * intros (i & Hi & ->). apply Hp. exists i, k. split_and!; [done|lia|done].
    + intros q Hq. by apply Hcdom, Hdom.
  - split_and!; [intros i j Hi Hj; lia|done|done].
  - exists h'. split_and!; [done|done| |done].
    intros p Hp. apply Hout. intros (i & j & Hi & Hj & ->). apply Hp. by exists i, j.
Qed.
End copy.

(** C4: assignment into an owning [Matrix] fails on unequal dimensions;
    otherwise it copies column [j] as one block of [rows] doubles from offset
    [j*ld] of the source to offset [j*rows] of the destination, after which
    [dest(i,j) == src(i,j)] for every element, and nothing outside the
    destination has changed.  The source is stored apart from the
    destination or is the destination's own storage ([aligned]). *)
Theorem Matrix_assign_spec `{MatrixConcept Src} (dest : Matrix) (src : Src) (h : heap) :
  (Matrix_rows dest ≠ getRows src ∨ Matrix_cols dest ≠ getCols src →
   ∃ e, Matrix_assign dest src h = (Abort e, h)) ∧
  (Matrix_rows dest = getRows src → Matrix_cols dest = getCols src →
   wf dest h → wf src h → aligned dest src →
   ∃ h', Matrix_assign dest src h = (Done tt, h') ∧
         (∀ i j, i < Matrix_rows dest → j < Matrix_cols dest →
            h' !! (Matrix_data dest + j * Matrix_rows dest + i)
            = h !! (getData src + j * getLd src + i)) ∧
         (∀ i j, i < Matrix_rows dest → j < Matrix_cols dest →
            h' !! element dest i j = h' !! element src i j) ∧
         untouched_outside dest h h').
Proof.
  split.
  - intros Hdims. eexists. unfold Matrix_assign. apply bind_abort, assert_false.
    apply andb_false_iff. destruct Hdims as [Hne|Hne]; [left|right]; by apply N.eqb_neq.
  - intros Hrows Hcols Hwd Hws Hal.
    destruct (copy_columns_spec dest src h Hwd Hws Hrows Hcols Hal)
      as (h' & Hrun & Hin & Hout & Hdom).
    exists h'. split_and!; [done| | |done].
    + intros i j Hi Hj. specialize (Hin i j Hi Hj). unfold cell in Hin. simpl in Hin.
      replace (Matrix_data dest + j * Matrix_rows dest + i)
        with (Matrix_data dest + i + j * Matrix_rows dest) by lia.
      rewrite Hin. f_equal. lia.
    + intros i j Hi Hj.
      rewrite (element_cell dest h), (element_cell src h) by (done || simpl in *; lia).
      destruct (decide (cell dest i j = cell src i j)) as [Heq|Hne]; [by rewrite Heq|].
      rewrite Hin by done. symmetry. apply Hout.
      intros (i' & j' & Hi' & Hj' & Heq). destruct Hne. symmetry in Heq.
      pose proof Heq as Heq'. apply Hal in Heq' as [-> ->]; simpl in *; lia.
Qed.

(** * Index vectors accepted and refused *)

Lemma size_iota count : size (iota count) = count.
Proof. unfold size. rewrite length_iota. lia. Qed.

Lemma in_range_iota count : in_range count (iota count).
Proof. apply Forall_iota. done. Qed.

Lemma in_range_forallb count v : forallb (λ x, x <? count) v = true ↔ in_range count v.
Proof.
  unfold in_range. rewrite forallb_forall, list.Forall_forall. split.
  - intros Hall x Hx%list_elem_of_In. by apply N.ltb_lt, Hall.
  - intros Hall x Hx%list_elem_of_In. by apply N.ltb_lt, Hall.
Qed.

Lemma selection_ok_selects v count : selection_ok v count = true ↔ selects count v.
Proof.
  unfold selection_ok, selects, expand. destruct (N.eqb_spec (size v) 0) as [Hz|Hz]; simpl.
  - split; [|done]. intros _. split; [apply in_range_iota|lia].
  - rewrite andb_true_iff, in_range_forallb, N.leb_le. done.
Qed.

Lemma nth_in_range count v k : in_range count v → k < size v → nth_ v k < count.
Proof.
  unfold in_range, size, nth_. intros Hall Hk.
  destruct (lookup_lt_is_Some_2 v (N.to_nat k)) as [x Hx]; [lia|].
  rewrite (nth_lookup_Some _ _ _ _ Hx).
  by eapply (proj1 (list.Forall_forall _ _) Hall), list_elem_of_lookup_2.
Qed.

(** The block returns the expanded vector and its length, or fails without
    touching the store. *)
Lemma index_vector_accepts v count e1 e2 h :
  vec_ok v → selection_ok v count = true →
  mat.index_vector v count e1 e2 h = (Done (size (expand count v), expand count v), h).
Proof.
  intros Hv Hok. rewrite index_vector_run by done. unfold selection_ok, expand in *.
  destruct (size v =? 0); simpl in *; [by rewrite size_iota|].
  apply andb_true_iff in Hok as [-> ->]. done.
Qed.

Lemma index_vector_refuses v count e1 e2 h :
  vec_ok v → selection_ok v count = false →
  ∃ e, mat.index_vector v count e1 e2 h = (Abort e, h).
Proof.
  intros Hv Hok. rewrite index_vector_run by done. unfold selection_ok in *.
  destruct (size v =? 0); simpl in *; [done|].
  destruct (forallb _ _); simpl in *; [|by eexists].
  rewrite Hok. by eexists.
Qed.

(** * reorderColumnsByVectors *)

Section columns.
Context {Mat1 : Type} {C1 : MatrixConcept Mat1} {Mu1 : MutableMatrixConcept Mat1}.
Context {Mat2 : Type} {C2 : MatrixConcept Mat2}.

Lemma reorderColumns_pass (a : Mat1) (vToCols : vec) (b : Mat2) (vcols : vec) (h : heap) :
  vec_ok vToCols → vec_ok vcols →
  (size vToCols =? 0) && (size vcols =? 0) = false →
  columns_checks a vToCols b vcols = true →
  mat.reorderColumnsByVectors a vToCols b vcols h
  = for_ (size (expand (getCols b) vcols))
      (λ j, mat.col_copy b (nth_ (expand (getCols b) vcols) j)
              a (nth_ (expand (getCols a) vToCols) j)) h.
Proof.
  intros Hv1 Hv2 Hne Hchk. unfold columns_checks in Hchk.
  rewrite !andb_true_iff in Hchk. destruct Hchk as [[[[Hrows Hs1] Hs2] Hlen] Hpos].
  unfold mat.reorderColumnsByVectors.
  rewrite (bind_done _ _ h tt h) by (by apply assert_true).
  rewrite Hne.
  rewrite (bind_done _ _ _ _ _ (index_vector_accepts _ _ _ _ h Hv1 Hs1)).
  rewrite (bind_done _ _ _ _ _ (index_vector_accepts _ _ _ _ h Hv2 Hs2)).
  rewrite (bind_done _ _ h tt h); [done|].
  apply assert_true. by rewrite Hlen, Hpos.
Qed.

Lemma reorderColumns_fail (a : Mat1) (vToCols : vec) (b : Mat2) (vcols : vec) (h : heap) :
  vec_ok vToCols → vec_ok vcols →
  (size vToCols =? 0) && (size vcols =? 0) = false →
  columns_checks a vToCols b vcols = false →
  ∃ e, mat.reorderColumnsByVectors a vToCols b vcols h = (Abort e, h).
Proof.
  intros Hv1 Hv2 Hne Hchk. unfold columns_checks in Hchk.
  unfold mat.reorderColumnsByVectors.
  destruct (getRows b =? getRows a) eqn:Hrows; simpl in Hchk.
  2:{ eexists. by apply bind_abort, assert_false. }
  rewrite (bind_done _ _ h tt h) by (by apply assert_true).
  rewrite Hne.
  destruct (selection_ok vToCols (getCols a)) eqn:Hs1; simpl in Hchk.
  2:{ destruct (index_vector_refuses vToCols (getCols a) "vToCols[i] < a.getCols()"
                  "toncols <= a.getCols()" h Hv1 Hs1) as [e He].
      exists e. by apply bind_abort. }
  rewrite (bind_done _ _ _ _ _ (index_vector_accepts _ _ _ _ h Hv1 Hs1)).
  destruct (selection_ok vcols (getCols b)) eqn:Hs2; simpl in Hchk.
  2:{ destruct (index_vector_refuses vcols (getCols b) "vcols[i] < b.getCols()"
                  "ncols <= b.getCols()" h Hv2 Hs2) as [e He].
      exists e. by apply bind_abort. }
  rewrite (bind_done _ _ _ _ _ (index_vector_accepts _ _ _ _ h Hv2 Hs2)).
  eexists. by apply bind_abort, assert_false.
Qed.

(** With the checks passed no [col_copy] of the loop can fail its own
    assertion. *)
Lemma reorderColumns_loop_no_abort (a : Mat1) (vToCols : vec) (b : Mat2) (vcols : vec) (h : heap) :
  columns_checks a vToCols b vcols = true →
  no_abort (for_ (size (expand (getCols b) vcols))
              (λ j, mat.col_copy b (nth_ (expand (getCols b) vcols) j)
                      a (nth_ (expand (getCols a) vToCols) j))) h.
Proof.
  intros Hchk. unfold columns_checks in Hchk.
  rewrite !andb_true_iff in Hchk. destruct Hchk as [[[[Hrows Hs1] Hs2] Hlen] Hpos].
  apply selection_ok_selects in Hs1 as [Hr1 _]. apply selection_ok_selects in Hs2 as [Hr2 _].
  apply N.eqb_eq in Hlen.
  apply no_abort_for. intros j h0 Hj. unfold mat.col_copy.
  apply no_abort_bind; [|intros; apply no_abort_memcpy].
  intros e h' Hrun. rewrite assert_true in Hrun; [done|].
  rewrite !andb_true_iff. split_and!; [done| |]; apply N.ltb_lt.
  - by apply nth_in_range.
  - apply nth_in_range; [done|]. by rewrite Hlen.
Qed.
End columns.

Section columns_copy.
Context {Mat1 : Type} {C1 : MatrixConcept Mat1} {Mu1 : MutableMatrixConcept Mat1}.
Context {Mat2 : Type} {C2 : MatrixConcept Mat2}.

(** The copy loop over index vectors [D] (destination) and [S] (source):
    column [D[k]] of [a] ends as column [S[k]] of [b] for the last [k]
    that names it, and nothing outside the named columns changes. *)
Lemma column_loop_spec (a : Mat1) (D : vec) (b : Mat2) (S : vec) (h : heap) :
  wf a h → wf b h → separate a b → getRows b = getRows a →
  vec_ok S → size D = size S →
  in_range (getCols a) D → in_range (getCols b) S →
  ∃ h', for_ (size S) (λ j, mat.col_copy b (nth_ S j) a (nth_ D j)) h = (Done tt, h') ∧
        (∀ k i, k < size D → i < getRows a →
           (∀ k', k < k' < size D → nth_ D k' ≠ nth_ D k) →
           h' !! cell a i (nth_ D k) = h !! cell b i (nth_ S k)) ∧
        (∀ p, ¬ (∃ i k, i < getRows a ∧ k < size D ∧ p = cell a i (nth_ D k)) →
           h' !! p = h !! p).
Proof.
  intros Hwa Hwb Hsep Hrows HvS Hlen HD HS.
  pose proof (wf_ld a h Hwa) as Hld.
  destruct (for_counted (size S) (λ j, mat.col_copy b (nth_ S j) a (nth_ D j))
    (λ n h', (∀ k i, k < n → i < getRows a →
                (∀ k', k < k' < n → nth_ D k' ≠ nth_ D k) →
                h' !! cell a i (nth_ D k) = h !! cell b i (nth_ S k)) ∧
             (∀ p, ¬ (∃ i k, i < getRows a ∧ k < n ∧ p = cell a i (nth_ D k)) →
                h' !! p = h !! p) ∧
             (∀ q, is_Some (h !! q) → is_Some (h' !! q)))) with (h := h)
    as (h' & Hrun & Hin & Hout & Hdom).
  - done.
  - intros n h0 Hn (Hin & Hout & Hdom).
    assert (nth_ S n < getCols b) as HSn by (by apply nth_in_range).
    assert (nth_ D n < getCols a) as HDn by (apply nth_in_range; [done|lia]).
    destruct (copy_column_spec b (nth_ S n) a (nth_ D n) h0)
      as (h1 & Hcopy & Hcin & Hcout & Hcdom);
      [by eapply wf_preserved|by eapply wf_preserved|done|done|done|].
    exists h1. split.
    { unfold mat.col_copy. rewrite (bind_done _ _ h0 tt h0); [done|].
      apply assert_true. rewrite !andb_true_iff.
      split_and!; [by apply N.eqb_eq|by apply N.ltb_lt|by apply N.ltb_lt]. }
    split_and!.
    + intros k i Hk Hi Hlast. destruct (decide (k = n)) as [->|Hne].
      * rewrite Hcin by done. apply Hout.
        intros (i' & k' & Hi' & Hk' & Heq). apply (Hsep (cell b i (nth_ S n))).
        -- rewrite Heq. apply in_view_cell; [done|]. apply nth_in_range; [done|lia].
        -- apply in_view_cell; [lia|done].
      * rewrite Hcout.
        -- apply Hin; [lia|done|]. intros k' Hk'. apply Hlast. lia.
        -- intros (i' & Hi' & Heq). apply cell_inj in Heq as [_ Heq]; [|lia|lia].
           apply (Hlast n); [lia|done].
    + intros p Hp. rewrite Hcout.
      * apply Hout. intros (i & k & Hi & Hk & ->). apply Hp. exists i, k.
        split_and!; [done|lia|done].
      * intros (i & Hi & ->). apply Hp. exists i, n. split_and!; [done|lia|done].
    + intros q Hq. by apply Hcdom, Hdom.
  - split_and!; [intros k i Hk; lia|done|done].
  - exists h'. rewrite Hlen. done.
Qed.

Lemma columns_checks_precondition (a : Mat1) (vToCols : vec) (b : Mat2) (vcols : vec) :
  (size vToCols =? 0) && (size vcols =? 0) = false →
  columns_checks a vToCols b vcols = true ↔ columns_precondition a vToCols b vcols.
Proof.
  intros Hne. unfold columns_checks, columns_precondition.
  rewrite !andb_true_iff, !selection_ok_selects, !N.eqb_eq, N.ltb_lt.
  split; [intros [[[[? ?] ?] ?] ?]; done|]. intros (Hrows & Hs1 & Hs2 & Hlen).
  split_and!; try done. unfold expand in *. apply andb_false_iff in Hne.
  destruct (N.eqb_spec (size vcols) 0); destruct (N.eqb_spec (size vToCols) 0);
    destruct Hne; try done; try lia.
Qed.

(** C1 (amended): with at least one index list non-empty, an empty list
    stands for [0 .. count-1] of its own matrix.  The call fails, leaving
    the store as it was, unless the row counts are equal, the expanded
    lists have equal length, every index is in bounds for its own matrix
    and no given list is longer than the column count of its own matrix.
    When these hold the call is the loop of [col_copy(src, srcCols[k],
    dest, destCols[k])] for [k] below the common length; on matrices stored
    apart it completes, column [destCols[k]] of the destination holds
    source column [srcCols[k]] (all rows) for every [k] that is the last to
    name that destination column, and nothing else in the store has
    changed. *)
Theorem reorderColumns_spec (a : Mat1) (vToCols : vec) (b : Mat2) (vcols : vec) (h : heap) :
  vec_ok vToCols → vec_ok vcols → vToCols ≠ [] ∨ vcols ≠ [] →
  let D := expand (getCols a) vToCols in
  let S := expand (getCols b) vcols in
  (¬ columns_precondition a vToCols b vcols →
   ∃ e, mat.reorderColumnsByVectors a vToCols b vcols h = (Abort e, h)) ∧
  (columns_precondition a vToCols b vcols →
   mat.reorderColumnsByVectors a vToCols b vcols h
   = for_ (size S) (λ k, mat.col_copy b (nth_ S k) a (nth_ D k)) h) ∧
  (columns_precondition a vToCols b vcols → wf a h → wf b h → separate a b →
   ∃ h', mat.reorderColumnsByVectors a vToCols b vcols h = (Done tt, h') ∧
         (∀ k i, k < size D → i < getRows a →
            (∀ k', k < k' < size D → nth_ D k' ≠ nth_ D k) →
            h' !! element a i (nth_ D k) = h !! element b i (nth_ S k)) ∧
         (∀ p, ¬ (∃ i k, i < getRows a ∧ k < size D ∧ p = cell a i (nth_ D k)) →
            h' !! p = h !! p)).
Proof.
  intros Hv1 Hv2 Hnonempty D S.
  assert ((size vToCols =? 0) && (size vcols =? 0) = false) as Hne.
  { apply andb_false_iff. unfold size.
    destruct Hnonempty as [Hl|Hl]; [left|right]; apply N.eqb_neq;
      destruct vToCols, vcols; simpl; done || lia. }
  pose proof (columns_checks_precondition a vToCols b vcols Hne) as Hiff.
  split_and!.
  - intros Hpre. apply reorderColumns_fail; try done.
    destruct (columns_checks a vToCols b vcols); [|done]. destruct Hpre. by apply Hiff.
  - intros Hpre. apply reorderColumns_pass; try done. by apply Hiff.
  - intros Hpre Hwa Hwb Hsep. pose proof Hpre as (Hrows & [HD _] & [HS HvS] & Hlen).
    rewrite reorderColumns_pass by (done || by apply Hiff).
    assert (vec_ok S) as HSok.
    { unfold S, expand, vec_ok. destruct (size vcols =? 0); [|done].
      rewrite size_iota. by eapply wf_cols_size. }
    destruct (column_loop_spec a D b S h) as (h' & Hrun & Hin & Hout); try done.
    exists h'. split_and!; [done| |done].
    intros k i Hk Hi Hlast.
    rewrite (element_cell a h), (element_cell b h); try done; try lia.
    + by apply Hin.
    + apply nth_in_range; [done|]. fold D S in Hlen. lia.
    + by apply nth_in_range.
Qed.
End columns_copy.

(** C1 as stated fails: the index lists [0,1,0] and [0,1,2] have equal
    length and every index is in bounds (the destination has 2 columns, the
    source 3), the row counts agree, yet the call fails on
    [assert(toncols <= a.getCols())] and copies nothing. *)
Lemma reorderColumns_counterexample :
  wf dest22 h23 ∧ wf src23 h23 ∧ separate dest22 src23 ∧
  ¬ columns_claim_as_stated dest22 [0; 1; 0] src23 [0; 1; 2] h23 ∧
  mat.reorderColumnsByVectors dest22 [0; 1; 0] src23 [0; 1; 2] h23
  = (Abort "toncols <= a.getCols()", h23).
Proof.
  split_and!.
  - apply wfb_wf. vm_compute. reflexivity.
  - apply wfb_wf. vm_compute. reflexivity.
  - apply separateb_separate. vm_compute. reflexivity.
  - intros Hclaim. destruct Hclaim as [h' Hrun].
    + reflexivity.
    + reflexivity.
    + apply in_range_forallb. reflexivity.
    + apply in_range_forallb. reflexivity.
    + vm_compute in Hrun. discriminate Hrun.
  - vm_compute. reflexivity.
Qed.

Lemma reorderColumns_spec_witness :
  ∃ h', mat.reorderColumnsByVectors dest22 [1; 0] src23 [2; 0] h23 = (Done tt, h') ∧
        (∀ k i, k < size (expand (getCols dest22) [1; 0]) → i < getRows dest22 →
           (∀ k', k < k' < size (expand (getCols dest22) [1; 0]) →
              nth_ (expand (getCols dest22) [1; 0]) k' ≠ nth_ (expand (getCols dest22) [1; 0]) k) →
           h' !! element dest22 i (nth_ (expand (getCols dest22) [1; 0]) k)
           = h23 !! element src23 i (nth_ (expand (getCols src23) [2; 0]) k)) ∧
        (∀ p, ¬ (∃ i k, i < getRows dest22 ∧ k < size (expand (getCols dest22) [1; 0])
                        ∧ p = cell dest22 i (nth_ (expand (getCols dest22) [1; 0]) k)) →
           h' !! p = h23 !! p).
Proof.
  destruct (reorderColumns_spec dest22 [1; 0] src23 [2; 0] h23) as (_ & _ & Hok).
  - reflexivity.
  - reflexivity.
  - left. discriminate.
  - apply Hok.
    + apply columns_checks_precondition; reflexivity.
    + apply wfb_wf. vm_compute. reflexivity.
    + apply wfb_wf. vm_compute. reflexivity.
    + apply separateb_separate. vm_compute. reflexivity.
Defined.

Lemma Matrix_assign_spec_witness :
  (∃ e, Matrix_assign dest22 src23 h23 = (Abort e, h23)) ∧
  (∃ h', Matrix_assign dest22 view23 h23 = (Done tt, h') ∧
         (∀ i j, i < Matrix_rows dest22 → j < Matrix_cols dest22 →
            h' !! (Matrix_data dest22 + j * Matrix_rows dest22 + i)
            = h23 !! (getData view23 + j * getLd view23 + i)) ∧
         (∀ i j, i < Matrix_rows dest22 → j < Matrix_cols dest22 →
            h' !! element dest22 i j = h' !! element view23 i j) ∧
         untouched_outside dest22 h23 h').
Proof.
  split.
  - apply (Matrix_assign_spec dest22 src23 h23). right. discriminate.
  - apply (Matrix_assign_spec dest22 view23 h23).
    + reflexivity.
    + reflexivity.
    + apply wfb_wf. vm_compute. reflexivity.
    + apply wfb_wf. vm_compute. reflexivity.
    + apply separate_aligned, separateb_separate. vm_compute. reflexivity.
Defined.

Lemma isDiff_iff_witness :
  (∃ b, mat.isDiff dest22 view23 0.5%float h23 = (Done b, h23) ∧
        (b = true ↔
         ∃ i j x y, i < getRows dest22 ∧ j < getCols dest22 ∧
                    h23 !! element dest22 i j = Some x ∧ h23 !! element view23 i j = Some y ∧
                    (0.5 <? abs (x - y))%float = true)) ∧
  mat.isDiff dest22 dest22 0%float h23 = (Done false, h23).
Proof.
  destruct (isDiff_iff dest22 view23 0.5%float h23) as [Hiff Hrefl].
  - apply wfb_wf. vm_compute. reflexivity.
  - split; [|exact Hrefl]. apply Hiff.
    + apply wfb_wf. vm_compute. reflexivity.
    + reflexivity.
    + reflexivity.
Defined.

Lemma elementwise_in_view_only_witness :
  (∃ h', mat.add strided_a strided_b h_strided = (Done tt, h') ∧
         untouched_outside strided_a h_strided h' ∧
         (aligned strided_a strided_b →
          ∀ i j x y, i < getRows strided_a → j < getCols strided_a →
            h_strided !! element strided_a i j = Some x →
            h_strided !! element strided_b i j = Some y →
            h' !! element strided_a i j = Some (x + y)%float)) ∧
  (∃ h', mat.negate strided_a h_strided = (Done tt, h') ∧
         untouched_outside strided_a h_strided h' ∧
         ∀ i j, i < getRows strided_a → j < getCols strided_a →
           h' !! element strided_a i j = (λ x, (- x)%float) <$> h_strided !! element strided_a i j) ∧
  (∃ r, mat.nrminf strided_a h_strided = (Done r, h_strided) ∧
        r = foldl norm_step 0%float (values_colmajor strided_a h_strided) ∧
        elements_colmajor strided_a h_strided = Some <$> values_colmajor strided_a h_strided ∧
        (∀ i j x, i < getRows strided_a → j < getCols strided_a →
           h_strided !! element strided_a i j = Some x → (r <? abs x)%float = false) ∧
        (r = 0%float ∨
         ∃ i j x, i < getRows strided_a ∧ j < getCols strided_a ∧
                  h_strided !! element strided_a i j = Some x ∧ r = abs x)).
Proof.
  destruct (elementwise_in_view_only strided_a strided_b 2%float h_strided)
    as (Hadd & _ & _ & _ & Hneg & Hnorm).
  - apply wfb_wf. vm_compute. reflexivity.
  - split_and!; [|exact Hneg|exact Hnorm].
    apply Hadd.
    + apply wfb_wf. vm_compute. reflexivity.
    + reflexivity.
    + reflexivity.
Defined.

(** * Copying rows *)

Lemma separate_sym `{MatrixConcept Mat1, MatrixConcept Mat2} (m1 : Mat1) (m2 : Mat2) :
  separate m1 m2 → separate m2 m1.
Proof. intros Hsep p Hp2 Hp1. by apply (Hsep p). Qed.

Section row_copy.
Context {Src : Type} {CS : MatrixConcept Src} {Dst : Type} {CD : MatrixConcept Dst}.

(** [row_copy] walks both rows with strides [ld]: row [rd] of [dest]
    receives row [rs] of [src], and nothing else changes. *)
Lemma row_copy_spec (src : Src) (rs : N) (dest : Dst) (rd : N) (h : heap) :
  wf src h → wf dest h → aligned src dest → getCols src = getCols dest →
  rs < getRows src → rd < getRows dest →
  ∃ h', mat.row_copy src rs dest rd h = (Done tt, h') ∧
        (∀ j, j < getCols dest → h' !! cell dest rd j = h !! cell src rs j) ∧
        (∀ p, ¬ (∃ j, j < getCols dest ∧ p = cell dest rd j) → h' !! p = h !! p) ∧
        (∀ q, is_Some (h !! q) → is_Some (h' !! q)).
Proof.
  intros Hws Hwd Hal Hcols Hrs Hrd. unfold mat.row_copy.
  rewrite (bind_done _ _ h tt h).
  2:{ apply assert_true. rewrite !andb_true_iff.
      split_and!; [by apply N.eqb_eq|by apply N.ltb_lt|by apply N.ltb_lt]. }
  pose proof (wf_ld src h Hws) as Hlds. pose proof (wf_ld dest h Hwd) as Hldd.
  pose proof (wf_cols_ld src h Hws) as Hext.
  destruct (while_counted
    (λ k, (getData src + rs + k * getLd src, getData dest + rd + k * getLd dest))
    (getCols src)
    (N.to_nat (getData src + wrap (getCols src * getLd src) - getData src))
    (λ '(p1, p2), p1 <? getData src + wrap (getCols src * getLd src))
    (λ '(p1, p2), v ← load p1; store p2 v;; mret (p1 + getLd src, p2 + getLd dest))
    (λ k h', (∀ j, j < k → h' !! cell dest rd j = h !! cell src rs j) ∧
             (∀ p, ¬ (∃ j, j < k ∧ p = cell dest rd j) → h' !! p = h !! p) ∧
             (∀ q, is_Some (h !! q) → is_Some (h' !! q)))) with (h := h)
    as (h' & Hrun & Hin & Hout & Hdom).
  - rewrite wrap_small by done. nia.
  - intros k Hk. rewrite wrap_small by done. apply N.ltb_lt. nia.
  - rewrite wrap_small by done. apply N.ltb_ge. nia.
  - intros k h0 Hk (Hin & Hout & Hdom).
    replace (getData src + rs + k * getLd src) with (cell src rs k) by (unfold cell; lia).
    replace (getData dest + rd + k * getLd dest) with (cell dest rd k) by (unfold cell; lia).
    destruct (wf_alloc src h Hws rs k Hrs Hk) as [v Hv].
    assert (h0 !! cell src rs k = Some v) as Hv0.
    { rewrite Hout; [done|]. intros (j & Hj & Heq).
      apply Hal in Heq as [_ ->]; lia. }
    assert (is_Some (h0 !! cell dest rd k)) as Hd0
      by (apply Hdom, (wf_alloc dest h Hwd); [done|lia]).
    exists (<[cell dest rd k := v]> h0). split.
    { rewrite (bind_done _ _ _ _ _ (load_done _ _ _ Hv0)).
      rewrite (bind_done _ _ _ _ _ (store_done _ v _ Hd0)).
      unfold mret, M_ret. do 3 f_equal; unfold cell; lia. }
    split_and!.
    + intros j Hj. destruct (decide (j = k)) as [->|Hne].
      * by rewrite lookup_insert_eq.
      * rewrite lookup_insert_ne; [apply Hin; lia|].
        intros Heq. apply cell_inj in Heq as [_ ->]; lia.
    + intros p Hp. rewrite lookup_insert_ne; [apply Hout|].
      * intros (j & Hj & ->). apply Hp. exists j. split; [lia|done].
      * intros <-. apply Hp. exists k. split; [lia|done].
    + intros q Hq. rewrite lookup_insert_is_Some'. right. by apply Hdom.
  - split_and!; [intros j Hj; lia|done|done].
  - simpl in Hrun. rewrite !N.add_0_r in Hrun.
    exists h'. rewrite (bind_done _ _ _ _ _ Hrun). rewrite <- Hcols. done.
Qed.
End row_copy.

(** * reorderRowsByVectors *)

Section rows.
Context {Mat1 : Type} {C1 : MatrixConcept Mat1} {Mu1 : MutableMatrixConcept Mat1}.
Context {Mat2 : Type} {C2 : MatrixConcept Mat2}.

Lemma reorderRows_pass (a : Mat1) (vToRows : vec) (b : Mat2) (vrows : vec) (h : heap) :
  vec_ok vToRows → vec_ok vrows →
  (size vToRows =? 0) && (size vrows =? 0) = false →
  rows_checks a vToRows b vrows = true →
  mat.reorderRowsByVectors a vToRows b vrows h
  = for_ (size (expand (getRows b) vrows))
      (λ i, mat.row_copy b (nth_ (expand (getRows b) vrows) i)
              a (nth_ (expand (getRows a) vToRows) i)) h.
Proof.
  intros Hv1 Hv2 Hne Hchk. unfold rows_checks in Hchk.
  rewrite !andb_true_iff in Hchk. destruct Hchk as [[[[Hcols Hs1] Hs2] Hlen] Hpos].
  unfold mat.reorderRowsByVectors.
  rewrite (bind_done _ _ h tt h) by (by apply assert_true).
  rewrite Hne.
  rewrite (bind_done _ _ _ _ _ (index_vector_accepts _ _ _ _ h Hv1 Hs1)).
  rewrite (bind_done _ _ _ _ _ (index_vector_accepts _ _ _ _ h Hv2 Hs2)).
  rewrite (bind_done _ _ h tt h); [done|].
  apply assert_true. by rewrite Hlen, Hpos.
Qed.

Lemma reorderRows_fail (a : Mat1) (vToRows : vec) (b : Mat2) (vrows : vec) (h : heap) :
  vec_ok vToRows → vec_ok vrows →
  (size vToRows =? 0) && (size vrows =? 0) = false →
  rows_checks a vToRows b vrows = false →
  ∃ e, mat.reorderRowsByVectors a vToRows b vrows h = (Abort e, h).
Proof.
  intros Hv1 Hv2 Hne Hchk. unfold rows_checks in Hchk.
  unfold mat.reorderRowsByVectors.
  destruct (getCols b =? getCols a) eqn:Hcols; simpl in Hchk.
  2:{ eexists. by apply bind_abort, assert_false. }
  rewrite (bind_done _ _ h tt h) by (by apply assert_true).
  rewrite Hne.
  destruct (selection_ok vToRows (getRows a)) eqn:Hs1; simpl in Hchk.
  2:{ destruct (index_vector_refuses vToRows (getRows a) "vToRows[i] < a.getRows()"
                  "tonrows <= a.getRows()" h Hv1 Hs1) as [e He].
      exists e. by apply bind_abort. }
  rewrite (bind_done _ _ _ _ _ (index_vector_accepts _ _ _ _ h Hv1 Hs1)).
  destruct (selection_ok vrows (getRows b)) eqn:Hs2; simpl in Hchk.
  2:{ destruct (index_vector_refuses vrows (getRows b) "vrows[i] < b.getRows()"
                  "nrows <= b.getRows()" h Hv2 Hs2) as [e He].
      exists e. by apply bind_abort. }
  rewrite (bind_done _ _ _ _ _ (index_vector_accepts _ _ _ _ h Hv2 Hs2)).
  eexists. by apply bind_abort, assert_false.
Qed.

Lemma no_abort_row_copy (src : Mat2) (rs : N) (dest : Mat1) (rd : N) (h : heap) :
  getCols src = getCols dest → rs < getRows src → rd < getRows dest →
  no_abort (mat.row_copy src rs dest rd) h.
Proof.
  intros Hcols Hrs Hrd. unfold mat.row_copy.
  apply no_abort_bind.
  { intros e h' Hrun. rewrite assert_true in Hrun; [done|].
    rewrite !andb_true_iff.
    split_and!; [by apply N.eqb_eq|by apply N.ltb_lt|by apply N.ltb_lt]. }
  intros [] h1 _. apply no_abort_bind; [|intros; apply no_abort_ret].
  apply no_abort_while. intros [p1 p2] h2 _.
  apply no_abort_bind; [apply no_abort_load|]. intros v h3 _.
  apply no_abort_bind; [apply no_abort_store|]. intros; apply no_abort_ret.
Qed.

Lemma reorderRows_loop_no_abort (a : Mat1) (vToRows : vec) (b : Mat2) (vrows : vec) (h : heap) :
  rows_checks a vToRows b vrows = true →
  no_abort (for_ (size (expand (getRows b) vrows))
              (λ i, mat.row_copy b (nth_ (expand (getRows b) vrows) i)
                      a (nth_ (expand (getRows a) vToRows) i))) h.
Proof.
  intros Hchk. unfold rows_checks in Hchk.
  rewrite !andb_true_iff in Hchk. destruct Hchk as [[[[Hcols Hs1] Hs2] Hlen] Hpos].
  apply selection_ok_selects in Hs1 as [Hr1 _]. apply selection_ok_selects in Hs2 as [Hr2 _].
  apply N.eqb_eq in Hlen. apply N.eqb_eq in Hcols.
  apply no_abort_for. intros i h0 Hi. apply no_abort_row_copy; [done| |].
  - by apply nth_in_range.
  - apply nth_in_range; [done|]. by rewrite Hlen.
Qed.

Lemma assignByVectors_row_swap (dest : Mat1) (src : Mat2) (h : heap) :
  wf dest h → wf src h → separate dest src →
  getRows dest = 2 → getRows src = 2 → getCols dest = getCols src →
  ∃ h', mat.assignByVectors dest [1; 0] [] src [0; 1] [] h = (Done tt, h') ∧
        (∀ j, j < getCols dest →
           h' !! element dest 1 j = h !! element src 0 j ∧
           h' !! element dest 0 j = h !! element src 1 j) ∧
        untouched_outside dest h h'.
Proof.
  intros Hwd Hws Hsep Hrd Hrs Hcols.
  assert (mat.assignByVectors dest [1; 0] [] src [0; 1] []
          = mat.reorderRowsByVectors dest [1; 0] src [0; 1]) as -> by reflexivity.
  rewrite reorderRows_pass; try reflexivity.
  2:{ unfold rows_checks. rewrite Hrd, Hrs, Hcols, N.eqb_refl. reflexivity. }
  rewrite Hrd, Hrs.
  rewrite for_unroll by reflexivity.
  change (for_list ?body (iota (size (expand 2 [0; 1])))) with (body 0;; body 1;; mret tt).
  change (nth_ (expand 2 [0; 1]) 0) with 0. change (nth_ (expand 2 [0; 1]) 1) with 1.
  change (nth_ (expand 2 [1; 0]) 0) with 1. change (nth_ (expand 2 [1; 0]) 1) with 0.
  assert (aligned src dest) as Hal by (by apply separate_aligned, separate_sym).
  destruct (row_copy_spec src 0 dest 1 h) as (h1 & Hrun1 & Hin1 & Hout1 & Hdom1);
    try done; try lia.
  destruct (row_copy_spec src 1 dest 0 h1) as (h2 & Hrun2 & Hin2 & Hout2 & Hdom2);
    try done; try lia; try (by eapply wf_preserved).
  exists h2. split_and!.
  - rewrite (bind_done _ _ _ _ _ Hrun1), (bind_done _ _ _ _ _ Hrun2). done.
  - intros j Hj. pose proof (wf_ld dest h Hwd).
    rewrite !(element_cell dest h), !(element_cell src h) by (done || lia).
    split.
    + rewrite Hout2; [by apply Hin1|].
      intros (j' & Hj' & Heq). apply cell_inj in Heq as [? _]; lia.
    + rewrite Hin2 by done. apply Hout1.
      intros (j' & Hj' & Heq). apply (Hsep (cell src 1 j)).
      * rewrite Heq. apply in_view_cell; lia.
      * apply in_view_cell; lia.
  - intros p Hp. rewrite Hout2, Hout1; [done| |].
    + intros (j & Hj & ->). apply Hp, in_view_cell; lia.
    + intros (j & Hj & ->). apply Hp, in_view_cell; lia.
Qed.
End rows.

(** C2: [assignByVectors(dest, [1,0], [], src, [0,1], [])] on two-row
    matrices of equal column count writes row 0 of [src] into row 1 of
    [dest] and row 1 of [src] into row 0 of [dest], each element staying in
    its column, and changes nothing outside [dest]; for
    [src = [[1,2],[3,4]]] the destination becomes [[3,4],[1,2]]. *)
Theorem assignByVectors_swaps_rows `{MutableMatrixConcept Mat1} `{MatrixConcept Mat2}
    (dest : Mat1) (src : Mat2) (h : heap) :
  (wf dest h → wf src h → separate dest src →
   getRows dest = 2 → getRows src = 2 → getCols dest = getCols src →
   ∃ h', mat.assignByVectors dest [1; 0] [] src [0; 1] [] h = (Done tt, h') ∧
         (∀ j, j < getCols dest →
            h' !! element dest 1 j = h !! element src 0 j ∧
            h' !! element dest 0 j = h !! element src 1 j) ∧
         untouched_outside dest h h') ∧
  (rows_of src22 h22 = [[Some 1; Some 2]; [Some 3; Some 4]]%float ∧
   ∃ h', mat.assignByVectors dest22 [1; 0] [] src22 [0; 1] [] h22 = (Done tt, h') ∧
         rows_of dest22 h' = [[Some 3; Some 4]; [Some 1; Some 2]]%float).
Proof.
  split.
  - apply assignByVectors_row_swap.
  - split; [vm_compute; reflexivity|].
    eexists. split; vm_compute; reflexivity.
Qed.

Lemma assignByVectors_swaps_rows_witness :
  ∃ h', mat.assignByVectors dest22 [1; 0] [] src22 [0; 1] [] h22 = (Done tt, h') ∧
        (∀ j, j < getCols dest22 →
           h' !! element dest22 1 j = h22 !! element src22 0 j ∧
           h' !! element dest22 0 j = h22 !! element src22 1 j) ∧
        untouched_outside dest22 h22 h'.
Proof.
  apply (assignByVectors_swaps_rows dest22 src22 h22).
  - apply wfb_wf. vm_compute. reflexivity.
  - apply wfb_wf. vm_compute. reflexivity.
  - apply separateb_separate. vm_compute. reflexivity.
  - reflexivity.
  - reflexivity.
  - reflexivity.
Defined.

(** * In-place transpose *)

Section transpose.
Context {Mat : Type} {C : MatrixConcept Mat}.

Lemma in_view_dec (m : Mat) (h : heap) (p : ptr) :
  wf m h → in_view m p ∨ ¬ in_view m p.
Proof.
  intros Hwf. pose proof (wf_ld m h Hwf) as Hld.
  destruct (decide (getLd m = 0)) as [Hz|Hnz].
  { right. intros (i & j & Hi & Hj & _). lia. }
  destruct (decide (getData m ≤ p
                    ∧ (p - getData m) mod getLd m < getRows m
                    ∧ (p - getData m) / getLd m < getCols m)) as [(Hp & Hi & Hj)|Hno].
  - left. exists ((p - getData m) mod getLd m), ((p - getData m) / getLd m).
    split_and!; [done|done|]. unfold cell.
    pose proof (N.div_mod (p - getData m) (getLd m) Hnz). lia.
  - right. intros (i & j & Hi & Hj & ->). apply Hno. unfold cell.
    replace (getData m + i + j * getLd m - getData m) with (i + j * getLd m) by lia.
    rewrite N.Div0.mod_add, N.div_add by done.
    rewrite N.mod_small, N.div_small by lia. lia.
Qed.

Lemma swap_step (m : Mat) (h h0 : heap) (i j : N) :
  wf m h → getRows m = getCols m → i < getRows m → j < i →
  transposing m h i j h0 →
  ∃ h1, mat.swap (element m i j) (element m j i) h0 = (Done tt, h1) ∧
        transposing m h i (j + 1) h1.
Proof.
  intros Hwf Hsq Hi Hj (Hex & Hnex & Hout).
  pose proof (wf_ld m h Hwf) as Hld.
  rewrite !(element_cell m h) by (done || lia).
  destruct (wf_alloc m h Hwf i j) as [x Hx]; [lia|lia|].
  destruct (wf_alloc m h Hwf j i) as [y Hy]; [lia|lia|].
  assert (h0 !! cell m i j = Some x) as Hx0.
  { rewrite Hnex; [done|lia|lia|]. unfold exchanged. lia. }
  assert (h0 !! cell m j i = Some y) as Hy0.
  { rewrite Hnex; [done|lia|lia|]. unfold exchanged. lia. }
  assert (cell m i j ≠ cell m j i) as Hne.
  { intros Heq. apply cell_inj in Heq; lia. }
  exists (<[cell m j i := x]> (<[cell m i j := y]> h0)). split.
  { unfold mat.swap.
    rewrite (bind_done _ _ _ _ _ (load_done _ _ _ Hx0)).
    rewrite (bind_done _ _ _ _ _ (load_done _ _ _ Hy0)).
    rewrite (bind_done _ _ _ _ _ (store_done _ y _ (mk_is_Some _ _ Hx0))).
    apply store_done. rewrite lookup_insert_ne by done. by eexists. }
  split_and!.
  - intros a b Ha Hb Hab.
    destruct (decide (a = i ∧ b = j)) as [[-> ->]|Hn1].
    { rewrite lookup_insert_ne, lookup_insert_eq by done. done. }
    destruct (decide (a = j ∧ b = i)) as [[-> ->]|Hn2].
    { rewrite lookup_insert_eq. done. }
    rewrite !lookup_insert_ne.
    + apply Hex; [done|done|]. unfold exchanged in *. lia.
    + intros Heq. apply cell_inj in Heq; lia.
    + intros Heq. apply cell_inj in Heq; lia.
  - intros a b Ha Hb Hab.
    rewrite !lookup_insert_ne.
    + apply Hnex; [done|done|]. unfold exchanged in *. lia.
    + intros Heq. apply cell_inj in Heq; [|lia|lia]. unfold exchanged in Hab. lia.
    + intros Heq. apply cell_inj in Heq; [|lia|lia]. unfold exchanged in Hab. lia.
  - intros p Hp. rewrite !lookup_insert_ne; [by apply Hout| |].
    + intros <-. apply Hp, in_view_cell; lia.
    + intros <-. apply Hp, in_view_cell; lia.
Qed.

(** [transpose] completes on a square matrix and exchanges [(i,j)] with
    [(j,i)]; nothing outside the matrix changes. *)
Lemma transpose_spec (m : Mat) (h : heap) :
  wf m h → getRows m = getCols m →
  ∃ h', mat.transpose m h = (Done tt, h') ∧
        (∀ i j, i < getRows m → j < getRows m → h' !! cell m i j = h !! cell m j i) ∧
        untouched_outside m h h'.
Proof.
  intros Hwf Hsq. unfold mat.transpose.
  rewrite (bind_done _ _ h tt h) by (by apply assert_true, N.eqb_eq).
  pose proof (wf_rows_size m h Hwf) as Hsize.
  destruct (for_counted (getRows m)
    (λ i, for_ i (λ j, mat.swap (element m i j) (element m j i)))
    (λ i h', transposing m h i 0 h')) with (h := h) as (h' & Hrun & Hex & Hnex & Hout).
  - done.
  - intros i h0 Hi Hinv.
    destruct (for_counted i (λ j, mat.swap (element m i j) (element m j i))
      (λ j h', transposing m h i j h')) with (h := h0) as (h1 & Hrow & Hex & Hnex & Hout).
    + lia.
    + intros j h1 Hj Hinv1. by apply swap_step.
    + done.
    + exists h1. split; [done|]. split_and!; [| |done].
      * intros a b Ha Hb Hab. destruct (decide (a = i ∧ b = i)) as [[-> ->]|Hn].
        -- apply Hnex; [done|done|]. unfold exchanged. lia.
        -- apply Hex; [done|done|]. unfold exchanged in *. lia.
      * intros a b Ha Hb Hab. apply Hnex; [done|done|]. unfold exchanged in *. lia.
  - split_and!; [|done|done]. intros a b Ha Hb Hab. unfold exchanged in Hab. lia.
  - exists h'. split_and!; [done| |done].
    intros i j Hi Hj. apply Hex; [done|done|]. unfold exchanged. lia.
Qed.

(** C7: on a square matrix the in-place transpose applied twice gives
    back the store it started from, so the matrix has exactly its original
    contents. *)
Theorem transpose_twice (m : Mat) (h : heap) :
  wf m h → getRows m = getCols m →
  ∃ h1, mat.transpose m h = (Done tt, h1) ∧
        (∀ i j, i < getRows m → j < getCols m →
           h1 !! element m i j = h !! element m j i) ∧
        (mat.transpose m;; mat.transpose m) h = (Done tt, h).
Proof.
  intros Hwf Hsq.
  destruct (transpose_spec m h Hwf Hsq) as (h1 & Hrun1 & Hin1 & Hout1).
  assert (wf m h1) as Hwf1.
  { eapply wf_preserved; [done|]. intros p Hp.
    destruct (in_view_dec m h p Hwf) as [(i & j & Hi & Hj & ->)|Hno].
    - rewrite Hin1 by lia. apply (wf_alloc m h Hwf); lia.
    - by rewrite Hout1. }
  destruct (transpose_spec m h1 Hwf1 Hsq) as (h2 & Hrun2 & Hin2 & Hout2).
  assert (h2 = h) as ->.
  { apply map_eq. intros p.
    destruct (in_view_dec m h p Hwf) as [(i & j & Hi & Hj & ->)|Hno].
    - rewrite Hin2, Hin1 by lia. done.
    - by rewrite Hout2, Hout1. }
  exists h1. split_and!; [done| |].
  - intros i j Hi Hj. rewrite !(element_cell m h) by (done || lia). apply Hin1; lia.
  - by rewrite (bind_done _ _ _ _ _ Hrun1).
Qed.
End transpose.

Lemma transpose_twice_witness :
  ∃ h1, mat.transpose src22 h22 = (Done tt, h1) ∧
        (∀ i j, i < getRows src22 → j < getCols src22 →
           h1 !! element src22 i j = h22 !! element src22 j i) ∧
        (mat.transpose src22;; mat.transpose src22) h22 = (Done tt, h22).
Proof.
  apply (transpose_twice src22 h22).
  - apply wfb_wf. vm_compute. reflexivity.
  - reflexivity.
Defined.

(** * A read-only view of the 4x4 matrix *)

(** C3 (amended): over [M(i,j) = i + 4j] the view of rows 1..2 and columns
    0..2 (row offset 1, column offset 0, 2 rows, 3 columns) reads back
    1, 2, 5, 6, 9, 10 in column-major order; 1, 5, 9, 2, 6, 10 is its
    row-major enumeration. *)
Theorem const_view_reads_back :
  elements_colmajor M44 h44
  = Some <$> [0; 1; 2; 3; 4; 5; 6; 7; 8; 9; 10; 11; 12; 13; 14; 15]%float ∧
  ∃ view, MatrixConstView_of M44 1 0 2 3 h44 = (Done view, h44) ∧
          elements_colmajor view h44 = Some <$> [1; 2; 5; 6; 9; 10]%float ∧
          elements_rowmajor view h44 = Some <$> [1; 5; 9; 2; 6; 10]%float.
Proof.
  split; [vm_compute; reflexivity|].
  eexists. split_and!; vm_compute; reflexivity.
Qed.

(** C3 as stated fails: in column-major order neither the 2x3 view nor the
    3x2 view at row offset 1 reads back 1, 5, 9, 2, 6, 10. *)
Lemma const_view_counterexample :
  (∃ view, MatrixConstView_of M44 1 0 2 3 h44 = (Done view, h44) ∧
           elements_colmajor view h44 = Some <$> [1; 2; 5; 6; 9; 10]%float ∧
           elements_colmajor view h44 ≠ Some <$> [1; 5; 9; 2; 6; 10]%float) ∧
  (∃ view, MatrixConstView_of M44 1 0 3 2 h44 = (Done view, h44) ∧
           elements_colmajor view h44 = Some <$> [1; 2; 3; 5; 6; 7]%float ∧
           elements_colmajor view h44 ≠ Some <$> [1; 5; 9; 2; 6; 10]%float).
Proof.
  split.
  - eexists. split_and!; [vm_compute; reflexivity..|].
    intros Heq. apply (f_equal starts_1_5) in Heq. vm_compute in Heq. discriminate Heq.
  - eexists. split_and!; [vm_compute; reflexivity..|].
    intros Heq. apply (f_equal starts_1_5) in Heq. vm_compute in Heq. discriminate Heq.
Qed.

(** No view cut inside the 4x4 matrix reads back 1, 5, 9, 2, 6, 10 in
    column-major order: two consecutive elements of a column differ by 1. *)
Lemma no_view_reads_1_5_9 (ro co r c : size_t) (view : MatrixConstView) (h' : heap) :
  ro + r ≤ 4 → co + c ≤ 4 →
  MatrixConstView_of M44 ro co r c h44 = (Done view, h') →
  elements_colmajor view h44 ≠ Some <$> [1; 5; 9; 2; 6; 10]%float.
Proof.
  intros Hr Hc Hview Heq.
  assert (forallb (λ ro, forallb (λ co, forallb (λ r, forallb (λ c,
            match MatrixConstView_of M44 ro co r c h44 with
            | (Done v, _) => negb (starts_1_5 (elements_colmajor v h44))
            | _ => true
            end) (iota 5)) (iota 5)) (iota 5)) (iota 5) = true) as Hall
    by (vm_compute; reflexivity).
  rewrite forallb_forall in Hall.
  specialize (Hall ro ltac:(apply list_elem_of_In, elem_of_iota; lia)).
  rewrite forallb_forall in Hall.
  specialize (Hall co ltac:(apply list_elem_of_In, elem_of_iota; lia)).
  rewrite forallb_forall in Hall.
  specialize (Hall r ltac:(apply list_elem_of_In, elem_of_iota; lia)).
  rewrite forallb_forall in Hall.
  specialize (Hall c ltac:(apply list_elem_of_In, elem_of_iota; lia)).
  rewrite Hview, Heq in Hall. vm_compute in Hall. discriminate Hall.
Qed.

(** * assignByVectors *)

Section assign.
Context {Mat1 : Type} {C1 : MatrixConcept Mat1} {Mu1 : MutableMatrixConcept Mat1}.
Context {Mat2 : Type} {C2 : MatrixConcept Mat2}.

Lemma no_abort_scatter (a : Mat1) (vpToRows vpToCols : vec) (b : Mat2) (vpRows vpCols : vec) h :
  no_abort (scatter a vpToRows vpToCols b vpRows vpCols) h.
Proof.
  unfold scatter. apply no_abort_for. intros i h0 _. apply no_abort_for. intros j h1 _.
  apply no_abort_bind; [apply no_abort_load|]. intros; apply no_abort_store.
Qed.

Lemma assign_general_pass (a : Mat1) (vToRows vToCols : vec) (b : Mat2) (vrows vcols : vec) h :
  vec_ok vToRows → vec_ok vToCols → vec_ok vrows → vec_ok vcols →
  (size vToRows =? 0) && (size vrows =? 0) = false →
  (size vToCols =? 0) && (size vcols =? 0) = false →
  general_checks a vToRows vToCols b vrows vcols = true →
  mat.assignByVectors a vToRows vToCols b vrows vcols h
  = scatter a (expand (getRows a) vToRows) (expand (getCols a) vToCols)
            b (expand (getRows b) vrows) (expand (getCols b) vcols) h.
Proof.
  intros Hv1 Hv2 Hv3 Hv4 Hr Hc Hchk. unfold general_checks in Hchk.
  rewrite !andb_true_iff in Hchk.
  destruct Hchk as [[[[[[Hs1 Hs2] Hs3] Hs4] Hlr] Hlc] Hpos].
  unfold mat.assignByVectors. rewrite Hr, Hc.
  replace ((size vToRows =? 0) && (size vToCols =? 0) && (size vrows =? 0) && (size vcols =? 0))
    with false.
  2:{ symmetry. apply andb_false_iff in Hr as [->| ->]; simpl; [done|].
      by rewrite !andb_false_r. }
  rewrite (bind_done _ _ _ _ _ (index_vector_accepts _ _ _ _ h Hv1 Hs1)).
  rewrite (bind_done _ _ _ _ _ (index_vector_accepts _ _ _ _ h Hv2 Hs2)).
  rewrite (bind_done _ _ _ _ _ (index_vector_accepts _ _ _ _ h Hv3 Hs3)).
  rewrite (bind_done _ _ _ _ _ (index_vector_accepts _ _ _ _ h Hv4 Hs4)).
  rewrite (bind_done _ _ h tt h); [done|].
  apply assert_true. by rewrite Hlr, Hlc, Hpos.
Qed.

Lemma assign_general_fail (a : Mat1) (vToRows vToCols : vec) (b : Mat2) (vrows vcols : vec) h :
  vec_ok vToRows → vec_ok vToCols → vec_ok vrows → vec_ok vcols →
  (size vToRows =? 0) && (size vrows =? 0) = false →
  (size vToCols =? 0) && (size vcols =? 0) = false →
  general_checks a vToRows vToCols b vrows vcols = false →
  ∃ e, mat.assignByVectors a vToRows vToCols b vrows vcols h = (Abort e, h).
Proof.
  intros Hv1 Hv2 Hv3 Hv4 Hr Hc Hchk. unfold general_checks in Hchk.
  unfold mat.assignByVectors. rewrite Hr, Hc.
  replace ((size vToRows =? 0) && (size vToCols =? 0) && (size vrows =? 0) && (size vcols =? 0))
    with false.
  2:{ symmetry. apply andb_false_iff in Hr as [->| ->]; simpl; [done|].
      by rewrite !andb_false_r. }
  destruct (selection_ok vToRows (getRows a)) eqn:Hs1; simpl in Hchk.
  2:{ destruct (index_vector_refuses vToRows (getRows a) "vToRows[i] < a.getRows()"
                  "tonrows <= a.getRows()" h Hv1 Hs1) as [e He].
      exists e. by apply bind_abort. }
  rewrite (bind_done _ _ _ _ _ (index_vector_accepts _ _ _ _ h Hv1 Hs1)).
  destruct (selection_ok vToCols (getCols a)) eqn:Hs2; simpl in Hchk.
  2:{ destruct (index_vector_refuses vToCols (getCols a) "vToCols[i] < a.getCols()"
                  "toncols <= a.getCols()" h Hv2 Hs2) as [e He].
      exists e. by apply bind_abort. }
  rewrite (bind_done _ _ _ _ _ (index_vector_accepts _ _ _ _ h Hv2 Hs2)).
  destruct (selection_ok vrows (getRows b)) eqn:Hs3; simpl in Hchk.
  2:{ destruct (index_vector_refuses vrows (getRows b) "vrows[i] < b.getRows()"
                  "nrows <= b.getRows()" h Hv3 Hs3) as [e He].
      exists e. by apply bind_abort. }
  rewrite (bind_done _ _ _ _ _ (index_vector_accepts _ _ _ _ h Hv3 Hs3)).
  destruct (selection_ok vcols (getCols b)) eqn:Hs4; simpl in Hchk.
  2:{ destruct (index_vector_refuses vcols (getCols b) "vcols[i] < b.getCols()"
                  "ncols <= b.getCols()" h Hv4 Hs4) as [e He].
      exists e. by apply bind_abort. }
  rewrite (bind_done _ _ _ _ _ (index_vector_accepts _ _ _ _ h Hv4 Hs4)).
  eexists. by apply bind_abort, assert_false.
Qed.

(** The assignment operator fails only on its assertion, before any copy. *)
Lemma assign_abort_unchanged (a : Mat1) (b : Mat2) (h h' : heap) (e : string) :
  assign a b h = (Abort e, h') → h' = h.
Proof.
  rewrite assign_copy_columns. unfold copy_columns. intros Hrun.
  apply bind_inv_abort in Hrun as [Hrun|([] & h1 & _ & Hrun)].
  - unfold assert_ in Hrun. destruct (_ && _); by simplify_eq.
  - exfalso. revert Hrun. apply no_abort_for. intros; apply no_abort_memcpy.
Qed.

Lemma assign_mismatch_aborts (a : Mat1) (b : Mat2) (h : heap) :
  getRows a ≠ getRows b ∨ getCols a ≠ getCols b →
  ∃ e, assign a b h = (Abort e, h).
Proof.
  intros Hdims. rewrite assign_copy_columns. unfold copy_columns.
  eexists. apply bind_abort, assert_false, andb_false_iff.
  destruct Hdims; [left|right]; by apply N.eqb_neq.
Qed.
End assign.

(** * Failing calls *)

Lemma selection_ok_in_range v count : selection_ok v count = true → in_range count v.
Proof.
  unfold selection_ok. destruct (N.eqb_spec (size v) 0) as [Hz|Hz]; simpl.
  - intros _. destruct v; [by apply Forall_nil|]. unfold size in Hz. simpl in Hz. lia.
  - rewrite andb_true_iff, in_range_forallb. by intros [? _].
Qed.

Lemma index_violation_refused ct vTo cf v :
  index_violation ct vTo cf v →
  selection_ok vTo ct && selection_ok v cf && (size (expand ct vTo) =? size (expand cf v)) = false.
Proof.
  intros Hviol. apply not_true_iff_false. rewrite !andb_true_iff, N.eqb_eq.
  intros [[Hs1 Hs2] Hlen]. destruct Hviol as [Hv|[Hv|Hv]].
  - by apply Hv, selection_ok_in_range.
  - by apply Hv, selection_ok_in_range.
  - done.
Qed.

Section failing.
Context {Mat1 : Type} {C1 : MatrixConcept Mat1} {Mu1 : MutableMatrixConcept Mat1}.
Context {Mat2 : Type} {C2 : MatrixConcept Mat2}.

Lemma reorderColumns_abort_unchanged (a : Mat1) (vToCols : vec) (b : Mat2) (vcols : vec)
    (h h' : heap) (e : string) :
  vec_ok vToCols → vec_ok vcols →
  mat.reorderColumnsByVectors a vToCols b vcols h = (Abort e, h') → h' = h.
Proof.
  intros Hv1 Hv2 Hrun.
  destruct ((size vToCols =? 0) && (size vcols =? 0)) eqn:Hne.
  - unfold mat.reorderColumnsByVectors in Hrun. rewrite Hne in Hrun.
    apply bind_inv_abort in Hrun as [Hrun|([] & h1 & Hassert & Hrun)].
    + unfold assert_ in Hrun. destruct (_ =? _); by simplify_eq.
    + unfold assert_ in Hassert. destruct (_ =? _); simplify_eq.
      by eapply assign_abort_unchanged.
  - destruct (columns_checks a vToCols b vcols) eqn:Hchk.
    + rewrite reorderColumns_pass in Hrun by done.
      exfalso. revert Hrun. by apply reorderColumns_loop_no_abort.
    + destruct (reorderColumns_fail a vToCols b vcols h Hv1 Hv2 Hne Hchk) as [e0 He0].
      rewrite He0 in Hrun. by simplify_eq.
Qed.

Lemma reorderRows_abort_unchanged (a : Mat1) (vToRows : vec) (b : Mat2) (vrows : vec)
    (h h' : heap) (e : string) :
  vec_ok vToRows → vec_ok vrows →
  mat.reorderRowsByVectors a vToRows b vrows h = (Abort e, h') → h' = h.
Proof.
  intros Hv1 Hv2 Hrun.
  destruct ((size vToRows =? 0) && (size vrows =? 0)) eqn:Hne.
  - unfold mat.reorderRowsByVectors in Hrun. rewrite Hne in Hrun.
    apply bind_inv_abort in Hrun as [Hrun|([] & h1 & Hassert & Hrun)].
    + unfold assert_ in Hrun. destruct (_ =? _); by simplify_eq.
    + unfold assert_ in Hassert. destruct (_ =? _); simplify_eq.
      by eapply assign_abort_unchanged.
  - destruct (rows_checks a vToRows b vrows) eqn:Hchk.
    + rewrite reorderRows_pass in Hrun by done.
      exfalso. revert Hrun. by apply reorderRows_loop_no_abort.
    + destruct (reorderRows_fail a vToRows b vrows h Hv1 Hv2 Hne Hchk) as [e0 He0].
      rewrite He0 in Hrun. by simplify_eq.
Qed.

Lemma assignByVectors_abort_unchanged (a : Mat1) (vToRows vToCols : vec)
    (b : Mat2) (vrows vcols : vec) (h h' : heap) (e : string) :
  vec_ok vToRows → vec_ok vToCols → vec_ok vrows → vec_ok vcols →
  mat.assignByVectors a vToRows vToCols b vrows vcols h = (Abort e, h') → h' = h.
Proof.
  intros Hv1 Hv2 Hv3 Hv4 Hrun.
  destruct ((size vToRows =? 0) && (size vToCols =? 0) && (size vrows =? 0) && (size vcols =? 0))
    eqn:Hall.
  { unfold mat.assignByVectors in Hrun. rewrite Hall in Hrun.
    by eapply assign_abort_unchanged. }
  destruct ((size vToRows =? 0) && (size vrows =? 0)) eqn:Hr.
  { unfold mat.assignByVectors in Hrun. rewrite Hall, Hr in Hrun.
    apply (reorderColumns_abort_unchanged a vToCols b vcols h h' e Hv2 Hv4 Hrun). }
  destruct ((size vToCols =? 0) && (size vcols =? 0)) eqn:Hc.
  { unfold mat.assignByVectors in Hrun. rewrite Hall, Hr, Hc in Hrun.
    apply (reorderRows_abort_unchanged a vToRows b vrows h h' e Hv1 Hv3 Hrun). }
  destruct (general_checks a vToRows vToCols b vrows vcols) eqn:Hchk.
  - rewrite assign_general_pass in Hrun by done.
    exfalso. revert Hrun. apply no_abort_scatter.
  - destruct (assign_general_fail a vToRows vToCols b vrows vcols h) as [e0 He0]; try done.
    rewrite He0 in Hrun. by simplify_eq.
Qed.

(** C9: in [reorderColumnsByVectors], [reorderRowsByVectors] and
    [assignByVectors] every check comes before the first write: a call that
    ends on a failed assertion leaves the whole store, hence the
    destination, as it was. *)
Theorem indexed_assignment_atomic (a : Mat1) (vToRows vToCols : vec)
    (b : Mat2) (vrows vcols : vec) (h h' : heap) (e : string) :
  vec_ok vToRows → vec_ok vToCols → vec_ok vrows → vec_ok vcols →
  (mat.reorderColumnsByVectors a vToCols b vcols h = (Abort e, h') → h' = h) ∧
  (mat.reorderRowsByVectors a vToRows b vrows h = (Abort e, h') → h' = h) ∧
  (mat.assignByVectors a vToRows vToCols b vrows vcols h = (Abort e, h') → h' = h).
Proof.
  intros Hv1 Hv2 Hv3 Hv4. split_and!.
  - by apply reorderColumns_abort_unchanged.
  - by apply reorderRows_abort_unchanged.
  - by apply assignByVectors_abort_unchanged.
Qed.
End failing.

Section violations.
Context {Mat1 : Type} {C1 : MatrixConcept Mat1} {Mu1 : MutableMatrixConcept Mat1}.
Context {Mat2 : Type} {C2 : MatrixConcept Mat2}.

Lemma transpose_not_square (m : Mat1) (h : heap) :
  getRows m ≠ getCols m → ∃ e, mat.transpose m h = (Abort e, h).
Proof.
  intros Hne. eexists. unfold mat.transpose. by apply bind_abort, assert_false, N.eqb_neq.
Qed.

Lemma expand_empty_size (count : size_t) (v : vec) :
  (size v =? 0) = true → size (expand count v) = count.
Proof. intros Hz. unfold expand. rewrite Hz. apply size_iota. Qed.

Lemma reorderColumns_violation (a : Mat1) (vToCols : vec) (b : Mat2) (vcols : vec) (h : heap) :
  vec_ok vToCols → vec_ok vcols →
  getRows b ≠ getRows a ∨ index_violation (getCols a) vToCols (getCols b) vcols →
  ∃ e, mat.reorderColumnsByVectors a vToCols b vcols h = (Abort e, h).
Proof.
  intros Hv1 Hv2 Hviol.
  destruct (N.eqb_spec (getRows b) (getRows a)) as [Hrows|Hrows].
  2:{ eexists. unfold mat.reorderColumnsByVectors. by apply bind_abort, assert_false, N.eqb_neq. }
  destruct Hviol as [?|Hviol]; [done|].
  destruct ((size vToCols =? 0) && (size vcols =? 0)) eqn:Hne.
  - apply andb_true_iff in Hne as [Hz1 Hz2].
    unfold mat.reorderColumnsByVectors.
    rewrite (bind_done _ _ h tt h) by (by apply assert_true, N.eqb_eq).
    rewrite Hz1, Hz2. simpl. apply assign_mismatch_aborts. right.
    destruct Hviol as [Hv|[Hv|Hv]].
    + destruct Hv. destruct vToCols; [by apply Forall_nil|done].
    + destruct Hv. destruct vcols; [by apply Forall_nil|done].
    + by rewrite !expand_empty_size in Hv.
  - apply reorderColumns_fail; try done. unfold columns_checks.
    apply index_violation_refused in Hviol.
    destruct (getRows b =? getRows a); [simpl|done].
    destruct (selection_ok vToCols (getCols a)); [simpl in *|done].
    destruct (selection_ok vcols (getCols b)); [simpl in *|done].
    by rewrite Hviol.
Qed.

Lemma reorderRows_violation (a : Mat1) (vToRows : vec) (b : Mat2) (vrows : vec) (h : heap) :
  vec_ok vToRows → vec_ok vrows →
  getCols b ≠ getCols a ∨ index_violation (getRows a) vToRows (getRows b) vrows →
  ∃ e, mat.reorderRowsByVectors a vToRows b vrows h = (Abort e, h).
Proof.
  intros Hv1 Hv2 Hviol.
  destruct (N.eqb_spec (getCols b) (getCols a)) as [Hcols|Hcols].
  2:{ eexists. unfold mat.reorderRowsByVectors. by apply bind_abort, assert_false, N.eqb_neq. }
  destruct Hviol as [?|Hviol]; [done|].
  destruct ((size vToRows =? 0) && (size vrows =? 0)) eqn:Hne.
  - apply andb_true_iff in Hne as [Hz1 Hz2].
    unfold mat.reorderRowsByVectors.
    rewrite (bind_done _ _ h tt h) by (by apply assert_true, N.eqb_eq).
    rewrite Hz1, Hz2. simpl. apply assign_mismatch_aborts. left.
    destruct Hviol as [Hv|[Hv|Hv]].
    + destruct Hv. destruct vToRows; [by apply Forall_nil|done].
    + destruct Hv. destruct vrows; [by apply Forall_nil|done].
    + by rewrite !expand_empty_size in Hv.
  - apply reorderRows_fail; try done. unfold rows_checks.
    apply index_violation_refused in Hviol.
    destruct (getCols b =? getCols a); [simpl|done].
    destruct (selection_ok vToRows (getRows a)); [simpl in *|done].
    destruct (selection_ok vrows (getRows b)); [simpl in *|done].
    by rewrite Hviol.
Qed.

Lemma assignByVectors_violation (a : Mat1) (vToRows vToCols : vec)
    (b : Mat2) (vrows vcols : vec) (h : heap) :
  vec_ok vToRows → vec_ok vToCols → vec_ok vrows → vec_ok vcols →
  index_violation (getRows a) vToRows (getRows b) vrows
  ∨ index_violation (getCols a) vToCols (getCols b) vcols →
  ∃ e, mat.assignByVectors a vToRows vToCols b vrows vcols h = (Abort e, h).
Proof.
  intros Hv1 Hv2 Hv3 Hv4 Hviol.
  assert (∀ ct vTo cf v, (size vTo =? 0) = true → (size v =? 0) = true →
            index_violation ct vTo cf v → ct ≠ cf) as Hempty.
  { intros ct vTo cf v Hz1 Hz2 [Hv|[Hv|Hv]].
    - destruct Hv. destruct vTo; [by apply Forall_nil|done].
    - destruct Hv. destruct v; [by apply Forall_nil|done].
    - by rewrite !expand_empty_size in Hv. }
  destruct ((size vToRows =? 0) && (size vrows =? 0)) eqn:Hr;
    destruct ((size vToCols =? 0) && (size vcols =? 0)) eqn:Hc.
  - apply andb_true_iff in Hr as [Hz1 Hz3]. apply andb_true_iff in Hc as [Hz2 Hz4].
    unfold mat.assignByVectors. rewrite Hz1, Hz2, Hz3, Hz4. simpl.
    apply assign_mismatch_aborts.
    destruct Hviol as [Hviol|Hviol];
      [left; apply (Hempty _ vToRows _ vrows)|right; apply (Hempty _ vToCols _ vcols)]; done.
  - unfold mat.assignByVectors. rewrite Hr.
    replace ((size vToRows =? 0) && (size vToCols =? 0) && (size vrows =? 0) && (size vcols =? 0))
      with false.
    2:{ symmetry. apply andb_false_iff in Hc as [->| ->]; simpl;
          by rewrite ?andb_false_r. }
    apply reorderColumns_violation; try done.
    destruct Hviol as [Hviol|Hviol]; [left|by right].
    apply andb_true_iff in Hr as [Hz1 Hz3]. symmetry.
    by apply (Hempty _ vToRows _ vrows).
  - unfold mat.assignByVectors. rewrite Hr, Hc.
    replace ((size vToRows =? 0) && (size vToCols =? 0) && (size vrows =? 0) && (size vcols =? 0))
      with false.
    2:{ symmetry. apply andb_false_iff in Hr as [->| ->]; simpl;
          by rewrite ?andb_false_r. }
    apply reorderRows_violation; try done.
    destruct Hviol as [Hviol|Hviol]; [by right|left].
    apply andb_true_iff in Hc as [Hz2 Hz4]. symmetry.
    by apply (Hempty _ vToCols _ vcols).
  - apply assign_general_fail; try done. unfold general_checks.
    destruct Hviol as [Hviol|Hviol]; apply index_violation_refused in Hviol.
    + destruct (selection_ok vToRows (getRows a)); [simpl in *|done].
      destruct (selection_ok vToCols (getCols a)); [simpl in *|done].
      destruct (selection_ok vrows (getRows b)); [simpl in *|done].
      destruct (selection_ok vcols (getCols b)); [simpl in *|done].
      by rewrite Hviol.
    + destruct (selection_ok vToRows (getRows a)); [simpl in *|done].
      destruct (selection_ok vToCols (getCols a)); [simpl in *|done].
      destruct (selection_ok vrows (getRows b)); [simpl in *|done].
      destruct (selection_ok vcols (getCols b)); [simpl in *|done].
      rewrite Hviol. by rewrite andb_false_r.
Qed.

(** C6: a violated precondition ends the call on a failed assertion that
    names the violated condition, and the store is as before the call: so
    for unequal dimensions in an assignment, for a non-square operand of the
    in-place transpose, and for an index out of range or for index lists of
    unequal cardinality in [reorderColumnsByVectors],
    [reorderRowsByVectors] and [assignByVectors].  No call completes with
    an offending index brought into range. *)
Theorem violations_abort (a : Mat1) (vToRows vToCols : vec)
    (b : Mat2) (vrows vcols : vec) (h : heap) :
  vec_ok vToRows → vec_ok vToCols → vec_ok vrows → vec_ok vcols →
  (getRows a ≠ getRows b ∨ getCols a ≠ getCols b → ∃ e, assign a b h = (Abort e, h)) ∧
  (getRows a ≠ getCols a → ∃ e, mat.transpose a h = (Abort e, h)) ∧
  (index_violation (getCols a) vToCols (getCols b) vcols →
   ∃ e, mat.reorderColumnsByVectors a vToCols b vcols h = (Abort e, h)) ∧
  (index_violation (getRows a) vToRows (getRows b) vrows →
   ∃ e, mat.reorderRowsByVectors a vToRows b vrows h = (Abort e, h)) ∧
  (index_violation (getRows a) vToRows (getRows b) vrows
   ∨ index_violation (getCols a) vToCols (getCols b) vcols →
   ∃ e, mat.assignByVectors a vToRows vToCols b vrows vcols h = (Abort e, h)).
Proof.
  intros Hv1 Hv2 Hv3 Hv4. split_and!.
  - apply assign_mismatch_aborts.
  - apply transpose_not_square.
  - intros Hviol. apply reorderColumns_violation; [done|done|by right].
  - intros Hviol. apply reorderRows_violation; [done|done|by right].
  - by apply assignByVectors_violation.
Qed.
End violations.

Lemma violations_abort_witness :
  (∃ e, assign src23 dest22 h23 = (Abort e, h23)) ∧
  (∃ e, mat.transpose src23 h23 = (Abort e, h23)) ∧
  (∃ e, mat.reorderColumnsByVectors src23 [7] dest22 [0] h23 = (Abort e, h23)) ∧
  (∃ e, mat.reorderRowsByVectors src23 [0; 1] dest22 [0] h23 = (Abort e, h23)) ∧
  (∃ e, mat.assignByVectors src23 [0; 1] [7] dest22 [0] [0] h23 = (Abort e, h23)).
Proof.
  destruct (violations_abort src23 [0; 1] [7] dest22 [0] [0] h23)
    as (Hassign & Htranspose & Hcolumns & Hrows & Hboth).
  - reflexivity.
  - reflexivity.
  - reflexivity.
  - reflexivity.
  - split_and!.
    + apply Hassign. right. discriminate.
    + apply Htranspose. discriminate.
    + apply Hcolumns. left. intros Hin. apply in_range_forallb in Hin. discriminate Hin.
    + apply Hrows. right. right. discriminate.
    + apply Hboth. left. right. right. discriminate.
Defined.

Lemma indexed_assignment_atomic_witness :
  (mat.reorderColumnsByVectors dest22 [0; 1; 0] src23 [0; 1; 2] h23).2 = h23 ∧
  (mat.reorderRowsByVectors dest22 [1; 2] src23 [0; 1] h23).2 = h23 ∧
  (mat.assignByVectors dest22 [1; 0] [0; 5] src23 [0; 1] [2; 0] h23).2 = h23.
Proof.
  split_and!.
  - destruct (indexed_assignment_atomic dest22 [1; 2] [0; 1; 0] src23 [0; 1] [0; 1; 2] h23
                (mat.reorderColumnsByVectors dest22 [0; 1; 0] src23 [0; 1; 2] h23).2
                "toncols <= a.getCols()") as (Hcolumns & _ & _); [reflexivity..|].
    apply Hcolumns. vm_compute. reflexivity.
  - destruct (indexed_assignment_atomic dest22 [1; 2] [0; 1; 0] src23 [0; 1] [0; 1; 2] h23
                (mat.reorderRowsByVectors dest22 [1; 2] src23 [0; 1] h23).2
                "b.getCols() == a.getCols()") as (_ & Hrows & _); [reflexivity..|].
    apply Hrows. vm_compute. reflexivity.
  - destruct (indexed_assignment_atomic dest22 [1; 0] [0; 5] src23 [0; 1] [2; 0] h23
                (mat.assignByVectors dest22 [1; 0] [0; 5] src23 [0; 1] [2; 0] h23).2
                "vToCols[i] < a.getCols()") as (_ & _ & Hboth); [reflexivity..|].
    apply Hboth. vm_compute. reflexivity.
Defined.

(** * Examples *)

(** An empty destination list stands for all destination columns. *)
Example reorderColumns_all_destination_columns :
  ∃ h', mat.reorderColumnsByVectors dest22 [] src23 [2; 0] h23 = (Done tt, h') ∧
        rows_of dest22 h' = [[Some 5; Some 1]; [Some 6; Some 2]]%float.
Proof. eexists. split; vm_compute; reflexivity. Qed.

(** The general path gathers and scatters element by element. *)
Example assignByVectors_general :
  ∃ h', mat.assignByVectors dest22 [1; 0] [0; 1] src23 [0; 1] [2; 0] h23 = (Done tt, h') ∧
        rows_of dest22 h' = [[Some 6; Some 2]; [Some 5; Some 1]]%float.
Proof. eexists. split; vm_compute; reflexivity. Qed.

(** With all four lists empty the call is the assignment, which refuses
    unequal dimensions. *)
Example assignByVectors_all_empty :
  mat.assignByVectors dest22 [] [] src23 [] [] h23
  = (Abort "rows == arg.getRows() && cols == arg.getCols()", h23).
Proof. vm_compute. reflexivity. Qed.

(** The sums of the view constructor's assertion are [size_t] sums: a row
    count of [2^64 - 1] at row offset 1 wraps to zero and passes. *)
Example view_bounds_wrap :
  ∃ view, MatrixView_of M44 1 0 (2 ^ 64 - 1) 1 h44 = (Done view, h44) ∧
          getRows view = 2 ^ 64 - 1.
Proof. eexists. split; vm_compute; reflexivity. Qed.

(** [nrminf] passes over a NaN: [fabs(NaN) > nrm] is false. *)
Example nrminf_skips_nan :
  mat.nrminf strided_a (<[0 := nan]> h_strided) = (Done 3%float, <[0 := nan]> h_strided).
Proof. vm_compute. reflexivity. Qed.

(** [isDiff] does not see a NaN: [fabs(NaN - 5) > 0] is false. *)
Example isDiff_nan :
  mat.isDiff strided_a strided_b 0%float (<[0 := nan]> (<[2 := 7%float]> h_strided))
  = (Done false, <[0 := nan]> (<[2 := 7%float]> h_strided)).
Proof. vm_compute. reflexivity. Qed.

(** * Further properties of the matrix layer

    ** Nested copy loops

    The loop nest [for i < n, for j < inner i: dst(i,j) = src(i,j)] over
    locations: when no location is both read and written, each written
    location ends with the source value of the last pair that names it. *)

Lemma copy_nest_spec (n : N) (inner : N → N) (body : N → N → M unit)
    (src dst : N → N → ptr) (h : heap) :
  n < SIZE_MOD → (∀ i, i < n → inner i < SIZE_MOD) →
  (∀ i j, i < n → j < inner i → body i j = (v ← load (src i j); store (dst i j) v)) →
  (∀ i j, i < n → j < inner i → is_Some (h !! src i j)) →
  (∀ i j, i < n → j < inner i → is_Some (h !! dst i j)) →
  (∀ i j i' j', i < n → j < inner i → i' < n → j' < inner i' → src i j ≠ dst i' j') →
  ∃ h', for_ n (λ i, for_ (inner i) (body i)) h = (Done tt, h') ∧
        (∀ i j, i < n → j < inner i →
           (∀ i' j', i' < n → j' < inner i' → precedes i j i' j' → dst i' j' ≠ dst i j) →
           h' !! dst i j = h !! src i j) ∧
        (∀ p, ¬ (∃ i j, i < n ∧ j < inner i ∧ p = dst i j) → h' !! p = h !! p) ∧
        (∀ q, is_Some (h !! q) → is_Some (h' !! q)).
Proof.
  intros Hn Hinner Hbody Hsrc Hdst Hsep.
  set (Inv := λ (a b : N) (h' : heap),
    (∀ i j, i < n → j < inner i → precedes i j a b →
       (∀ i' j', i' < n → j' < inner i' → precedes i j i' j' → precedes i' j' a b →
          dst i' j' ≠ dst i j) →
       h' !! dst i j = h !! src i j) ∧
    (∀ p, ¬ (∃ i j, i < n ∧ j < inner i ∧ precedes i j a b ∧ p = dst i j) → h' !! p = h !! p) ∧
    (∀ q, is_Some (h !! q) → is_Some (h' !! q))).
  destruct (for_counted n (λ i, for_ (inner i) (body i)) (λ a h', Inv a 0 h'))
    with (h := h) as (h' & Hrun & Hin & Hout & Hdom).
  - done.
  - intros a h0 Ha Hinv.
    destruct (for_counted (inner a) (body a) (λ b h', Inv a b h'))
      with (h := h0) as (h1 & Hrow & Hin1 & Hout1 & Hdom1).
    + by apply Hinner.
    + intros b h1 Hb (Hin1 & Hout1 & Hdom1).
      destruct (Hsrc a b Ha Hb) as [v Hv].
      assert (h1 !! src a b = Some v) as Hv1.
      { rewrite Hout1; [done|]. intros (i & j & Hi & Hj & _ & Heq).
        by apply (Hsep a b i j). }
      assert (is_Some (h1 !! dst a b)) as Hd1 by (by apply Hdom1, Hdst).
      exists (<[dst a b := v]> h1). split.
      { rewrite Hbody by done.
        rewrite (bind_done _ _ _ _ _ (load_done _ _ _ Hv1)).
        by apply store_done. }
      split_and!.
      * intros i j Hi Hj Hlt Hlast.
        destruct (decide (i = a ∧ j = b)) as [[-> ->]|Hne].
        -- by rewrite lookup_insert_eq.
        -- rewrite lookup_insert_ne.
           ++ apply Hin1; [done|done|unfold precedes in *; lia|].
              intros i' j' Hi' Hj' Hl1 Hl2. apply Hlast; [done|done|done|].
              unfold precedes in *. lia.
           ++ apply Hlast; [done|done|unfold precedes in *; lia|unfold precedes; lia].
      * intros p Hp. rewrite lookup_insert_ne.
        -- apply Hout1. intros (i & j & Hi & Hj & Hlt & ->). apply Hp.
           exists i, j. split_and!; [done|done|unfold precedes in *; lia|done].
        -- intros <-. apply Hp. exists a, b. split_and!; [done|done|unfold precedes; lia|done].
      * intros q Hq. rewrite lookup_insert_is_Some'. right. by apply Hdom1.
    + done.
    + exists h1. split; [done|]. split_and!.
      * intros i j Hi Hj Hlt Hlast. apply Hin1; [done|done| |].
        { unfold precedes in *. destruct (decide (i = a)) as [->|]; lia. }
        intros i' j' Hi' Hj' Hl1 Hl2. apply Hlast; [done|done|done|].
        unfold precedes in *. lia.
      * intros p Hp. apply Hout1. intros (i & j & Hi & Hj & Hlt & ->). apply Hp.
        exists i, j. split_and!; [done|done|unfold precedes in *; lia|done].
      * done.
  - split_and!; [|done|done]. intros i j Hi Hj Hlt. unfold precedes in Hlt. lia.
  - exists h'. split_and!; [done| | |done].
    + intros i j Hi Hj Hlast. apply Hin; [done|done|unfold precedes; lia|].
      intros i' j' Hi' Hj' Hl1 _. by apply Hlast.
    + intros p Hp. apply Hout. intros (i & j & Hi & Hj & _ & ->). apply Hp. by exists i, j.
Qed.

(** ** Matrix::setAll *)

Lemma Matrix_setAll_run (m : Matrix) (val : double) (h : heap) :
  wf m h →
  ∃ h', setAll m val h = (Done tt, h') ∧
        (∀ i j, i < getRows m → j < getCols m → h' !! cell m i j = Some val) ∧
        untouched_outside m h h'.
Proof.
  intros Hwf. change (setAll m val) with (Matrix_setAll m val). unfold Matrix_setAll.
  pose proof (wf_cols_ld m h Hwf) as Hext. simpl in Hext.
  rewrite wrap_small by lia.
  destruct (fill_n_spec (Matrix_data m) (Matrix_rows m * Matrix_cols m) val h)
    as (h' & Hrun & Hin & Hout).
  - lia.
  - intros k Hk.
    destruct (decide (Matrix_rows m = 0)) as [Hz|Hnz]; [rewrite Hz in Hk; lia|].
    replace (Matrix_data m + k) with (cell m (k mod Matrix_rows m) (k / Matrix_rows m)).
    + apply (wf_alloc m h Hwf); simpl.
      * by apply N.mod_lt.
      * apply N.Div0.div_lt_upper_bound. lia.
    + unfold cell. simpl. pose proof (N.div_mod k (Matrix_rows m) Hnz). lia.
  - exists h'. split_and!; [done| |].
    + intros i j Hi Hj. simpl in *.
      replace (cell m i j) with (Matrix_data m + (i + j * Matrix_rows m))
        by (unfold cell; simpl; lia).
      apply Hin. nia.
    + intros p Hp. apply Hout. intros Hrange. apply Hp.
      destruct (decide (Matrix_rows m = 0)) as [Hz|Hnz]; [rewrite Hz in Hrange; lia|].
      exists ((p - Matrix_data m) mod Matrix_rows m), ((p - Matrix_data m) / Matrix_rows m).
      simpl. split_and!.
      * by apply N.mod_lt.
      * apply N.Div0.div_lt_upper_bound. lia.
      * unfold cell. simpl. pose proof (N.div_mod (p - Matrix_data m) (Matrix_rows m) Hnz). lia.
Qed.


(** X1: [setAll(v)] on an owning [Matrix] is one [fill_n] over [rows*cols]
    doubles: every element reads [v] afterwards and no address outside the
    matrix changes. *)
Theorem Matrix_setAll_spec (m : Matrix) (val : double) (h : heap) :
  wf m h →
  ∃ h', setAll m val h = (Done tt, h') ∧
        (∀ i j, i < getRows m → j < getCols m → h' !! element m i j = Some val) ∧
        untouched_outside m h h'.
Proof.
  intros Hwf. destruct (Matrix_setAll_run m val h Hwf) as (h' & Hrun & Hin & Hout).
  exists h'. split_and!; [done| |done].
  intros i j Hi Hj. rewrite (element_cell m h) by done. by apply Hin.
Qed.

(** ** Assignment into a view *)

Section view_assign.
Context {Src : Type} {CS : MatrixConcept Src}.

(** X2: the templated assignment into a [MatrixView] fails on unequal
    dimensions, the store unchanged; otherwise every element of the view
    receives the source element of the same indices and nothing outside
    the view's elements changes: neither the other elements of its parent
    nor the padding between its columns.  The source is stored apart from
    the view or is the view's own storage ([aligned]). *)
Theorem MatrixView_assign_spec (dest : MatrixView) (src : Src) (h : heap) :
  (getRows dest ≠ getRows src ∨ getCols dest ≠ getCols src →
   ∃ e, MatrixView_assign dest src h = (Abort e, h)) ∧
  (getRows dest = getRows src → getCols dest = getCols src →
   wf dest h → wf src h → aligned dest src →
   ∃ h', MatrixView_assign dest src h = (Done tt, h') ∧
         (∀ i j, i < getRows dest → j < getCols dest →
            h' !! element dest i j = h !! element src i j) ∧
         untouched_outside dest h h').
Proof.
  split.
  - intros Hdims. eexists. unfold MatrixView_assign. apply bind_abort, assert_false.
    apply andb_false_iff. destruct Hdims as [Hne|Hne]; [left|right]; by apply N.eqb_neq.
  - intros Hrows Hcols Hwd Hws Hal.
    destruct (copy_columns_spec dest src h Hwd Hws Hrows Hcols Hal)
      as (h' & Hrun & Hin & Hout & Hdom).
    exists h'. split_and!; [done| |done].
    intros i j Hi Hj.
    rewrite (element_cell dest h), (element_cell src h) by (done || lia).
    by apply Hin.
Qed.
End view_assign.

(** ** The view constructors *)

Section views.
Context {Mat : Type} {C : MatrixConcept Mat}.

Lemma view_cell (arg : Mat) (ro co r c : N) (h : heap) i j :
  wf arg h → co < getCols arg →
  cell {| MatrixView_data := getData arg + ro + wrap (co * getLd arg);
          MatrixView_rows := r; MatrixView_cols := c; MatrixView_ld := getLd arg |} i j
  = cell arg (ro + i) (co + j).
Proof.
  intros Hwf Hco. unfold cell. simpl. rewrite (wf_col_offset arg h co Hwf Hco). lia.
Qed.

Lemma const_view_cell (arg : Mat) (ro co r c : N) (h : heap) i j :
  wf arg h → co < getCols arg →
  cell {| MatrixConstView_data := getData arg + ro + wrap (co * getLd arg);
          MatrixConstView_rows := r; MatrixConstView_cols := c;
          MatrixConstView_ld := getLd arg |} i j
  = cell arg (ro + i) (co + j).
Proof.
  intros Hwf Hco. unfold cell. simpl. rewrite (wf_col_offset arg h co Hwf Hco). lia.
Qed.

Lemma view_checks_pass (arg : Mat) (ro co r c : N) (h : heap) :
  wf arg h → view_bounds arg ro co r c →
  (ro <? getRows arg) && (wrap (ro + r) <=? getRows arg)
  && (co <? getCols arg) && (wrap (co + c) <=? getCols arg) = true.
Proof.
  intros Hwf (Hro & Hr & Hco & Hc).
  pose proof (wf_rows_size arg h Hwf). pose proof (wf_cols_size arg h Hwf).
  rewrite !wrap_small by lia. rewrite !andb_true_iff.
  split_and!; (apply N.ltb_lt || apply N.leb_le); lia.
Qed.

Lemma view_checks_fail (arg : Mat) (ro co r c : N) :
  ro + r < SIZE_MOD → co + c < SIZE_MOD → ¬ view_bounds arg ro co r c →
  (ro <? getRows arg) && (wrap (ro + r) <=? getRows arg)
  && (co <? getCols arg) && (wrap (co + c) <=? getCols arg) = false.
Proof.
  intros Hr Hc Hno. rewrite !wrap_small by done.
  apply not_true_iff_false. intros Hb. apply Hno.
  rewrite !andb_true_iff in Hb. destruct Hb as [[[H1%N.ltb_lt H2%N.leb_le] H3%N.ltb_lt] H4%N.leb_le].
  done.
Qed.

(** Both constructors accept a block inside the argument. *)
Lemma view_accepted (arg : Mat) (ro co r c : size_t) (h : heap) :
  wf arg h → view_bounds arg ro co r c →
  ∃ (v : MatrixView) (cv : MatrixConstView),
    MatrixView_of arg ro co r c h = (Done v, h) ∧
    MatrixConstView_of arg ro co r c h = (Done cv, h) ∧
    wf v h ∧ wf cv h ∧
    getRows v = r ∧ getCols v = c ∧ getRows cv = r ∧ getCols cv = c ∧
    (∀ i j, cell v i j = cell arg (ro + i) (co + j)) ∧
    (∀ i j, cell cv i j = cell arg (ro + i) (co + j)).
Proof.
  intros Hwf Hb. pose proof Hb as (Hro & Hr & Hco & Hc).
  pose proof (view_checks_pass arg _ _ _ _ h Hwf Hb) as Hchk.
  destruct Hwf as [Hld Hlds Hcs Hext Halloc].
  assert (wf arg h) as Hwf by (by split).
  eexists _, _. split_and!.
  - unfold MatrixView_of. rewrite (bind_done _ _ h tt h); [done|]. by apply assert_true.
  - unfold MatrixConstView_of. rewrite (bind_done _ _ h tt h); [done|]. by apply assert_true.
  - split; simpl; try lia.
    + unfold sizeof_double in *. nia.
    + intros i j Hi Hj. rewrite (view_cell arg _ _ _ _ h) by done. apply Halloc; lia.
  - split; simpl; try lia.
    + unfold sizeof_double in *. nia.
    + intros i j Hi Hj. rewrite (const_view_cell arg _ _ _ _ h) by done. apply Halloc; lia.
  - done.
  - done.
  - done.
  - done.
  - intros i j. by apply (view_cell arg _ _ _ _ h).
  - intros i j. by apply (const_view_cell arg _ _ _ _ h).
Qed.

(** X3: the two view constructors accept exactly the blocks that lie
    inside their argument.  For a block with [row_offset < rows],
    [row_offset + rows_arg <= rows] and the same along the columns both
    return a well-formed view all of whose elements are elements of the
    argument, [view(i,j)] being the location of
    [arg(row_offset+i, col_offset+j)].  Any other block whose two sums do
    not wrap is refused by the assertion: so is every view of a matrix
    without rows or columns, and an empty view placed at the end. *)
Theorem view_constructors (arg : Mat) (row_offset col_offset rows cols : size_t) (h : heap) :
  wf arg h →
  (view_bounds arg row_offset col_offset rows cols →
   ∃ (v : MatrixView) (cv : MatrixConstView),
     MatrixView_of arg row_offset col_offset rows cols h = (Done v, h) ∧
     MatrixConstView_of arg row_offset col_offset rows cols h = (Done cv, h) ∧
     wf v h ∧ wf cv h ∧
     (∀ p, in_view v p → in_view arg p) ∧
     (∀ p, in_view cv p → in_view arg p) ∧
     (∀ i j, i < rows → j < cols →
        element v i j = element arg (row_offset + i) (col_offset + j) ∧
        element cv i j = element arg (row_offset + i) (col_offset + j))) ∧
  (row_offset + rows < SIZE_MOD → col_offset + cols < SIZE_MOD →
   ¬ view_bounds arg row_offset col_offset rows cols →
   ∃ e, MatrixView_of arg row_offset col_offset rows cols h = (Abort e, h) ∧
        MatrixConstView_of arg row_offset col_offset rows cols h = (Abort e, h)).
Proof.
  intros Hwf. split.
  - intros Hb. pose proof Hb as (Hro & Hr & Hco & Hc).
    destruct (view_accepted arg row_offset col_offset rows cols h Hwf Hb)
      as (v & cv & Hv & Hcv & Hwv & Hwcv & Hvr & Hvc & Hcr & Hcc & Hcell & Hccell).
    exists v, cv. split_and!; try done.
    + intros p (i & j & Hi & Hj & ->). rewrite Hcell. apply in_view_cell; lia.
    + intros p (i & j & Hi & Hj & ->). rewrite Hccell. apply in_view_cell; lia.
    + intros i j Hi Hj.
      rewrite (element_cell v h), (element_cell cv h), (element_cell arg h) by (done || lia).
      by rewrite Hcell, Hccell.
  - intros Hr Hc Hno. pose proof (view_checks_fail arg _ _ _ _ Hr Hc Hno) as Hchk.
    eexists. split.
    + unfold MatrixView_of. by apply bind_abort, assert_false.
    + unfold MatrixConstView_of. by apply bind_abort, assert_false.
Qed.

(** X4: a view cut from a view is the view cut from the parent at the
    summed offsets: the two constructions return the same pointer,
    dimensions and leading dimension. *)
Theorem view_of_view (arg : Mat) (ro1 co1 r1 c1 ro2 co2 r2 c2 : size_t) (h : heap) :
  wf arg h → view_bounds arg ro1 co1 r1 c1 →
  ro2 < r1 → ro2 + r2 ≤ r1 → co2 < c1 → co2 + c2 ≤ c1 →
  ∃ v1 v2 : MatrixView,
    MatrixView_of arg ro1 co1 r1 c1 h = (Done v1, h) ∧
    MatrixView_of v1 ro2 co2 r2 c2 h = (Done v2, h) ∧
    MatrixView_of arg (ro1 + ro2) (co1 + co2) r2 c2 h = (Done v2, h).
Proof.
  intros Hwf Hb1 Hro2 Hr2 Hco2 Hc2. pose proof Hb1 as (Hro & Hr & Hco & Hc).
  pose proof (view_checks_pass arg _ _ _ _ h Hwf Hb1) as Hchk1.
  assert (view_bounds arg (ro1 + ro2) (co1 + co2) r2 c2) as Hb3
    by (unfold view_bounds; lia).
  pose proof (view_checks_pass arg _ _ _ _ h Hwf Hb3) as Hchk3.
  pose proof (wf_rows_size arg h Hwf). pose proof (wf_cols_size arg h Hwf).
  pose proof (wf_cols_ld arg h Hwf) as Hext.
  eexists _, _. split_and!.
  - unfold MatrixView_of. rewrite (bind_done _ _ h tt h); [done|]. by apply assert_true.
  - unfold MatrixView_of. simpl. rewrite (bind_done _ _ h tt h); [done|].
    apply assert_true. rewrite !wrap_small by lia. rewrite !andb_true_iff.
    split_and!; (apply N.ltb_lt || apply N.leb_le); lia.
  - unfold MatrixView_of. rewrite (bind_done _ _ h tt h) by (by apply assert_true).
    unfold mret, M_ret. do 2 f_equal. simpl.
    f_equal. rewrite !wrap_small by nia. lia.
Qed.
End views.


(** ** col_copy, row_copy, col_set *)

Section columns_and_rows.
Context {Src : Type} {CS : MatrixConcept Src} {Dst : Type} {CD : MatrixConcept Dst}.

(** X5: [col_copy(src, col_src, dest, col_dest)] fails, the store
    unchanged, when the row counts differ or a column index is out of
    range; otherwise column [col_dest] of [dest] receives column [col_src]
    of [src] and nothing else changes.  [memcpy] asks for blocks that do
    not partly overlap, which [aligned] provides; the two matrices may be
    one matrix, a column being copied onto another column of it. *)
Theorem col_copy_spec (src : Src) (col_src : size_t) (dest : Dst) (col_dest : size_t) (h : heap) :
  (getRows src ≠ getRows dest ∨ getCols src ≤ col_src ∨ getCols dest ≤ col_dest →
   ∃ e, mat.col_copy src col_src dest col_dest h = (Abort e, h)) ∧
  (getRows src = getRows dest → col_src < getCols src → col_dest < getCols dest →
   wf src h → wf dest h → aligned src dest →
   ∃ h', mat.col_copy src col_src dest col_dest h = (Done tt, h') ∧
         (∀ i, i < getRows dest → h' !! element dest i col_dest = h !! element src i col_src) ∧
         (∀ p, ¬ (∃ i, i < getRows dest ∧ p = cell dest i col_dest) → h' !! p = h !! p)).
Proof.
  split.
  - intros Hbad. eexists. unfold mat.col_copy. apply bind_abort, assert_false.
    rewrite !andb_false_iff. destruct Hbad as [Hne|[Hge|Hge]].
    + left. left. by apply N.eqb_neq.
    + left. right. by apply N.ltb_ge.
    + right. by apply N.ltb_ge.
  - intros Hrows Hcs Hcd Hws Hwd _.
    destruct (copy_column_spec src col_src dest col_dest h)
      as (h' & Hrun & Hin & Hout & _); try done.
    exists h'. split_and!; [| |done].
    + unfold mat.col_copy. rewrite (bind_done _ _ h tt h); [done|].
      apply assert_true. rewrite !andb_true_iff.
      split_and!; [by apply N.eqb_eq|by apply N.ltb_lt|by apply N.ltb_lt].
    + intros i Hi. rewrite (element_cell dest h), (element_cell src h) by (done || lia).
      by apply Hin.
Qed.





(** X7: [row_copy(src, row_src, dest, row_dest)] fails, the store
    unchanged, when the column counts differ or a row index is out of
    range; otherwise row [row_dest] of [dest] receives row [row_src] of
    [src], each matrix walked with its own leading dimension, and nothing
    else changes. *)
Theorem row_copy_contract (src : Src) (row_src : size_t) (dest : Dst) (row_dest : size_t) (h : heap) :
  (getCols src ≠ getCols dest ∨ getRows src ≤ row_src ∨ getRows dest ≤ row_dest →
   ∃ e, mat.row_copy src row_src dest row_dest h = (Abort e, h)) ∧
  (getCols src = getCols dest → row_src < getRows src → row_dest < getRows dest →
   wf src h → wf dest h → aligned src dest →
   ∃ h', mat.row_copy src row_src dest row_dest h = (Done tt, h') ∧
         (∀ j, j < getCols dest → h' !! element dest row_dest j = h !! element src row_src j) ∧
         (∀ p, ¬ (∃ j, j < getCols dest ∧ p = cell dest row_dest j) → h' !! p = h !! p)).
Proof.
  split.
  - intros Hbad. eexists. unfold mat.row_copy. apply bind_abort, assert_false.
    rewrite !andb_false_iff. destruct Hbad as [Hne|[Hge|Hge]].
    + left. left. by apply N.eqb_neq.
    + left. right. by apply N.ltb_ge.
    + right. by apply N.ltb_ge.
  - intros Hcols Hrs Hrd Hws Hwd Hal.
    destruct (row_copy_spec src row_src dest row_dest h)
      as (h' & Hrun & Hin & Hout & _); try done.
    exists h'. split_and!; [done| |done].
    intros j Hj. rewrite (element_cell dest h), (element_cell src h) by (done || lia).
    by apply Hin.
Qed.
End columns_and_rows.

Section col_set.
Context {Mat : Type} {C : MatrixConcept Mat}.

End col_set.


(** ** The triangles *)

Section triangles.
Context {Mat : Type} {C : MatrixConcept Mat}.

Lemma copy_upper_to_lower_run (m : Mat) (h : heap) :
  wf m h →
  ∃ h', mat.copy_upper_to_lower m h = (Done tt, h') ∧
        (∀ i j, j < i → i < N.min (getCols m) (getRows m) →
           h' !! cell m i j = h !! cell m j i) ∧
        (∀ p, ¬ (∃ i j, j < i ∧ i < N.min (getCols m) (getRows m) ∧ p = cell m i j) →
           h' !! p = h !! p) ∧
        (∀ q, is_Some (h !! q) → is_Some (h' !! q)).
Proof.
  intros Hwf. unfold mat.copy_upper_to_lower.
  pose proof (wf_ld m h Hwf) as Hld. pose proof (wf_rows_size m h Hwf) as Hsize.
  destruct (copy_nest_spec (N.min (getCols m) (getRows m)) (λ i, i)
    (λ i j, v ← load (element m j i); store (element m i j) v)
    (λ i j, cell m j i) (λ i j, cell m i j) h) as (h' & Hrun & Hin & Hout & Hdom).
  - lia.
  - intros i Hi. lia.
  - intros i j Hi Hj. rewrite !(element_cell m h) by (done || lia). done.
  - intros i j Hi Hj. apply (wf_alloc m h Hwf); lia.
  - intros i j Hi Hj. apply (wf_alloc m h Hwf); lia.
  - intros i j i' j' Hi Hj Hi' Hj' Heq. apply cell_inj in Heq; lia.
  - exists h'. split_and!; [done| | |done].
    + intros i j Hj Hi. apply Hin; [done|done|].
      intros i' j' Hi' Hj' Hl Heq. apply cell_inj in Heq as [-> ->]; [|lia|lia].
      unfold precedes in Hl. lia.
    + intros p Hp. apply Hout. intros (i & j & Hi & Hj & ->). apply Hp. by exists i, j.
Qed.

Lemma copy_lower_to_upper_run (m : Mat) (h : heap) :
  wf m h →
  ∃ h', mat.copy_lower_to_upper m h = (Done tt, h') ∧
        (∀ i j, j < i → i < N.min (getCols m) (getRows m) →
           h' !! cell m j i = h !! cell m i j) ∧
        (∀ p, ¬ (∃ i j, j < i ∧ i < N.min (getCols m) (getRows m) ∧ p = cell m j i) →
           h' !! p = h !! p) ∧
        (∀ q, is_Some (h !! q) → is_Some (h' !! q)).
Proof.
  intros Hwf. unfold mat.copy_lower_to_upper.
  pose proof (wf_ld m h Hwf) as Hld. pose proof (wf_rows_size m h Hwf) as Hsize.
  destruct (copy_nest_spec (N.min (getCols m) (getRows m)) (λ i, i)
    (λ i j, v ← load (element m i j); store (element m j i) v)
    (λ i j, cell m i j) (λ i j, cell m j i) h) as (h' & Hrun & Hin & Hout & Hdom).
  - lia.
  - intros i Hi. lia.
  - intros i j Hi Hj. rewrite !(element_cell m h) by (done || lia). done.
  - intros i j Hi Hj. apply (wf_alloc m h Hwf); lia.
  - intros i j Hi Hj. apply (wf_alloc m h Hwf); lia.
  - intros i j i' j' Hi Hj Hi' Hj' Heq. apply cell_inj in Heq; lia.
  - exists h'. split_and!; [done| | |done].
    + intros i j Hj Hi. apply Hin; [done|done|].
      intros i' j' Hi' Hj' Hl Heq. apply cell_inj in Heq as [-> ->]; [|lia|lia].
      unfold precedes in Hl. lia.
    + intros p Hp. apply Hout. intros (i & j & Hi & Hj & ->). apply Hp. by exists i, j.
Qed.

(** X9: [copy_upper_to_lower] writes, for [j < i < min(rows, cols)], the
    element [(j,i)] above the diagonal to [(i,j)] under it.  Nothing else
    changes: the diagonal, the upper triangle, the rows or columns beyond
    the leading square block of a rectangular matrix, the rest of the
    store.  The leading block is symmetric_matrix afterwards. *)
Theorem copy_upper_to_lower_spec (m : Mat) (h : heap) :
  wf m h →
  ∃ h', mat.copy_upper_to_lower m h = (Done tt, h') ∧
        (∀ i j, j < i → i < N.min (getCols m) (getRows m) →
           h' !! element m i j = h !! element m j i) ∧
        (∀ p, ¬ (∃ i j, j < i ∧ i < N.min (getCols m) (getRows m) ∧ p = cell m i j) →
           h' !! p = h !! p) ∧
        symmetric_matrix m h'.
Proof.
  intros Hwf. pose proof (wf_ld m h Hwf) as Hld.
  destruct (copy_upper_to_lower_run m h Hwf) as (h' & Hrun & Hin & Hout & _).
  assert (∀ i j, j < i → i < N.min (getCols m) (getRows m) →
            h' !! cell m i j = h' !! cell m j i) as Hsym.
  { intros i j Hj Hi. rewrite Hin by done. symmetry. apply Hout.
    intros (i' & j' & Hj' & Hi' & Heq). apply cell_inj in Heq; lia. }
  exists h'. split_and!; [done| |done|].
  - intros i j Hj Hi. rewrite !(element_cell m h) by (done || lia). by apply Hin.
  - intros i j Hi Hj. rewrite !(element_cell m h) by (done || lia).
    destruct (N.lt_trichotomy i j) as [Hlt|[->|Hgt]]; [|done|].
    + symmetry. by apply Hsym.
    + by apply Hsym.
Qed.

(** X10: [copy_lower_to_upper] writes, for [j < i < min(rows, cols)], the
    element [(i,j)] under the diagonal to [(j,i)] above it, changes nothing
    else, and leaves the leading square block symmetric_matrix. *)
Theorem copy_lower_to_upper_spec (m : Mat) (h : heap) :
  wf m h →
  ∃ h', mat.copy_lower_to_upper m h = (Done tt, h') ∧
        (∀ i j, j < i → i < N.min (getCols m) (getRows m) →
           h' !! element m j i = h !! element m i j) ∧
        (∀ p, ¬ (∃ i j, j < i ∧ i < N.min (getCols m) (getRows m) ∧ p = cell m j i) →
           h' !! p = h !! p) ∧
        symmetric_matrix m h'.
Proof.
  intros Hwf. pose proof (wf_ld m h Hwf) as Hld.
  destruct (copy_lower_to_upper_run m h Hwf) as (h' & Hrun & Hin & Hout & _).
  assert (∀ i j, j < i → i < N.min (getCols m) (getRows m) →
            h' !! cell m j i = h' !! cell m i j) as Hsym.
  { intros i j Hj Hi. rewrite Hin by done. symmetry. apply Hout.
    intros (i' & j' & Hj' & Hi' & Heq). apply cell_inj in Heq; lia. }
  exists h'. split_and!; [done| |done|].
  - intros i j Hj Hi. rewrite !(element_cell m h) by (done || lia). by apply Hin.
  - intros i j Hi Hj. rewrite !(element_cell m h) by (done || lia).
    destruct (N.lt_trichotomy i j) as [Hlt|[->|Hgt]]; [|done|].
    + by apply Hsym.
    + symmetry. by apply Hsym.
Qed.

(** X11: after [copy_upper_to_lower] a square matrix is a fixed point of
    the in-place [transpose]: transposing it leaves the whole store as it
    is. *)
Theorem symmetrized_transpose_fixed (m : Mat) (h : heap) :
  wf m h → getRows m = getCols m →
  ∃ h1, mat.copy_upper_to_lower m h = (Done tt, h1) ∧
        (mat.copy_upper_to_lower m;; mat.transpose m) h = (Done tt, h1).
Proof.
  intros Hwf Hsq. pose proof (wf_ld m h Hwf) as Hld.
  destruct (copy_upper_to_lower_run m h Hwf) as (h1 & Hrun & Hin & Hout & Hdom).
  assert (wf m h1) as Hwf1 by (by eapply wf_preserved).
  destruct (transpose_spec m h1 Hwf1 Hsq) as (h2 & Hrun2 & Hin2 & Hout2).
  assert (∀ i j, j < i → i < getRows m → h1 !! cell m i j = h1 !! cell m j i) as Hsym.
  { intros i j Hj Hi. rewrite Hin by lia. symmetry. apply Hout.
    intros (i' & j' & Hj' & Hi' & Heq). apply cell_inj in Heq; lia. }
  assert (h2 = h1) as ->.
  { apply map_eq. intros p.
    destruct (in_view_dec m h p Hwf) as [(i & j & Hi & Hj & ->)|Hno].
    - rewrite Hin2 by lia.
      destruct (N.lt_trichotomy i j) as [Hlt|[->|Hgt]]; [|done|].
      + apply Hsym; lia.
      + symmetry. apply Hsym; lia.
    - by apply Hout2. }
  exists h1. split; [done|]. by rewrite (bind_done _ _ _ _ _ Hrun).
Qed.
End triangles.

(** ** transpose(M1, M2) *)

Section transpose_of.
Context {Mat1 : Type} {C1 : MatrixConcept Mat1} {Mat2 : Type} {C2 : MatrixConcept Mat2}.

Lemma transpose_of_run (m1 : Mat1) (m2 : Mat2) (h : heap) :
  wf m1 h → wf m2 h → separate m1 m2 →
  getRows m1 = getCols m2 → getCols m1 = getRows m2 →
  ∃ h', mat.transpose_of m1 m2 h = (Done tt, h') ∧
        (∀ i j, i < getRows m1 → j < getCols m1 → h' !! cell m1 i j = h !! cell m2 j i) ∧
        untouched_outside m1 h h' ∧
        (∀ q, is_Some (h !! q) → is_Some (h' !! q)).
Proof.
  intros Hw1 Hw2 Hsep Hrows Hcols. unfold mat.transpose_of.
  rewrite (bind_done _ _ h tt h).
  2:{ apply assert_true. rewrite andb_true_iff. split; by apply N.eqb_eq. }
  pose proof (wf_ld m1 h Hw1) as Hld.
  destruct (copy_nest_spec (getRows m1) (λ _, getCols m1)
    (λ i j, v ← load (element m2 j i); store (element m1 i j) v)
    (λ i j, cell m2 j i) (λ i j, cell m1 i j) h) as (h' & Hrun & Hin & Hout & Hdom).
  - by eapply wf_rows_size.
  - intros i Hi. by eapply wf_cols_size.
  - intros i j Hi Hj. rewrite (element_cell m2 h), (element_cell m1 h) by (done || lia). done.
  - intros i j Hi Hj. apply (wf_alloc m2 h Hw2); lia.
  - intros i j Hi Hj. by apply (wf_alloc m1 h Hw1).
  - intros i j i' j' Hi Hj Hi' Hj' Heq. apply (Hsep (cell m2 j i)).
    + rewrite Heq. by apply in_view_cell.
    + apply in_view_cell; lia.
  - exists h'. split_and!; [done| | |done].
    + intros i j Hi Hj. apply Hin; [done|done|].
      intros i' j' Hi' Hj' Hl Heq. apply cell_inj in Heq as [-> ->]; [|lia|lia].
      unfold precedes in Hl. lia.
    + intros p Hp. apply Hout. intros (i & j & Hi & Hj & ->). apply Hp. by exists i, j.
Qed.

(** X12: [transpose(M1, M2)] fails, the store unchanged, unless [M1] has
    the dimensions of the transpose of [M2]; otherwise, for [M1] stored
    apart from [M2], [M1(i,j)] receives [M2(j,i)] for every element, also
    for rectangular matrices, and nothing outside [M1] changes. *)
Theorem transpose_of_spec (m1 : Mat1) (m2 : Mat2) (h : heap) :
  (getRows m1 ≠ getCols m2 ∨ getCols m1 ≠ getRows m2 →
   ∃ e, mat.transpose_of m1 m2 h = (Abort e, h)) ∧
  (getRows m1 = getCols m2 → getCols m1 = getRows m2 →
   wf m1 h → wf m2 h → separate m1 m2 →
   ∃ h', mat.transpose_of m1 m2 h = (Done tt, h') ∧
         (∀ i j, i < getRows m1 → j < getCols m1 →
            h' !! element m1 i j = h !! element m2 j i) ∧
         untouched_outside m1 h h').
Proof.
  split.
  - intros Hdims. eexists. unfold mat.transpose_of. apply bind_abort, assert_false.
    apply andb_false_iff. destruct Hdims as [Hne|Hne]; [left|right]; by apply N.eqb_neq.
  - intros Hrows Hcols Hw1 Hw2 Hsep.
    destruct (transpose_of_run m1 m2 h) as (h' & Hrun & Hin & Hout & _); try done.
    exists h'. split_and!; [done| |done].
    intros i j Hi Hj. rewrite (element_cell m1 h), (element_cell m2 h) by (done || lia).
    by apply Hin.
Qed.
End transpose_of.

(** X13: transposing [M2] into [M1] and [M1] back into [M2] writes to
    [M2] the values it already holds: the second call leaves the store as
    the first call left it. *)
Theorem transpose_of_round_trip `{MatrixConcept Mat1, MatrixConcept Mat2}
    (m1 : Mat1) (m2 : Mat2) (h : heap) :
  wf m1 h → wf m2 h → separate m1 m2 →
  getRows m1 = getCols m2 → getCols m1 = getRows m2 →
  ∃ h1, mat.transpose_of m1 m2 h = (Done tt, h1) ∧
        (mat.transpose_of m1 m2;; mat.transpose_of m2 m1) h = (Done tt, h1).
Proof.
  intros Hw1 Hw2 Hsep Hrows Hcols.
  destruct (transpose_of_run m1 m2 h) as (h1 & Hrun1 & Hin1 & Hout1 & Hdom1); try done.
  destruct (transpose_of_run m2 m1 h1) as (h2 & Hrun2 & Hin2 & Hout2 & Hdom2);
    try done; try (by eapply wf_preserved); try (by apply separate_sym).
  assert (h2 = h1) as ->.
  { apply map_eq. intros p.
    destruct (in_view_dec m2 h p Hw2) as [(i & j & Hi & Hj & ->)|Hno].
    - rewrite Hin2, Hin1 by lia. symmetry. apply Hout1.
      intros Hv. apply (Hsep (cell m2 i j)); [done|by apply in_view_cell].
    - by apply Hout2. }
  exists h1. split; [done|]. by rewrite (bind_done _ _ _ _ _ Hrun1).
Qed.

(** ** set_identity *)

Lemma set_identity_run `{MutableMatrixConcept Mat} (m : Mat) (h : heap) :
  wf m h →
  (∃ h0, setAll m 0%float h = (Done tt, h0) ∧
         (∀ i j, i < getRows m → j < getCols m → h0 !! cell m i j = Some 0%float) ∧
         untouched_outside m h h0) →
  ∃ h', mat.set_identity m h = (Done tt, h') ∧ is_identity m h' ∧ untouched_outside m h h'.
Proof.
  intros Hwf (h0 & Hset & Hzero & Hout0). unfold mat.set_identity.
  rewrite (bind_done _ _ _ _ _ Hset).
  pose proof (wf_ld m h Hwf) as Hld. pose proof (wf_rows_size m h Hwf) as Hsize.
  destruct (for_counted (N.min (getCols m) (getRows m))
    (λ i, store (element m i i) 1%float)
    (λ k h', (∀ i j, i < getRows m → j < getCols m →
                h' !! cell m i j = Some (if (i =? j) && (i <? k) then 1%float else 0%float)) ∧
             untouched_outside m h h')) with (h := h0) as (h' & Hrun & Hin & Hout).
  - lia.
  - intros k h1 Hk [Hin Hout]. rewrite (element_cell m h) by (done || lia).
    exists (<[cell m k k := 1%float]> h1). split.
    { apply store_done. rewrite Hin by lia. by eexists. }
    split.
    + intros i j Hi Hj. destruct (decide (i = k ∧ j = k)) as [[-> ->]|Hne].
      * rewrite lookup_insert_eq, N.eqb_refl.
        replace (k <? k + 1) with true by (symmetry; apply N.ltb_lt; lia). done.
      * rewrite lookup_insert_ne.
        2:{ intros Heq. apply cell_inj in Heq; lia. }
        rewrite Hin by done. do 2 f_equal.
        destruct (N.eqb_spec i j) as [->|Hij]; [|done]. simpl.
        destruct (N.ltb_spec j k), (N.ltb_spec j (k + 1)); try done; lia.
    + intros p Hp. rewrite lookup_insert_ne; [by apply Hout|].
      intros <-. apply Hp, in_view_cell; lia.
  - split; [|done]. intros i j Hi Hj. rewrite Hzero by done.
    replace (i <? 0) with false by (symmetry; apply N.ltb_ge; lia).
    by rewrite andb_false_r.
  - exists h'. split_and!; [done| |done].
    intros i j Hi Hj. rewrite (element_cell m h) by done. rewrite Hin by done.
    do 2 f_equal. destruct (N.eqb_spec i j) as [->|Hij]; [|done]. simpl.
    replace (j <? N.min (getCols m) (getRows m)) with true; [done|].
    symmetry. apply N.ltb_lt. lia.
Qed.

(** X14: [set_identity] on a [Matrix] or a [MatrixView], square or not,
    leaves [1.0] on the elements [(i,i)] and [0.0] on all others, and
    changes nothing outside the matrix. *)
Theorem set_identity_spec :
  (∀ (m : Matrix) (h : heap), wf m h →
     ∃ h', mat.set_identity m h = (Done tt, h') ∧ is_identity m h' ∧ untouched_outside m h h') ∧
  (∀ (m : MatrixView) (h : heap), wf m h →
     ∃ h', mat.set_identity m h = (Done tt, h') ∧ is_identity m h' ∧ untouched_outside m h h').
Proof.
  split; intros m h Hwf; apply set_identity_run; try done.
  - apply Matrix_setAll_run. done.
  - apply MatrixView_setAll_spec. done.
Qed.


(** ** Signs and NaN *)

Lemma float_opp_involutive (x : double) : (- - x)%float = x.
Proof.
  apply Prim2SF_inj. rewrite !opp_spec.
  destruct (Prim2SF x) as [s|s| |s m e]; simpl; try done; by rewrite negb_involutive.
Qed.

Lemma float_abs_opp (x : double) : abs (- x) = abs x.
Proof. apply Prim2SF_inj. rewrite !abs_spec, opp_spec. by destruct (Prim2SF x). Qed.

Lemma SFcompare_refl x : x ≠ S754_nan → SFcompare x x = Some Eq.
Proof.
  intros Hx. destruct x as [s|s| |s m e]; simpl; try done.
  - by destruct s.
  - rewrite Z.compare_refl.
    change (PosDef.Pos.compare_cont Eq m m) with (Pos.compare m m).
    rewrite Pos.compare_refl. by destruct s.
Qed.

Lemma float_ltb_not_nan (a b : double) : (a <? b)%float = true → is_nan b = false.
Proof.
  unfold is_nan. rewrite ltb_spec, FloatAxioms.eqb_spec. unfold SFltb, SFeqb.
  intros Hlt. rewrite SFcompare_refl; [done|].
  intros Hb. rewrite Hb in Hlt. by destruct (Prim2SF a).
Qed.

Lemma float_abs_not_negative (x : double) : (abs x <? 0)%float = false.
Proof.
  rewrite ltb_spec, abs_spec. change (Prim2SF 0) with (S754_zero false).
  by destruct (Prim2SF x).
Qed.

Lemma norm_step_opp nrm x : norm_step nrm (- x) = norm_step nrm x.
Proof. unfold norm_step. by rewrite float_abs_opp. Qed.

Lemma foldl_norm_sound l : ∀ nrm,
  is_nan nrm = false → (nrm <? 0)%float = false →
  is_nan (foldl norm_step nrm l) = false ∧ (foldl norm_step nrm l <? 0)%float = false.
Proof.
  induction l as [|x l IH]; intros nrm Hnan Hpos; simpl; [done|].
  apply IH; unfold norm_step; destruct (nrm <? abs x)%float eqn:Hlt; try done.
  - by eapply float_ltb_not_nan.
  - apply float_abs_not_negative.
Qed.

Section norms.
Context {Mat : Type} {C : MatrixConcept Mat}.

Lemma negate_run (m : Mat) (h : heap) :
  wf m h →
  ∃ h', mat.negate m h = (Done tt, h') ∧
        (∀ i j, i < getRows m → j < getCols m →
           h' !! cell m i j = (λ x, (- x)%float) <$> h !! cell m i j) ∧
        untouched_outside m h h' ∧ wf m h'.
Proof.
  intros Hwf.
  destruct (map_columns_spec (λ x, (- x)%float) m h Hwf) as (h' & Hrun & Hin & Hout).
  exists h'. split_and!; [done|done|done|].
  destruct Hwf as [? ? ? ? Halloc]. split; try done.
  intros i j Hi Hj. rewrite Hin by done. by apply fmap_is_Some, Halloc.
Qed.

(** X15: [negate] applied twice returns the store it started from, for
    every content: infinities, signed zeros and NaN included. *)
Theorem negate_twice (m : Mat) (h : heap) :
  wf m h →
  ∃ h1, mat.negate m h = (Done tt, h1) ∧
        (mat.negate m;; mat.negate m) h = (Done tt, h).
Proof.
  intros Hwf. destruct (negate_run m h Hwf) as (h1 & Hrun1 & Hin1 & Hout1 & Hwf1).
  destruct (negate_run m h1 Hwf1) as (h2 & Hrun2 & Hin2 & Hout2 & _).
  assert (h2 = h) as ->.
  { apply map_eq. intros p.
    destruct (in_view_dec m h p Hwf) as [(i & j & Hi & Hj & ->)|Hno].
    - rewrite Hin2, Hin1 by done. destruct (h !! cell m i j) as [x|]; simpl; [|done].
      by rewrite float_opp_involutive.
    - by rewrite Hout2, Hout1. }
  exists h1. split; [done|]. by rewrite (bind_done _ _ _ _ _ Hrun1).
Qed.

(** X16: [nrminf] never returns NaN nor a negative number, whatever the
    matrix holds, NaN included. *)
Theorem nrminf_never_nan (m : Mat) (h : heap) :
  wf m h →
  ∃ r, mat.nrminf m h = (Done r, h) ∧ is_nan r = false ∧ (r <? 0)%float = false.
Proof.
  intros Hwf. eexists. split; [by apply nrminf_spec|].
  apply foldl_norm_sound; reflexivity.
Qed.

Lemma values_after_negate (m : Mat) (h h' : heap) :
  wf m h →
  (∀ i j, i < getRows m → j < getCols m →
     h' !! cell m i j = (λ x, (- x)%float) <$> h !! cell m i j) →
  values_colmajor m h' = (λ x, (- x)%float) <$> values_colmajor m h.
Proof.
  intros Hwf Hin. unfold values_colmajor. rewrite fmap_list_bind.
  apply Forall_bind_ext, Forall_iota. intros j Hj.
  rewrite <- list_fmap_compose. apply Forall_fmap_ext_1, Forall_iota. intros i Hi.
  simpl. unfold value. rewrite Hin by done.
  destruct (wf_alloc m h Hwf i j Hi Hj) as [x ->]. done.
Qed.

(** X17: [negate] does not change the norm: [nrminf] returns the same
    double before and after it. *)
Theorem nrminf_negate (m : Mat) (h : heap) :
  wf m h →
  ∃ h1 r, mat.negate m h = (Done tt, h1) ∧
          mat.nrminf m h = (Done r, h) ∧
          mat.nrminf m h1 = (Done r, h1).
Proof.
  intros Hwf. destruct (negate_run m h Hwf) as (h1 & Hrun1 & Hin1 & Hout1 & Hwf1).
  exists h1. eexists. split_and!; [done|by apply nrminf_spec|].
  rewrite nrminf_spec by done. do 2 f_equal.
  rewrite (values_after_negate m h h1) by done.
  rewrite foldl_fmap. generalize 0%float.
  induction (values_colmajor m h) as [|x l IH]; intros acc; simpl; [done|].
  by rewrite norm_step_opp.
Qed.
End norms.

(** ** isDiff and isDiffSym *)

Section comparisons.
Context {Mat1 : Type} {C1 : MatrixConcept Mat1} {Mat2 : Type} {C2 : MatrixConcept Mat2}.

(** X18: a difference found by [isDiff] at tolerance [tol] is found at
    every smaller tolerance. *)
Theorem isDiff_monotone (m1 : Mat1) (m2 : Mat2) (tol tol' : double) (h : heap) :
  wf m1 h → wf m2 h → getRows m1 = getRows m2 → getCols m1 = getCols m2 →
  (tol' <? tol)%float = true →
  mat.isDiff m1 m2 tol h = (Done true, h) →
  mat.isDiff m1 m2 tol' h = (Done true, h).
Proof.
  intros Hw1 Hw2 Hrows Hcols Htol. rewrite !isDiff_run by done.
  intros Hrun. do 2 f_equal. injection Hrun as Hex.
  apply existsb_exists in Hex as (j & Hj & Hex).
  apply existsb_exists in Hex as (i & Hi & Hd).
  apply existsb_exists. exists j. split; [done|].
  apply existsb_exists. exists i. split; [done|].
  unfold differ in *. by eapply float_ltb_trans.
Qed.

Lemma isDiffSym_run (m1 : Mat1) (m2 : Mat2) (tol : double) (h : heap) :
  wf m1 h → wf m2 h → square_pair m1 m2 →
  mat.isDiffSym m1 m2 tol h
  = (Done (existsb (λ i, existsb (λ j, differ m1 m2 tol h j (j + i))
                           (iota (getCols m1 - i)))
             (iota (getCols m1))), h).
Proof.
  intros Hw1 Hw2 (Hr & Hc & Hrc & Hcr). unfold mat.isDiffSym.
  rewrite (bind_done _ _ h tt h).
  2:{ apply assert_true. rewrite !andb_true_iff. split_and!; by apply N.eqb_eq. }
  pose proof (wf_cols_size m1 h Hw1) as Hsize.
  assert (∀ i, i < getCols m1 →
    while_ret (R := bool) (N.to_nat (getCols m1)) (λ j, wrap (i + j) <? getCols m1)
      (λ j, x ← load (element m1 j (wrap (j + i)));
            y ← load (element m2 j (wrap (j + i)));
            if (tol <? abs (x - y))%float then mret (inr true)
            else mret (inl (wrap (j + 1))))
      0 h
    = (Done (if existsb (λ j, differ m1 m2 tol h j (j + i)) (iota (getCols m1 - i))
             then inr true else inl (getCols m1 - i)), h)) as Hdiag.
  { intros i Hi.
    apply (while_ret_search (λ j, j) (getCols m1 - i) (N.to_nat (getCols m1))
             (λ j, wrap (i + j) <? getCols m1) _
             (λ j, differ m1 m2 tol h j (j + i)) h).
    - lia.
    - intros j Hj. rewrite wrap_small by lia. apply N.ltb_lt. lia.
    - rewrite wrap_small by lia. apply N.ltb_ge. lia.
    - intros j Hj. rewrite !wrap_small by lia.
      rewrite (element_cell m1 h), (element_cell m2 h) by (done || lia).
      destruct (wf_alloc m1 h Hw1 j (j + i)) as [x Hx]; [lia|lia|].
      destruct (wf_alloc m2 h Hw2 j (j + i)) as [y Hy]; [lia|lia|].
      rewrite (bind_done _ _ _ _ _ (load_done _ _ _ Hx)).
      rewrite (bind_done _ _ _ _ _ (load_done _ _ _ Hy)).
      unfold differ, value. rewrite Hx, Hy. simpl.
      by destruct (tol <? abs (x - y))%float. }
  rewrite (bind_done _ _ h
    (if existsb (λ i, existsb (λ j, differ m1 m2 tol h j (j + i)) (iota (getCols m1 - i)))
          (iota (getCols m1)) then inr true else inl (getCols m1)) h).
  - by destruct (existsb _ _).
  - apply (while_ret_search (λ i, i) (getCols m1) (N.to_nat (getCols m1))
             (λ i, i <? getCols m1) _
             (λ i, existsb (λ j, differ m1 m2 tol h j (j + i)) (iota (getCols m1 - i))) h).
    + lia.
    + intros i Hi. by apply N.ltb_lt.
    + apply N.ltb_irrefl.
    + intros i Hi. rewrite (bind_done _ _ _ _ _ (Hdiag i Hi)).
      destruct (existsb _ _); [done|]. by rewrite wrap_small by lia.
Qed.

Lemma isDiffSym_true (m1 : Mat1) (m2 : Mat2) (tol : double) (h : heap) :
  wf m1 h → wf m2 h → square_pair m1 m2 →
  existsb (λ i, existsb (λ j, differ m1 m2 tol h j (j + i)) (iota (getCols m1 - i)))
    (iota (getCols m1)) = true
  ↔ ∃ r c, r ≤ c ∧ c < getCols m1 ∧ differ m1 m2 tol h r c = true.
Proof.
  intros Hw1 Hw2 Hsq. rewrite existsb_exists. split.
  - intros (i & Hi%list_elem_of_In%elem_of_iota & Hex).
    apply existsb_exists in Hex as (j & Hj%list_elem_of_In%elem_of_iota & Hd).
    exists j, (j + i). split_and!; [lia|lia|done].
  - intros (r & c & Hrc & Hc & Hd). exists (c - r).
    split; [apply list_elem_of_In, elem_of_iota; lia|].
    apply existsb_exists. exists r.
    split; [apply list_elem_of_In, elem_of_iota; lia|].
    by replace (r + (c - r)) with c by lia.
Qed.

Lemma differ_elements (m1 : Mat1) (m2 : Mat2) (tol : double) (h : heap) i j :
  wf m1 h → wf m2 h → getRows m1 = getRows m2 → getCols m1 = getCols m2 →
  i < getRows m1 → j < getCols m1 →
  differ m1 m2 tol h i j = true
  ↔ ∃ x y, h !! element m1 i j = Some x ∧ h !! element m2 i j = Some y ∧
           (tol <? abs (x - y))%float = true.
Proof.
  intros Hw1 Hw2 Hrows Hcols Hi Hj.
  rewrite (element_cell m1 h), (element_cell m2 h) by (done || lia).
  destruct (wf_alloc m1 h Hw1 i j) as [x Hx]; [done|done|].
  destruct (wf_alloc m2 h Hw2 i j) as [y Hy]; [lia|lia|].
  unfold differ, value. rewrite Hx, Hy. simpl. split.
  - intros Hd. by exists x, y.
  - intros (x' & y' & [= <-] & [= <-] & Hd). done.
Qed.

(** X19: [isDiffSym] fails, the store unchanged, unless both matrices
    are square of one size.  Otherwise it returns [true] exactly when some
    element on or above the diagonal ([r <= c]) has
    [fabs(M1(r,c) - M2(r,c)) > tol]; the elements under the diagonal have
    no part in the answer. *)
Theorem isDiffSym_spec (m1 : Mat1) (m2 : Mat2) (tol : double) (h : heap) :
  (¬ square_pair m1 m2 → ∃ e, mat.isDiffSym m1 m2 tol h = (Abort e, h)) ∧
  (square_pair m1 m2 → wf m1 h → wf m2 h →
   ∃ b, mat.isDiffSym m1 m2 tol h = (Done b, h) ∧ (b = true ↔ upper_differ m1 m2 tol h)).
Proof.
  split.
  - intros Hno. eexists. unfold mat.isDiffSym. apply bind_abort, assert_false.
    apply not_true_iff_false. intros Hb. apply Hno.
    rewrite !andb_true_iff in Hb.
    destruct Hb as [[[?%N.eqb_eq ?%N.eqb_eq] ?%N.eqb_eq] ?%N.eqb_eq]. done.
  - intros Hsq Hw1 Hw2. eexists. split; [by apply isDiffSym_run|].
    rewrite isDiffSym_true by done. destruct Hsq as (Hr & Hc & Hrc & Hcr).
    unfold upper_differ. split.
    + intros (r & c & Hrc' & Hc' & Hd).
      apply differ_elements in Hd as (x & y & Hx & Hy & Hd); try done; try lia.
      by exists r, c, x, y.
    + intros (r & c & x & y & Hrc' & Hc' & Hx & Hy & Hd).
      exists r, c. split_and!; [done|done|].
      apply differ_elements; try done; try lia. by exists x, y.
Qed.

(** X20: on square matrices of one size, [isDiffSym] returning [true]
    implies that [isDiff] returns [true]; when both matrices are symmetric_matrix
    the two functions return the same answer. *)
Theorem isDiffSym_isDiff (m1 : Mat1) (m2 : Mat2) (tol : double) (h : heap) :
  square_pair m1 m2 → wf m1 h → wf m2 h →
  ∃ b b', mat.isDiffSym m1 m2 tol h = (Done b, h) ∧
          mat.isDiff m1 m2 tol h = (Done b', h) ∧
          (b = true → b' = true) ∧
          (symmetric_matrix m1 h → symmetric_matrix m2 h → b = b').
Proof.
  intros Hsq Hw1 Hw2. pose proof Hsq as (Hr & Hc & Hrc & Hcr).
  eexists _, _. split_and!; [by apply isDiffSym_run|by apply isDiff_run| |].
  - rewrite isDiffSym_true by done. intros (r & c & Hrc' & Hc' & Hd).
    apply existsb_exists. exists c.
    split; [eapply list_elem_of_In, elem_of_iota, (column_visited m1 h r c); done || lia|].
    apply existsb_exists. exists r.
    split; [apply list_elem_of_In, elem_of_iota; lia|done].
  - intros Hs1 Hs2. apply eq_true_iff_eq. rewrite isDiffSym_true by done.
    rewrite existsb_exists. split.
    + intros (r & c & Hrc' & Hc' & Hd). exists c.
      split; [eapply list_elem_of_In, elem_of_iota, (column_visited m1 h r c); done || lia|].
      apply existsb_exists. exists r.
      split; [apply list_elem_of_In, elem_of_iota; lia|done].
    + intros (j & Hj%list_elem_of_In%elem_of_iota & Hex).
      apply existsb_exists in Hex as (i & Hi%list_elem_of_In%elem_of_iota & Hd).
      pose proof (columns_visited_le m1).
      destruct (decide (i ≤ j)) as [Hle|Hgt].
      * exists i, j. split_and!; [done|lia|done].
      * exists j, i. split_and!; [lia|lia|].
        unfold differ, value in *.
        specialize (Hs1 i j ltac:(lia) ltac:(lia)). specialize (Hs2 i j ltac:(lia) ltac:(lia)).
        rewrite !(element_cell m1 h) in Hs1 by (done || lia).
        rewrite !(element_cell m2 h) in Hs2 by (done || lia).
        by rewrite <- Hs1, <- Hs2.
Qed.
End comparisons.

(** X21: after the assignment [dest = src] from a source stored apart,
    [isDiff(dest, src, 0.0)] returns [false], whatever the values copied
    (NaN and infinities included). *)
Theorem assign_then_isDiff `{MutableMatrixConcept Dst} `{MatrixConcept Src}
    (dest : Dst) (src : Src) (h : heap) :
  wf dest h → wf src h → separate dest src →
  getRows dest = getRows src → getCols dest = getCols src →
  ∃ h', assign dest src h = (Done tt, h') ∧
        mat.isDiff dest src 0%float h' = (Done false, h').
Proof.
  intros Hwd Hws Hsep Hrows Hcols. rewrite assign_copy_columns.
  destruct (copy_columns_spec dest src h Hwd Hws Hrows Hcols (separate_aligned _ _ Hsep))
    as (h' & Hrun & Hin & Hout & Hdom).
  exists h'. split; [done|].
  rewrite isDiff_run; try done; try (by eapply wf_preserved).
  do 2 f_equal. apply not_true_iff_false. rewrite existsb_exists.
  intros (j & Hj%list_elem_of_In%elem_of_iota & Hex).
  apply existsb_exists in Hex as (i & Hi%list_elem_of_In%elem_of_iota & Hd).
  pose proof (columns_visited_le dest).
  unfold differ, value in Hd. rewrite Hin in Hd by lia.
  rewrite (Hout (cell src i j)) in Hd.
  - by rewrite sub_diag_not_positive in Hd.
  - intros Hv. apply (Hsep (cell src i j)); [done|apply in_view_cell; lia].
Qed.


(** ** reorderRowsByVectors and the general path of assignByVectors *)

Section rows_copy.
Context {Mat1 : Type} {C1 : MatrixConcept Mat1} {Mu1 : MutableMatrixConcept Mat1}.
Context {Mat2 : Type} {C2 : MatrixConcept Mat2}.

Lemma nonempty_sizes (v w : vec) : v ≠ [] ∨ w ≠ [] → (size v =? 0) && (size w =? 0) = false.
Proof.
  intros Hne. apply andb_false_iff. unfold size.
  destruct Hne as [Hl|Hl]; [left|right]; apply N.eqb_neq; destruct v, w; simpl; done || lia.
Qed.

Lemma vec_ok_expand (count : N) (v : vec) :
  count < SIZE_MOD → vec_ok v → vec_ok (expand count v).
Proof.
  intros Hc Hv. unfold expand, vec_ok. destruct (size v =? 0); [|done]. by rewrite size_iota.
Qed.

(** The copy loop over index vectors [D] (destination) and [S] (source):
    row [D[k]] of [a] ends as row [S[k]] of [b] for the last [k] that names
    it, and nothing outside the named rows changes. *)
Lemma row_loop_spec (a : Mat1) (D : vec) (b : Mat2) (S : vec) (h : heap) :
  wf a h → wf b h → separate a b → getCols b = getCols a →
  vec_ok S → size D = size S →
  in_range (getRows a) D → in_range (getRows b) S →
  ∃ h', for_ (size S) (λ i, mat.row_copy b (nth_ S i) a (nth_ D i)) h = (Done tt, h') ∧
        (∀ k j, k < size D → j < getCols a →
           (∀ k', k < k' < size D → nth_ D k' ≠ nth_ D k) →
           h' !! cell a (nth_ D k) j = h !! cell b (nth_ S k) j) ∧
        (∀ p, ¬ (∃ j k, j < getCols a ∧ k < size D ∧ p = cell a (nth_ D k) j) →
           h' !! p = h !! p).
Proof.
  intros Hwa Hwb Hsep Hcols HvS Hlen HD HS.
  pose proof (wf_ld a h Hwa) as Hld.
  assert (aligned b a) as Hal by (by apply separate_aligned, separate_sym).
  destruct (for_counted (size S) (λ i, mat.row_copy b (nth_ S i) a (nth_ D i))
    (λ n h', (∀ k j, k < n → j < getCols a →
                (∀ k', k < k' < n → nth_ D k' ≠ nth_ D k) →
                h' !! cell a (nth_ D k) j = h !! cell b (nth_ S k) j) ∧
             (∀ p, ¬ (∃ j k, j < getCols a ∧ k < n ∧ p = cell a (nth_ D k) j) →
                h' !! p = h !! p) ∧
             (∀ q, is_Some (h !! q) → is_Some (h' !! q)))) with (h := h)
    as (h' & Hrun & Hin & Hout & Hdom).
  - done.
  - intros n h0 Hn (Hin & Hout & Hdom).
    assert (nth_ S n < getRows b) as HSn by (by apply nth_in_range).
    assert (nth_ D n < getRows a) as HDn by (apply nth_in_range; [done|lia]).
    destruct (row_copy_spec b (nth_ S n) a (nth_ D n) h0)
      as (h1 & Hcopy & Hcin & Hcout & Hcdom);
      [by eapply wf_preserved|by eapply wf_preserved|done|done|done|done|].
    exists h1. split; [done|]. split_and!.
    + intros k j Hk Hj Hlast. destruct (decide (k = n)) as [->|Hne].
      * rewrite Hcin by done. apply Hout.
        intros (j' & k' & Hj' & Hk' & Heq). apply (Hsep (cell b (nth_ S n) j)).
        -- rewrite Heq. apply in_view_cell; [|done]. apply nth_in_range; [done|lia].
        -- apply in_view_cell; [done|lia].
      * rewrite Hcout.
        -- apply Hin; [lia|done|]. intros k' Hk'. apply Hlast. lia.
        -- intros (j' & Hj' & Heq). apply cell_inj in Heq as [Heq _]; [| |lia].
           ++ apply (Hlast n); [lia|done].
           ++ assert (nth_ D k < getRows a) by (apply nth_in_range; [done|lia]). lia.
    + intros p Hp. rewrite Hcout.
      * apply Hout. intros (j & k & Hj & Hk & ->). apply Hp. exists j, k.
        split_and!; [done|lia|done].
      * intros (j & Hj & ->). apply Hp. exists j, n. split_and!; [done|lia|done].
    + intros q Hq. by apply Hcdom, Hdom.
  - split_and!; [intros k j Hk; lia|done|done].
  - exists h'. rewrite Hlen. done.
Qed.

Lemma rows_checks_precondition (a : Mat1) (vToRows : vec) (b : Mat2) (vrows : vec) :
  (size vToRows =? 0) && (size vrows =? 0) = false →
  rows_checks a vToRows b vrows = true ↔ rows_precondition a vToRows b vrows.
Proof.
  intros Hne. unfold rows_checks, rows_precondition.
  rewrite !andb_true_iff, !selection_ok_selects, !N.eqb_eq, N.ltb_lt.
  split; [intros [[[[? ?] ?] ?] ?]; done|]. intros (Hcols & Hs1 & Hs2 & Hlen).
  split_and!; try done. unfold expand in *. apply andb_false_iff in Hne.
  destruct (N.eqb_spec (size vrows) 0); destruct (N.eqb_spec (size vToRows) 0);
    destruct Hne; try done; try lia.
Qed.

(** X22: [reorderRowsByVectors] with at least one index list non-empty
    fails, the store unchanged, unless the column counts are equal, every
    index is in range for its own matrix, no given list is longer than the
    row count of its matrix and the expanded lists have equal length.
    Otherwise, on matrices stored apart, row [vToRows[k]] of the
    destination holds row [vrows[k]] of the source for every [k] that is
    the last to name that destination row, and nothing else changes. *)
Theorem reorderRows_spec (a : Mat1) (vToRows : vec) (b : Mat2) (vrows : vec) (h : heap) :
  vec_ok vToRows → vec_ok vrows → vToRows ≠ [] ∨ vrows ≠ [] →
  let D := expand (getRows a) vToRows in
  let S := expand (getRows b) vrows in
  (¬ rows_precondition a vToRows b vrows →
   ∃ e, mat.reorderRowsByVectors a vToRows b vrows h = (Abort e, h)) ∧
  (rows_precondition a vToRows b vrows → wf a h → wf b h → separate a b →
   ∃ h', mat.reorderRowsByVectors a vToRows b vrows h = (Done tt, h') ∧
         (∀ k j, k < size D → j < getCols a →
            (∀ k', k < k' < size D → nth_ D k' ≠ nth_ D k) →
            h' !! element a (nth_ D k) j = h !! element b (nth_ S k) j) ∧
         (∀ p, ¬ (∃ j k, j < getCols a ∧ k < size D ∧ p = cell a (nth_ D k) j) →
            h' !! p = h !! p)).
Proof.
  intros Hv1 Hv2 Hnonempty D S.
  pose proof (nonempty_sizes _ _ Hnonempty) as Hne.
  pose proof (rows_checks_precondition a vToRows b vrows Hne) as Hiff.
  split.
  - intros Hpre. apply reorderRows_fail; try done.
    destruct (rows_checks a vToRows b vrows); [|done]. destruct Hpre. by apply Hiff.
  - intros Hpre Hwa Hwb Hsep. pose proof Hpre as (Hcols & [HD _] & [HS HvS] & Hlen).
    rewrite reorderRows_pass by (done || by apply Hiff).
    assert (vec_ok S) as HSok.
    { apply vec_ok_expand; [|done]. by eapply wf_rows_size. }
    destruct (row_loop_spec a D b S h) as (h' & Hrun & Hin & Hout); try done.
    exists h'. split_and!; [done| |done].
    intros k j Hk Hj Hlast.
    rewrite (element_cell a h), (element_cell b h); try done; try lia.
    + by apply Hin.
    + apply nth_in_range; [done|]. fold D S in Hlen. lia.
    + by apply nth_in_range.
Qed.

Lemma general_checks_precondition (a : Mat1) (vToRows vToCols : vec)
    (b : Mat2) (vrows vcols : vec) :
  general_checks a vToRows vToCols b vrows vcols = true
  ↔ general_precondition a vToRows vToCols b vrows vcols.
Proof.
  unfold general_checks, general_precondition.
  rewrite !andb_true_iff, !selection_ok_selects, !N.eqb_eq, N.ltb_lt.
  split; [intros [[[[[[? ?] ?] ?] ?] ?] ?]; done|].
  intros (? & ? & ? & ? & ? & ? & ?). done.
Qed.

(** X23: the general path of [assignByVectors] (a row list and a column
    list given) fails, the store unchanged, unless all four index lists
    are accepted, the expanded lists agree in length along each axis and
    [nrows * ncols] is positive.  Otherwise, on matrices stored apart,
    [a(vToRows[k], vToCols[l])] holds [b(vrows[k], vcols[l])] for every
    pair [(k,l)] that is the last to name that destination element, and
    nothing else changes. *)
Theorem assignByVectors_general_spec (a : Mat1) (vToRows vToCols : vec)
    (b : Mat2) (vrows vcols : vec) (h : heap) :
  vec_ok vToRows → vec_ok vToCols → vec_ok vrows → vec_ok vcols →
  vToRows ≠ [] ∨ vrows ≠ [] → vToCols ≠ [] ∨ vcols ≠ [] →
  let DR := expand (getRows a) vToRows in
  let DC := expand (getCols a) vToCols in
  let SR := expand (getRows b) vrows in
  let SC := expand (getCols b) vcols in
  (¬ general_precondition a vToRows vToCols b vrows vcols →
   ∃ e, mat.assignByVectors a vToRows vToCols b vrows vcols h = (Abort e, h)) ∧
  (general_precondition a vToRows vToCols b vrows vcols → wf a h → wf b h → separate a b →
   ∃ h', mat.assignByVectors a vToRows vToCols b vrows vcols h = (Done tt, h') ∧
         (∀ k l, k < size DR → l < size DC →
            (∀ k' l', k' < size DR → l' < size DC → precedes k l k' l' →
               ¬ (nth_ DR k' = nth_ DR k ∧ nth_ DC l' = nth_ DC l)) →
            h' !! element a (nth_ DR k) (nth_ DC l)
            = h !! element b (nth_ SR k) (nth_ SC l)) ∧
         (∀ p, ¬ (∃ k l, k < size DR ∧ l < size DC ∧ p = cell a (nth_ DR k) (nth_ DC l)) →
            h' !! p = h !! p)).
Proof.
  intros Hv1 Hv2 Hv3 Hv4 Hner Hnec DR DC SR SC.
  pose proof (nonempty_sizes _ _ Hner) as Hr. pose proof (nonempty_sizes _ _ Hnec) as Hc.
  pose proof (general_checks_precondition a vToRows vToCols b vrows vcols) as Hiff.
  split.
  - intros Hpre. apply assign_general_fail; try done.
    destruct (general_checks a vToRows vToCols b vrows vcols); [|done].
    destruct Hpre. by apply Hiff.
  - intros Hpre Hwa Hwb Hsep.
    pose proof Hpre as ([HDR _] & [HDC _] & [HSR _] & [HSC _] & Hlr & Hlc & Hpos).
    fold DR in HDR, Hlr. fold DC in HDC, Hlc. fold SR in HSR, Hlr. fold SC in HSC, Hlc.
    rewrite assign_general_pass by (done || by apply Hiff).
    fold DR DC SR SC. unfold scatter.
    pose proof (wf_ld a h Hwa) as Hld.
    assert (vec_ok SR) as HSRok.
    { apply vec_ok_expand; [|done]. by eapply wf_rows_size. }
    assert (vec_ok SC) as HSCok.
    { apply vec_ok_expand; [|done]. by eapply wf_cols_size. }
    assert (∀ k, k < size SR → nth_ DR k < getRows a) as HnDR
      by (intros k Hk; apply nth_in_range; [done|lia]).
    assert (∀ l, l < size SC → nth_ DC l < getCols a) as HnDC
      by (intros l Hl; apply nth_in_range; [done|lia]).
    assert (∀ k, k < size SR → nth_ SR k < getRows b) as HnSR
      by (intros k Hk; by apply nth_in_range).
    assert (∀ l, l < size SC → nth_ SC l < getCols b) as HnSC
      by (intros l Hl; by apply nth_in_range).
    destruct (copy_nest_spec (size SR) (λ _, size SC)
      (λ i j, v ← load (element b (nth_ SR i) (nth_ SC j));
              store (element a (nth_ DR i) (nth_ DC j)) v)
      (λ i j, cell b (nth_ SR i) (nth_ SC j))
      (λ i j, cell a (nth_ DR i) (nth_ DC j)) h) as (h' & Hrun & Hin & Hout & _).
    + done.
    + done.
    + intros i j Hi Hj. rewrite (element_cell b h), (element_cell a h) by auto. done.
    + intros i j Hi Hj. apply (wf_alloc b h Hwb); auto.
    + intros i j Hi Hj. apply (wf_alloc a h Hwa); auto.
    + intros i j i' j' Hi Hj Hi' Hj' Heq. apply (Hsep (cell b (nth_ SR i) (nth_ SC j))).
      * rewrite Heq. apply in_view_cell; auto.
      * apply in_view_cell; auto.
    + exists h'. split_and!; [done| |].
      * intros k l Hk Hl Hlast.
        rewrite (element_cell a h), (element_cell b h) by (done || auto || (apply HnDR; lia)
          || (apply HnDC; lia) || (apply HnSR; lia) || (apply HnSC; lia)).
        apply Hin; [lia|lia|].
        intros k' l' Hk' Hl' Hlater Heq. apply (Hlast k' l'); [lia|lia|done|].
        apply cell_inj in Heq; [done| |].
        -- specialize (HnDR k' Hk'). lia.
        -- specialize (HnDR k ltac:(lia)). lia.
      * intros p Hp. apply Hout. intros (i & j & Hi & Hj & ->). apply Hp.
        exists i, j. split_and!; [lia|lia|done].
Qed.
End rows_copy.


(** ** repmat *)

Lemma tile_inj (R i r i' r' : N) : r < R → r' < R → R * i + r = R * i' + r' → i = i' ∧ r = r'.
Proof. intros Hr Hr' Heq. destruct (N.lt_trichotomy i i') as [?|[?|?]]; nia. Qed.


Lemma for_first_abort (n : size_t) (body : size_t → M unit) (h : heap) (e : string) :
  0 < n → body 0 h = (Abort e, h) → for_ n body h = (Abort e, h).
Proof.
  intros Hn Hb. unfold for_. apply bind_abort.
  destruct (N.to_nat n) as [|fuel] eqn:Hfuel; [lia|]. simpl.
  replace (0 <? n) with true by (symmetry; by apply N.ltb_lt).
  apply bind_abort. by apply bind_abort.
Qed.

Section repmat.
Context {Mat1 : Type} {C1 : MatrixConcept Mat1} {Mat2 : Type} {C2 : MatrixConcept Mat2}.




(** X25: [repmat] of a matrix that has columns but no row fails on the
    assertion of the partial [col_copy] ([row_offset_src < src.getRows()]),
    although the result of the right size has no element to receive. *)
Theorem repmat_no_rows (a : Mat1) (multv multh : size_t) (repMat : Mat2) (h : heap) :
  getRows a = 0 → 0 < getCols a → 0 < multv → 0 < multh →
  getRows repMat = 0 → getCols repMat = multh * getCols a → getCols repMat < SIZE_MOD →
  ∃ e, mat.repmat a multv multh repMat h = (Abort e, h).
Proof.
  intros Hrows Hcols Hmv Hmh Hrr Hrc Hsize. eexists. unfold mat.repmat.
  rewrite (bind_done _ _ h tt h).
  2:{ apply assert_true. rewrite Hrows, N.mul_0_r, Hrr, <- Hrc.
      rewrite (wrap_small (getCols repMat)) by done.
      apply andb_true_iff. split; [reflexivity|apply N.eqb_refl]. }
  apply for_first_abort; [done|]. apply for_first_abort; [done|].
  apply for_first_abort; [done|].
  unfold mat.col_copy_rows. apply bind_abort, assert_false.
  rewrite Hrows. by rewrite !andb_false_r.
Qed.
End repmat.


(** ** transpose(M, M) *)

Section transpose_alias.
Context {Mat : Type} {C : MatrixConcept Mat}.

Lemma mirror_step (m : Mat) (h h0 : heap) (i j : N) :
  wf m h → getRows m = getCols m → i < getRows m → j < getRows m →
  mirroring m h i j h0 →
  ∃ h1, (v ← load (element m j i); store (element m i j) v) h0 = (Done tt, h1) ∧
        mirroring m h i (j + 1) h1.
Proof.
  intros Hwf Hsq Hi Hj (Hup & Hrest & Hout).
  pose proof (wf_ld m h Hwf) as Hld.
  rewrite !(element_cell m h) by (done || lia).
  destruct (wf_alloc m h Hwf i j) as [x Hx]; [lia|lia|].
  destruct (wf_alloc m h Hwf j i) as [y Hy]; [lia|lia|].
  assert (h0 !! cell m i j = Some x) as Hx0.
  { rewrite Hrest; [done|lia|lia|]. unfold precedes. lia. }
  assert (h0 !! cell m j i = Some (if i <? j then y else x)) as Hread.
  { destruct (N.ltb_spec i j) as [Hlt|Hge].
    - rewrite Hrest; [done|lia|lia|]. unfold precedes. lia.
    - destruct (decide (j = i)) as [->|Hne]; [done|].
      rewrite Hup; [done|lia|lia|lia|]. unfold precedes. lia. }
  exists (<[cell m i j := if i <? j then y else x]> h0). split.
  { rewrite (bind_done _ _ _ _ _ (load_done _ _ _ Hread)).
    apply store_done. by eexists. }
  split_and!.
  - intros a b Ha Hb Hab Hl. destruct (decide (a = i ∧ b = j)) as [[-> ->]|Hne].
    + rewrite lookup_insert_eq.
      replace (i <? j) with true by (symmetry; by apply N.ltb_lt). done.
    + rewrite lookup_insert_ne.
      * apply Hup; [done|done|done|]. unfold precedes in *. lia.
      * intros Heq. apply cell_inj in Heq; lia.
  - intros a b Ha Hb Hno. destruct (decide (a = i ∧ b = j)) as [[-> ->]|Hne].
    + rewrite lookup_insert_eq.
      replace (i <? j) with false; [done|].
      symmetry. apply N.ltb_ge. unfold precedes in Hno. lia.
    + rewrite lookup_insert_ne.
      * apply Hrest; [done|done|]. unfold precedes in *. lia.
      * intros Heq. apply cell_inj in Heq; lia.
  - intros p Hp. rewrite lookup_insert_ne; [by apply Hout|].
    intros <-. apply Hp, in_view_cell; lia.
Qed.

Lemma transpose_alias_run (m : Mat) (h : heap) :
  wf m h → getRows m = getCols m →
  ∃ h', mat.transpose_of m m h = (Done tt, h') ∧
        (∀ i j, j < i → i < getRows m → h' !! cell m j i = h !! cell m i j) ∧
        (∀ p, ¬ (∃ i j, j < i ∧ i < getRows m ∧ p = cell m j i) → h' !! p = h !! p).
Proof.
  intros Hwf Hsq. unfold mat.transpose_of.
  rewrite (bind_done _ _ h tt h).
  2:{ apply assert_true. rewrite andb_true_iff. split; apply N.eqb_eq; done. }
  pose proof (wf_rows_size m h Hwf) as Hsize.
  destruct (for_counted (getRows m)
    (λ i, for_ (getCols m) (λ j, v ← load (element m j i); store (element m i j) v))
    (λ i h', mirroring m h i 0 h')) with (h := h) as (h' & Hrun & Hup & Hrest & Hout).
  - done.
  - intros i h0 Hi Hinv.
    destruct (for_counted (getCols m)
      (λ j, v ← load (element m j i); store (element m i j) v)
      (λ j h', mirroring m h i j h')) with (h := h0) as (h1 & Hrow & Hup & Hrest & Hout).
    + lia.
    + intros j h1 Hj Hinv1. apply mirror_step; try done. lia.
    + done.
    + exists h1. split; [done|]. split_and!; [| |done].
      * intros a b Ha Hb Hab Hl. apply Hup; [done|done|done|]. unfold precedes in *. lia.
      * intros a b Ha Hb Hno. apply Hrest; [done|done|]. unfold precedes in *. lia.
  - split_and!; [|done|done]. intros a b Ha Hb Hab Hl. unfold precedes in Hl. lia.
  - exists h'. split_and!; [done| |].
    + intros i j Hj Hi. apply Hup; [lia|lia|done|]. unfold precedes. lia.
    + intros p Hp. destruct (in_view_dec m h p Hwf) as [(a & b & Ha & Hb & ->)|Hno].
      * apply Hrest; [done|lia|]. intros [Hab _]. apply Hp. exists b, a.
        split_and!; [done|lia|done].
      * by apply Hout.
Qed.

(** X26: [transpose(M, M)] on a square matrix does not transpose it: the
    elements above the diagonal receive the elements under it, which are
    left as they were.  It ends in the same store as
    [copy_lower_to_upper(M)]. *)
Theorem transpose_of_itself (m : Mat) (h : heap) :
  wf m h → getRows m = getCols m →
  ∃ h', mat.transpose_of m m h = (Done tt, h') ∧
        mat.copy_lower_to_upper m h = (Done tt, h') ∧
        (∀ i j, i < getRows m → j < getCols m →
           h' !! element m i j = h !! element m (N.max i j) (N.min i j)).
Proof.
  intros Hwf Hsq.
  destruct (transpose_alias_run m h Hwf Hsq) as (h1 & Hrun1 & Hin1 & Hout1).
  destruct (copy_lower_to_upper_run m h Hwf) as (h2 & Hrun2 & Hin2 & Hout2 & _).
  replace (N.min (getCols m) (getRows m)) with (getRows m) in * by lia.
  pose proof (wf_ld m h Hwf) as Hld.
  assert (h2 = h1) as ->.
  { apply map_eq. intros p.
    destruct (in_view_dec m h p Hwf) as [(a & b & Ha & Hb & ->)|Hno].
    - destruct (decide (a < b)) as [Hlt|Hge].
      + rewrite Hin2, Hin1 by lia. done.
      + rewrite Hout2, Hout1; [done| |].
        * intros (i & j & Hj & Hi & Heq). apply cell_inj in Heq; lia.
        * intros (i & j & Hj & Hi & Heq). apply cell_inj in Heq; lia.
    - rewrite Hout2, Hout1; [done| |].
      + intros (i & j & Hj & Hi & ->). apply Hno, in_view_cell; lia.
      + intros (i & j & Hj & Hi & ->). apply Hno, in_view_cell; lia. }
  exists h1. split_and!; [done|done|].
  intros i j Hi Hj. rewrite !(element_cell m h) by (done || lia).
  destruct (decide (i < j)) as [Hlt|Hge].
  - rewrite N.max_r, N.min_l by lia. apply Hin1; lia.
  - rewrite N.max_l, N.min_r by lia. apply Hout1.
    intros (a & b & Hb & Ha & Heq). apply cell_inj in Heq; lia.
Qed.
End transpose_alias.

(** ** The identity and its difference *)

Lemma foldl_norm_zeros l : Forall (λ x, x = 0%float) l → foldl norm_step 0%float l = 0%float.
Proof.
  induction 1 as [|x l -> _ IH]; simpl; [done|].
  by change (norm_step 0 0) with 0%float.
Qed.

Lemma is_identity_wf `{MatrixConcept Mat} (m : Mat) (h h' : heap) :
  wf m h → is_identity m h' → wf m h'.
Proof.
  intros Hwf Hid. pose proof Hwf as [? ? ? ? Halloc]. split; try done.
  intros i j Hi Hj. specialize (Hid i j Hi Hj).
  rewrite (element_cell m h) in Hid by done. rewrite Hid. by eexists.
Qed.

Lemma identity_difference `{MatrixConcept Mat1, MatrixConcept Mat2}
    (m1 : Mat1) (m2 : Mat2) (h : heap) :
  wf m1 h → wf m2 h → separate m1 m2 →
  getRows m1 = getRows m2 → getCols m1 = getCols m2 →
  is_identity m1 h → is_identity m2 h →
  ∃ h', (mat.sub m1 m2;; mat.nrminf m1) h = (Done 0%float, h').
Proof.
  intros Hw1 Hw2 Hsep Hrows Hcols Hid1 Hid2.
  destruct (zip_spec PrimFloat.sub (mat.sub m1 m2) m1 m2 h _ eq_refl Hw1 Hw2 Hrows Hcols)
    as (h' & Hrun & Hout & Hin).
  specialize (Hin (separate_aligned _ _ Hsep)).
  assert (∀ i j, i < getRows m1 → j < getCols m1 → h' !! cell m1 i j = Some 0%float) as Hzero.
  { intros i j Hi Hj. specialize (Hid1 i j Hi Hj). specialize (Hid2 i j ltac:(lia) ltac:(lia)).
    rewrite <- (element_cell m1 h) by done.
    rewrite (Hin i j _ _ Hi Hj Hid1 Hid2). by destruct (i =? j). }
  assert (wf m1 h') as Hw1'.
  { pose proof Hw1 as [? ? ? ? Halloc]. split; try done.
    intros i j Hi Hj. rewrite Hzero by done. by eexists. }
  exists h'. rewrite (bind_done _ _ _ _ _ Hrun). rewrite nrminf_spec by done.
  do 2 f_equal. apply foldl_norm_zeros. apply list.Forall_forall.
  intros x (i & j & Hi & Hj & ->)%elem_of_values_colmajor.
  unfold value. by rewrite Hzero.
Qed.

(** X27: two matrices set to the identity differ by a matrix of norm
    zero: after [set_identity(M1)], [set_identity(M2)] and [sub(M1, M2)],
    [nrminf(M1)] returns [0.0]. *)
Theorem identity_minus_identity (m1 m2 : Matrix) (h : heap) :
  wf m1 h → wf m2 h → separate m1 m2 →
  getRows m1 = getRows m2 → getCols m1 = getCols m2 →
  ∃ h', (mat.set_identity m1;; mat.set_identity m2;; mat.sub m1 m2;; mat.nrminf m1) h
        = (Done 0%float, h').
Proof.
  intros Hw1 Hw2 Hsep Hrows Hcols.
  destruct (set_identity_run m1 h Hw1 (Matrix_setAll_run m1 0%float h Hw1))
    as (h1 & Hrun1 & Hid1 & Hout1).
  assert (wf m2 h1) as Hw21.
  { pose proof Hw2 as [? ? ? ? Halloc]. split; try done.
    intros i j Hi Hj. rewrite Hout1; [by apply Halloc|].
    intros Hv. apply (Hsep (cell m2 i j)); [done|by apply in_view_cell]. }
  destruct (set_identity_run m2 h1 Hw21 (Matrix_setAll_run m2 0%float h1 Hw21))
    as (h2 & Hrun2 & Hid2 & Hout2).
  assert (is_identity m1 h2) as Hid12.
  { intros i j Hi Hj. rewrite <- (Hid1 i j Hi Hj).
    rewrite !(element_cell m1 h) by done. apply Hout2.
    intros Hv. apply (Hsep (cell m1 i j)); [by apply in_view_cell|done]. }
  destruct (identity_difference m1 m2 h2) as (h3 & Hrun3); try done.
  { by apply (is_identity_wf m1 h). }
  { by apply (is_identity_wf m2 h). }
  exists h3. rewrite (bind_done _ _ _ _ _ Hrun1), (bind_done _ _ _ _ _ Hrun2). done.
Qed.


(** ** Blocks of a parent through views *)

Section blocks.
Context {Mat : Type} {C : MatrixConcept Mat} {Src : Type} {CS : MatrixConcept Src}.

(** X28: assignment through a view cut from a parent writes the block of
    the parent: [parent(row_offset+i, col_offset+j)] receives [src(i,j)];
    every other element of the parent and every address outside the
    parent stay as they were. *)
Theorem view_assign_block (parent : Mat) (row_offset col_offset : size_t) (src : Src) (h : heap) :
  wf parent h → wf src h → separate parent src →
  view_bounds parent row_offset col_offset (getRows src) (getCols src) →
  ∃ (view : MatrixView) (h' : heap),
    MatrixView_of parent row_offset col_offset (getRows src) (getCols src) h = (Done view, h) ∧
    assign view src h = (Done tt, h') ∧
    (∀ i j, i < getRows src → j < getCols src →
       h' !! element parent (row_offset + i) (col_offset + j) = h !! element src i j) ∧
    (∀ i j, i < getRows parent → j < getCols parent →
       ¬ (row_offset ≤ i < row_offset + getRows src
          ∧ col_offset ≤ j < col_offset + getCols src) →
       h' !! element parent i j = h !! element parent i j) ∧
    untouched_outside parent h h'.
Proof.
  intros Hwp Hws Hsep Hb. pose proof Hb as (Hro & Hr & Hco & Hc).
  destruct (view_accepted parent row_offset col_offset (getRows src) (getCols src) h Hwp Hb)
    as (v & _ & Hv & _ & Hwv & _ & Hrows & Hcols & _ & _ & Hcell & _).
  assert (∀ p, in_view v p → in_view parent p) as Hsub.
  { intros p (i & j & Hi & Hj & ->). rewrite Hcell. apply in_view_cell; lia. }
  assert (aligned v src) as Hal.
  { apply separate_aligned. intros p Hp1 Hp2. apply (Hsep p); [by apply Hsub|done]. }
  destruct (copy_columns_spec v src h Hwv Hws Hrows Hcols Hal) as (h' & Hrun & Hin & Hout & _).
  pose proof (wf_ld parent h Hwp) as Hld.
  exists v, h'. split_and!; [done|by rewrite assign_copy_columns| | |].
  - intros i j Hi Hj. rewrite (element_cell parent h), (element_cell src h) by (done || lia).
    rewrite <- Hcell. apply Hin; lia.
  - intros i j Hi Hj Hblock. rewrite (element_cell parent h) by done. apply Hout.
    intros (i' & j' & Hi' & Hj' & Heq). rewrite Hcell in Heq.
    apply cell_inj in Heq as [-> ->]; lia.
  - intros p Hp. apply Hout. intros Hv'. by apply Hp, Hsub.
Qed.

(** X29: assignment to a [Matrix] from a read-only view of a parent
    extracts the block: [dest(i,j)] receives
    [parent(row_offset+i, col_offset+j)], and nothing outside [dest]
    changes, the parent included. *)
Theorem block_extraction (parent : Mat) (row_offset col_offset : size_t) (dest : Matrix) (h : heap) :
  wf parent h → wf dest h → separate dest parent →
  view_bounds parent row_offset col_offset (getRows dest) (getCols dest) →
  ∃ (view : MatrixConstView) (h' : heap),
    MatrixConstView_of parent row_offset col_offset (getRows dest) (getCols dest) h
    = (Done view, h) ∧
    assign dest view h = (Done tt, h') ∧
    (∀ i j, i < getRows dest → j < getCols dest →
       h' !! element dest i j = h !! element parent (row_offset + i) (col_offset + j)) ∧
    untouched_outside dest h h'.
Proof.
  intros Hwp Hwd Hsep Hb. pose proof Hb as (Hro & Hr & Hco & Hc).
  destruct (view_accepted parent row_offset col_offset (getRows dest) (getCols dest) h Hwp Hb)
    as (_ & cv & _ & Hcv & _ & Hwcv & _ & _ & Hrows & Hcols & _ & Hcell).
  assert (aligned dest cv) as Hal.
  { apply separate_aligned. intros p Hp1 (i & j & Hi & Hj & ->). apply (Hsep (cell cv i j)).
    - done.
    - rewrite Hcell. apply in_view_cell; lia. }
  destruct (copy_columns_spec dest cv h Hwd Hwcv (eq_sym Hrows) (eq_sym Hcols) Hal)
    as (h' & Hrun & Hin & Hout & _).
  exists cv, h'. split_and!; [done|done| |done].
  intros i j Hi Hj. rewrite (element_cell dest h), (element_cell parent h) by (done || lia).
  rewrite <- Hcell. by apply Hin.
Qed.
End blocks.

(** ** Matrices without elements *)

Section empty.
Context {Mat1 : Type} {C1 : MatrixConcept Mat1} {Mat2 : Type} {C2 : MatrixConcept Mat2}.

Lemma values_colmajor_empty (m : Mat1) (h : heap) :
  getRows m = 0 ∨ getCols m = 0 → values_colmajor m h = [].
Proof.
  intros Hempty. unfold values_colmajor.
  destruct Hempty as [-> | ->]; [|done].
  induction (iota (getCols m)) as [|j l IH]; [done|]. by rewrite bind_cons, IH.
Qed.

Lemma no_element (m : Mat1) (p : ptr) : getRows m = 0 ∨ getCols m = 0 → ¬ in_view m p.
Proof. intros Hempty (i & j & Hi & Hj & _). lia. Qed.

Lemma unchanged_store (m : Mat1) (h h' : heap) :
  getRows m = 0 ∨ getCols m = 0 → untouched_outside m h h' → h' = h.
Proof. intros Hempty Hout. apply map_eq. intros p. by apply Hout, no_element. Qed.

(** X30: on a matrix without elements (no row or no column) [nrminf]
    returns [0.0], [isDiff] returns [false] for every tolerance, and
    [negate], [add] and [sub] complete and leave the store as it is. *)
Theorem empty_matrix_neutral (m1 : Mat1) (m2 : Mat2) (tol d : double) (h : heap) :
  wf m1 h → getRows m1 = 0 ∨ getCols m1 = 0 →
  mat.nrminf m1 h = (Done 0%float, h) ∧
  mat.negate m1 h = (Done tt, h) ∧
  mat.add_d m1 d h = (Done tt, h) ∧
  (wf m2 h → getRows m1 = getRows m2 → getCols m1 = getCols m2 →
   mat.isDiff m1 m2 tol h = (Done false, h) ∧
   mat.add m1 m2 h = (Done tt, h) ∧
   mat.sub m1 m2 h = (Done tt, h)).
Proof.
  intros Hwf Hempty. split_and!.
  - rewrite nrminf_spec by done. by rewrite values_colmajor_empty.
  - destruct (map_columns_spec (λ x, (- x)%float) m1 h Hwf) as (h' & Hrun & _ & Hout).
    by rewrite (unchanged_store m1 h h' Hempty Hout) in Hrun.
  - destruct (map_columns_spec (λ x, (x + d)%float) m1 h Hwf) as (h' & Hrun & _ & Hout).
    by rewrite (unchanged_store m1 h h' Hempty Hout) in Hrun.
  - intros Hwf2 Hrows Hcols. split_and!.
    + rewrite isDiff_run by done. do 2 f_equal.
      apply not_true_iff_false. rewrite existsb_exists.
      intros (j & Hj%list_elem_of_In%elem_of_iota & Hex).
      apply existsb_exists in Hex as (i & Hi%list_elem_of_In%elem_of_iota & _).
      pose proof (columns_visited_le m1). lia.
    + destruct (zip_spec PrimFloat.add (mat.add m1 m2) m1 m2 h _ eq_refl Hwf Hwf2 Hrows Hcols)
        as (h' & Hrun & Hout & _).
      by rewrite (unchanged_store m1 h h' Hempty Hout) in Hrun.
    + destruct (zip_spec PrimFloat.sub (mat.sub m1 m2) m1 m2 h _ eq_refl Hwf Hwf2 Hrows Hcols)
        as (h' & Hrun & Hout & _).
      by rewrite (unchanged_store m1 h h' Hempty Hout) in Hrun.
Qed.
End empty.

(** ** The properties at concrete matrices *)

Ltac wf_by_computation := apply wfb_wf; vm_compute; reflexivity.
Ltac separate_by_computation := apply separateb_separate; vm_compute; reflexivity.

Lemma Matrix_setAll_spec_witness :
  ∃ h', setAll M44 7%float h44 = (Done tt, h') ∧
        (∀ i j, i < getRows M44 → j < getCols M44 → h' !! element M44 i j = Some 7%float) ∧
        untouched_outside M44 h44 h'.
Proof. apply (Matrix_setAll_spec M44 7%float h44). wf_by_computation. Defined.

Lemma MatrixView_assign_spec_witness :
  (∃ e, MatrixView_assign view23 src23 h23 = (Abort e, h23)) ∧
  (∃ h', MatrixView_assign view23 dest22 h23 = (Done tt, h') ∧
         (∀ i j, i < getRows view23 → j < getCols view23 →
            h' !! element view23 i j = h23 !! element dest22 i j) ∧
         untouched_outside view23 h23 h').
Proof.
  split.
  - apply (MatrixView_assign_spec view23 src23 h23). right. discriminate.
  - apply (MatrixView_assign_spec view23 dest22 h23).
    + reflexivity.
    + reflexivity.
    + wf_by_computation.
    + wf_by_computation.
    + apply separate_aligned. separate_by_computation.
Defined.

Lemma view_constructors_witness :
  (∃ (v : MatrixView) (cv : MatrixConstView),
     MatrixView_of M44 1 0 2 3 h44 = (Done v, h44) ∧
     MatrixConstView_of M44 1 0 2 3 h44 = (Done cv, h44) ∧
     wf v h44 ∧ wf cv h44 ∧
     (∀ p, in_view v p → in_view M44 p) ∧
     (∀ p, in_view cv p → in_view M44 p) ∧
     (∀ i j, i < 2 → j < 3 →
        element v i j = element M44 (1 + i) (0 + j) ∧
        element cv i j = element M44 (1 + i) (0 + j))) ∧
  (∃ e, MatrixView_of M44 4 0 0 0 h44 = (Abort e, h44) ∧
        MatrixConstView_of M44 4 0 0 0 h44 = (Abort e, h44)).
Proof.
  destruct (view_constructors M44 1 0 2 3 h44) as [Hok _]; [wf_by_computation|].
  destruct (view_constructors M44 4 0 0 0 h44) as [_ Hno]; [wf_by_computation|].
  split.
  - apply Hok. vm_compute. repeat split; discriminate.
  - apply Hno; [reflexivity|reflexivity|].
    intros (Hro & _). vm_compute in Hro. discriminate.
Defined.

Lemma view_of_view_witness :
  ∃ v1 v2 : MatrixView,
    MatrixView_of M44 1 0 3 4 h44 = (Done v1, h44) ∧
    MatrixView_of v1 1 1 2 2 h44 = (Done v2, h44) ∧
    MatrixView_of M44 (1 + 1) (0 + 1) 2 2 h44 = (Done v2, h44).
Proof.
  apply (view_of_view M44 1 0 3 4 1 1 2 2 h44).
  - wf_by_computation.
  - vm_compute. repeat split; discriminate.
  - reflexivity.
  - vm_compute. discriminate.
  - reflexivity.
  - vm_compute. discriminate.
Defined.

Lemma col_copy_spec_witness :
  (∃ e, mat.col_copy src23 5 dest22 0 h23 = (Abort e, h23)) ∧
  (∃ h', mat.col_copy src23 2 dest22 0 h23 = (Done tt, h') ∧
         (∀ i, i < getRows dest22 → h' !! element dest22 i 0 = h23 !! element src23 i 2) ∧
         (∀ p, ¬ (∃ i, i < getRows dest22 ∧ p = cell dest22 i 0) → h' !! p = h23 !! p)).
Proof.
  split.
  - apply (col_copy_spec src23 5 dest22 0 h23). right. left. vm_compute. discriminate.
  - apply (col_copy_spec src23 2 dest22 0 h23).
    + reflexivity.
    + reflexivity.
    + reflexivity.
    + wf_by_computation.
    + wf_by_computation.
    + apply separate_aligned. separate_by_computation.
Defined.


Lemma row_copy_contract_witness :
  (∃ e, mat.row_copy src22 2 dest22 0 h22 = (Abort e, h22)) ∧
  (∃ h', mat.row_copy src22 0 dest22 1 h22 = (Done tt, h') ∧
         (∀ j, j < getCols dest22 → h' !! element dest22 1 j = h22 !! element src22 0 j) ∧
         (∀ p, ¬ (∃ j, j < getCols dest22 ∧ p = cell dest22 1 j) → h' !! p = h22 !! p)).
Proof.
  split.
  - apply (row_copy_contract src22 2 dest22 0 h22). right. left. vm_compute. discriminate.
  - apply (row_copy_contract src22 0 dest22 1 h22).
    + reflexivity.
    + reflexivity.
    + reflexivity.
    + wf_by_computation.
    + wf_by_computation.
    + apply separate_aligned. separate_by_computation.
Defined.


Lemma copy_upper_to_lower_spec_witness :
  ∃ h', mat.copy_upper_to_lower M44 h44 = (Done tt, h') ∧ symmetric_matrix M44 h'.
Proof.
  destruct (copy_upper_to_lower_spec M44 h44) as (h' & Hrun & _ & _ & Hsym);
    [wf_by_computation|].
  exists h'. split; [exact Hrun|exact Hsym].
Defined.

Lemma copy_lower_to_upper_spec_witness :
  ∃ h', mat.copy_lower_to_upper M44 h44 = (Done tt, h') ∧ symmetric_matrix M44 h'.
Proof.
  destruct (copy_lower_to_upper_spec M44 h44) as (h' & Hrun & _ & _ & Hsym);
    [wf_by_computation|].
  exists h'. split; [exact Hrun|exact Hsym].
Defined.

Lemma symmetrized_transpose_fixed_witness :
  ∃ h1, mat.copy_upper_to_lower M44 h44 = (Done tt, h1) ∧
        (mat.copy_upper_to_lower M44;; mat.transpose M44) h44 = (Done tt, h1).
Proof.
  apply (symmetrized_transpose_fixed M44 h44); [wf_by_computation|reflexivity].
Defined.

Lemma set_identity_spec_witness :
  (∃ h', mat.set_identity dest22 h23 = (Done tt, h') ∧ is_identity dest22 h'
         ∧ untouched_outside dest22 h23 h') ∧
  (∃ h', mat.set_identity view23 h23 = (Done tt, h') ∧ is_identity view23 h'
         ∧ untouched_outside view23 h23 h').
Proof.
  destruct set_identity_spec as [HM HV]. split.
  - apply HM. wf_by_computation.
  - apply HV. wf_by_computation.
Defined.

Lemma transpose_of_spec_witness :
  (∃ e, mat.transpose_of dest22 src23 h23 = (Abort e, h23)) ∧
  (∃ h', mat.transpose_of dest32 src23 h32 = (Done tt, h') ∧
         (∀ i j, i < getRows dest32 → j < getCols dest32 →
            h' !! element dest32 i j = h32 !! element src23 j i) ∧
         untouched_outside dest32 h32 h').
Proof.
  split.
  - apply (transpose_of_spec dest22 src23 h23). left. discriminate.
  - apply (transpose_of_spec dest32 src23 h32).
    + reflexivity.
    + reflexivity.
    + wf_by_computation.
    + wf_by_computation.
    + separate_by_computation.
Defined.

Lemma transpose_of_round_trip_witness :
  ∃ h1, mat.transpose_of dest32 src23 h32 = (Done tt, h1) ∧
        (mat.transpose_of dest32 src23;; mat.transpose_of src23 dest32) h32 = (Done tt, h1).
Proof.
  apply (transpose_of_round_trip dest32 src23 h32).
  - wf_by_computation.
  - wf_by_computation.
  - separate_by_computation.
  - reflexivity.
  - reflexivity.
Defined.

Lemma transpose_of_itself_witness :
  ∃ h', mat.transpose_of src22 src22 h22 = (Done tt, h') ∧
        mat.copy_lower_to_upper src22 h22 = (Done tt, h') ∧
        (∀ i j, i < getRows src22 → j < getCols src22 →
           h' !! element src22 i j = h22 !! element src22 (N.max i j) (N.min i j)).
Proof.
  apply (transpose_of_itself src22 h22); [wf_by_computation|reflexivity].
Defined.

Lemma negate_twice_witness :
  ∃ h1, mat.negate strided_a h_strided = (Done tt, h1) ∧
        (mat.negate strided_a;; mat.negate strided_a) h_strided = (Done tt, h_strided).
Proof. apply (negate_twice strided_a h_strided). wf_by_computation. Defined.

Lemma nrminf_never_nan_witness :
  ∃ r, mat.nrminf strided_a (<[0 := nan]> h_strided) = (Done r, <[0 := nan]> h_strided) ∧
       is_nan r = false ∧ (r <? 0)%float = false.
Proof. apply (nrminf_never_nan strided_a (<[0 := nan]> h_strided)). wf_by_computation. Defined.

Lemma nrminf_negate_witness :
  ∃ h1 r, mat.negate strided_a h_strided = (Done tt, h1) ∧
          mat.nrminf strided_a h_strided = (Done r, h_strided) ∧
          mat.nrminf strided_a h1 = (Done r, h1).
Proof. apply (nrminf_negate strided_a h_strided). wf_by_computation. Defined.

Lemma isDiff_monotone_witness :
  mat.isDiff dest22 view23 0.25%float h23 = (Done true, h23).
Proof.
  apply (isDiff_monotone dest22 view23 0.5%float 0.25%float h23).
  - wf_by_computation.
  - wf_by_computation.
  - reflexivity.
  - reflexivity.
  - reflexivity.
  - vm_compute. reflexivity.
Defined.

Lemma isDiffSym_spec_witness :
  (∃ e, mat.isDiffSym src23 src23 0%float h23 = (Abort e, h23)) ∧
  (∃ b, mat.isDiffSym src22 dest22 0%float h22 = (Done b, h22) ∧
        (b = true ↔ upper_differ src22 dest22 0%float h22)).
Proof.
  split.
  - apply (isDiffSym_spec src23 src23 0%float h23).
    intros (_ & _ & Hrc & _). vm_compute in Hrc. discriminate.
  - apply (isDiffSym_spec src22 dest22 0%float h22).
    + repeat split.
    + wf_by_computation.
    + wf_by_computation.
Defined.

Lemma isDiffSym_isDiff_witness :
  ∃ b b', mat.isDiffSym src22 dest22 0%float h22 = (Done b, h22) ∧
          mat.isDiff src22 dest22 0%float h22 = (Done b', h22) ∧
          (b = true → b' = true) ∧
          (symmetric_matrix src22 h22 → symmetric_matrix dest22 h22 → b = b').
Proof.
  apply (isDiffSym_isDiff src22 dest22 0%float h22).
  - repeat split.
  - wf_by_computation.
  - wf_by_computation.
Defined.

Lemma assign_then_isDiff_witness :
  ∃ h', assign dest22 view23 h23 = (Done tt, h') ∧
        mat.isDiff dest22 view23 0%float h' = (Done false, h').
Proof.
  apply (assign_then_isDiff dest22 view23 h23).
  - wf_by_computation.
  - wf_by_computation.
  - separate_by_computation.
  - reflexivity.
  - reflexivity.
Defined.

Lemma reorderRows_spec_witness :
  (∃ e, mat.reorderRowsByVectors dest22 [1; 2] src22 [0; 1] h22 = (Abort e, h22)) ∧
  (∃ h', mat.reorderRowsByVectors dest22 [1; 0] src22 [0; 1] h22 = (Done tt, h') ∧
         rows_of dest22 h' = [[Some 3; Some 4]; [Some 1; Some 2]]%float).
Proof.
  split.
  - destruct (reorderRows_spec dest22 [1; 2] src22 [0; 1] h22) as [Hno _];
      [reflexivity|reflexivity|left; discriminate|].
    apply Hno. intros (_ & [Hin _] & _).
    apply in_range_forallb in Hin. vm_compute in Hin. discriminate.
  - destruct (reorderRows_spec dest22 [1; 0] src22 [0; 1] h22) as [_ Hok];
      [reflexivity|reflexivity|left; discriminate|].
    destruct Hok as (h' & Hrun & _).
    + apply rows_checks_precondition; reflexivity.
    + wf_by_computation.
    + wf_by_computation.
    + separate_by_computation.
    + exists h'. split; [exact Hrun|].
      vm_compute in Hrun. injection Hrun as <-. vm_compute. reflexivity.
Defined.

Lemma assignByVectors_general_spec_witness :
  (∃ e, mat.assignByVectors dest22 [1; 0] [0; 5] src23 [0; 1] [2; 0] h23 = (Abort e, h23)) ∧
  (∃ h', mat.assignByVectors dest22 [1; 0] [0; 1] src23 [0; 1] [2; 0] h23 = (Done tt, h') ∧
         rows_of dest22 h' = [[Some 6; Some 2]; [Some 5; Some 1]]%float).
Proof.
  split.
  - destruct (assignByVectors_general_spec dest22 [1; 0] [0; 5] src23 [0; 1] [2; 0] h23)
      as [Hno _]; [reflexivity|reflexivity|reflexivity|reflexivity|
                   left; discriminate|left; discriminate|].
    apply Hno. intros (_ & [Hin _] & _).
    apply in_range_forallb in Hin. vm_compute in Hin. discriminate.
  - destruct (assignByVectors_general_spec dest22 [1; 0] [0; 1] src23 [0; 1] [2; 0] h23)
      as [_ Hok]; [reflexivity|reflexivity|reflexivity|reflexivity|
                   left; discriminate|left; discriminate|].
    destruct Hok as (h' & Hrun & _).
    + apply general_checks_precondition. reflexivity.
    + wf_by_computation.
    + wf_by_computation.
    + separate_by_computation.
    + exists h'. split; [exact Hrun|].
      vm_compute in Hrun. injection Hrun as <-. vm_compute. reflexivity.
Defined.


Lemma repmat_no_rows_witness :
  ∃ e, mat.repmat no_rows_1 1 2 no_rows_2 h23 = (Abort e, h23).
Proof. apply (repmat_no_rows no_rows_1 1 2 no_rows_2 h23); reflexivity. Defined.

Lemma identity_minus_identity_witness :
  ∃ h', (mat.set_identity src22;; mat.set_identity dest22;;
         mat.sub src22 dest22;; mat.nrminf src22) h22 = (Done 0%float, h').
Proof.
  apply (identity_minus_identity src22 dest22 h22).
  - wf_by_computation.
  - wf_by_computation.
  - separate_by_computation.
  - reflexivity.
  - reflexivity.
Defined.

Lemma view_assign_block_witness :
  ∃ (view : MatrixView) (h' : heap),
    MatrixView_of M44 1 2 (getRows far22) (getCols far22) h44_far = (Done view, h44_far) ∧
    assign view far22 h44_far = (Done tt, h') ∧
    (∀ i j, i < getRows far22 → j < getCols far22 →
       h' !! element M44 (1 + i) (2 + j) = h44_far !! element far22 i j) ∧
    (∀ i j, i < getRows M44 → j < getCols M44 →
       ¬ (1 ≤ i < 1 + getRows far22 ∧ 2 ≤ j < 2 + getCols far22) →
       h' !! element M44 i j = h44_far !! element M44 i j) ∧
    untouched_outside M44 h44_far h'.
Proof.
  apply (view_assign_block M44 1 2 far22 h44_far).
  - wf_by_computation.
  - wf_by_computation.
  - separate_by_computation.
  - vm_compute. repeat split; discriminate.
Defined.

Lemma block_extraction_witness :
  ∃ (view : MatrixConstView) (h' : heap),
    MatrixConstView_of M44 1 2 (getRows far22) (getCols far22) h44_far = (Done view, h44_far) ∧
    assign far22 view h44_far = (Done tt, h') ∧
    (∀ i j, i < getRows far22 → j < getCols far22 →
       h' !! element far22 i j = h44_far !! element M44 (1 + i) (2 + j)) ∧
    untouched_outside far22 h44_far h'.
Proof.
  apply (block_extraction M44 1 2 far22 h44_far).
  - wf_by_computation.
  - wf_by_computation.
  - separate_by_computation.
  - vm_compute. repeat split; discriminate.
Defined.

Lemma empty_matrix_neutral_witness :
  mat.nrminf no_rows_2 h23 = (Done 0%float, h23) ∧
  mat.negate no_rows_2 h23 = (Done tt, h23) ∧
  mat.add_d no_rows_2 1%float h23 = (Done tt, h23) ∧
  mat.isDiff no_rows_2 no_rows_2 nan h23 = (Done false, h23) ∧
  mat.add no_rows_2 no_rows_2 h23 = (Done tt, h23) ∧
  mat.sub no_rows_2 no_rows_2 h23 = (Done tt, h23).
Proof.
  destruct (empty_matrix_neutral no_rows_2 no_rows_2 nan 1%float h23)
    as (Hn & Hneg & Hadd & Hpair).
  - wf_by_computation.
  - left. reflexivity.
  - split_and!; [exact Hn|exact Hneg|exact Hadd|apply Hpair..].
    all: try reflexivity; wf_by_computation.
Defined.
